(** * Step-recording Dijkstra engine and path reconstructor

    A shallow embedding of [dijkstra.py] ([dijkstra_steps],
    [reconstruct_path]) together with the slice of the networkx graph
    interface those two functions use ([n in G], [G.nodes],
    [G.neighbors], [G[u][v].get("weight", 1.0)]).

    Conventions of the embedding:
    - Python dictionaries are [gmap]s; a subscript [d[k]] is [getitem],
      which raises [KeyError] on an absent key.
    - The Python [set] [closed] is a [gset].  The Python [set]
      [open_set] is enumerated by [min], so it is kept as the list of its
      elements in enumeration order; that order is a parameter of the
      model (any permutation of the nodes), because CPython derives it
      from hash values.  Removing an element keeps the order of the rest.
    - Floating-point numbers are an abstract type with the operations
      the code applies to them ([0.0], [1.0], [math.inf], [+], [<],
      [math.isinf]); the order laws the proofs rely on are collected in
      [FloatOrder].
    - A call either returns, raises, or (for the model of a [while] loop
      only) runs out of fuel. *)

From stdpp Require Import gmap strings list fin_maps.

Set Warnings "-clear-no-such-hyp".

(** ** Outcomes of a call *)

Inductive exn := ValueError | KeyError.

Inductive outcome (A : Type) :=
| Returns (a : A)
| Raises (e : exn)
| OutOfFuel.
Arguments Returns {A} a.
Arguments Raises {A} e.
Arguments OutOfFuel {A}.

#[global] Instance outcome_bind : MBind outcome := λ A B f m,
  match m with
  | Returns a => f a
  | Raises e => Raises e
  | OutOfFuel => OutOfFuel
  end.

(** ** Floating-point numbers, abstractly *)

Class Float := {
  float : Type;
  zero : float;                    (* 0.0 *)
  one : float;                     (* 1.0 *)
  inf : float;                     (* math.inf *)
  fadd : float → float → float;    (* + *)
  flt : float → float → bool;      (* < *)
  isinf : float → bool;            (* math.isinf *)
}.

(** [a <= b], as the negation of [b < a]. *)
Definition fle `{Float} (a b : float) : Prop := flt b a = false.

(** The order laws of floating-point numbers without NaN, with [-0.0]
    and [0.0] taken as one number: [<] is a strict total order with top
    element [inf], and rounded addition is monotone in its left argument
    and never decreases a value when a non-negative number is added.
    Overflow to [inf] is allowed. *)
Class FloatOrder (F : Float) : Prop := {
  flt_irrefl a : flt a a = false;
  flt_trans a b c : flt a b = true → flt b c = true → flt a c = true;
  flt_total a b : flt a b = false → flt b a = false → a = b;
  inf_top a : flt inf a = false;
  fadd_mono a b w : fle a b → fle (fadd a w) (fadd b w);
  fadd_nonneg a w : fle zero w → fle a (fadd a w);
}.

(** ** Python containers *)

(** [d[k]] *)
Definition getitem `{Countable K} {V} (d : gmap K V) (k : K) : outcome V :=
  match d !! k with
  | Some v => Returns v
  | None => Raises KeyError
  end.

(** [{k: v for k in keys}] *)
Definition dict_fromkeys `{Countable K} {V} (keys : list K) (v : V) : gmap K V :=
  foldr (λ k d, <[k:=v]> d) ∅ keys.

(** [s.remove(x)] on a set given by its enumeration. *)
Fixpoint set_remove `{EqDecision K} (x : K) (s : list K) : outcome (list K) :=
  match s with
  | [] => Raises KeyError
  | y :: s' =>
      if decide (y = x) then Returns s'
      else s'' ← set_remove x s'; Returns (y :: s'')
  end.

(** [min(s, key=...)]: the first element whose key is strictly below the
    keys of all elements enumerated before it. *)
Fixpoint min_from `{Countable K} `{Float} (dist : gmap K float)
    (best : K) (kbest : float) (s : list K) : outcome K :=
  match s with
  | [] => Returns best
  | n :: s' =>
      kn ← getitem dist n;
      if flt kn kbest then min_from dist n kn s'
      else min_from dist best kbest s'
  end.

Definition py_min `{Countable K} `{Float} (dist : gmap K float)
    (s : list K) : outcome K :=
  match s with
  | [] => Raises ValueError
  | n :: s' => kn ← getitem dist n; min_from dist n kn s'
  end.

(** [for x in l: body], threading the variables the body updates. *)
Fixpoint for_each {A S} (l : list A) (body : A → S → outcome S) (s : S)
    : outcome S :=
  match l with
  | [] => Returns s
  | x :: l' => s' ← body x s; for_each l' body s'
  end.

(** Association lists stand for insertion-ordered dictionaries whose
    enumeration order matters. *)
Fixpoint assoc `{EqDecision K} {V} (k : K) (l : list (K * V)) : option V :=
  match l with
  | [] => None
  | (k', v) :: l' => if decide (k' = k) then Some v else assoc k l'
  end.

Section Engine.
Context {NodeId : Type} `{Countable NodeId} {F : Float}.

(** ** The graph interface

    [adj] is networkx's adjacency structure: for every node, in node
    insertion order, its neighbours in insertion order, each with the
    [weight] attribute of the edge if it has one.  For a directed graph
    the neighbours are the successors. *)
Record Graph := { adj : list (NodeId * list (NodeId * option float)) }.

(** [G.nodes] *)
Definition G_nodes (G : Graph) : list NodeId := (adj G).*1.

(** [n in G] *)
Definition G_contains (G : Graph) (n : NodeId) : bool :=
  bool_decide (n ∈ G_nodes G).

(** [G.neighbors(n)] *)
Definition G_neighbors (G : Graph) (n : NodeId) : outcome (list NodeId) :=
  match assoc n (adj G) with
  | Some nbrs => Returns nbrs.*1
  | None => Raises KeyError
  end.

(** [G[u][v].get("weight", 1.0)] *)
Definition G_weight (G : Graph) (u v : NodeId) : outcome float :=
  match assoc u (adj G) with
  | Some nbrs =>
      match assoc v nbrs with
      | Some attr => Returns (default one attr)
      | None => Raises KeyError
      end
  | None => Raises KeyError
  end.

(** ** Steps

    A relaxation log entry is the dictionary with keys [i], [j],
    [link_cost], [perm_cost], [temp_cost], [selected], [deleted]; a step
    is the dictionary with keys [iter], [trying], [selected_node],
    [closed], [dist], [prev]. *)
Record Log := {
  log_i : NodeId;
  log_j : NodeId;
  log_link_cost : float;
  log_perm_cost : float;
  log_temp_cost : float;
  log_selected : string;
  log_deleted : string;
}.

Record Step := {
  step_iter : nat;
  step_trying : list Log;
  step_selected_node : option NodeId;
  step_closed : gset NodeId;
  step_dist : gmap NodeId float;
  step_prev : gmap NodeId (option NodeId);
}.

(** ** [dijkstra_steps] *)

(** The working maps and the log, as the [for] loop updates them. *)
Definition Relax : Type :=
  gmap NodeId float * gmap NodeId (option NodeId) * list Log.

(** The body of [for nbr in G.neighbors(current)]. *)
Definition relax_nbr (G : Graph) (closed : gset NodeId) (current : NodeId)
    (nbr : NodeId) (r : Relax) : outcome Relax :=
  let '(dist, prev, trying_logs) := r in
  if decide (nbr ∈ closed) then
    link ← G_weight G current nbr;
    perm ← getitem dist current;
    let log_item :=
      {| log_i := current; log_j := nbr; log_link_cost := link;
         log_perm_cost := perm; log_temp_cost := fadd perm link;
         log_selected := "N/A"; log_deleted := "already_closed" |} in
    Returns (dist, prev, trying_logs ++ [log_item])
  else
    w ← G_weight G current nbr;
    perm ← getitem dist current;
    let new_cost := fadd perm w in
    let log_item :=
      {| log_i := current; log_j := nbr; log_link_cost := w;
         log_perm_cost := perm; log_temp_cost := new_cost;
         log_selected := "N/A"; log_deleted := "NA" |} in
    old ← getitem dist nbr;
    if flt new_cost old then
      Returns (<[nbr:=new_cost]> dist, <[nbr:=Some current]> prev,
               trying_logs ++ [log_item])
    else
      Returns (dist, prev, trying_logs ++ [log_item]).

(** The local variables of the [while] loop. *)
Record State := {
  iteration : nat;
  dist : gmap NodeId float;
  prev : gmap NodeId (option NodeId);
  closed : gset NodeId;
  open_set : list NodeId;
  steps : list Step;
}.

(** How a pass through the loop body ends: at its end, or at a [break]. *)
Inductive control := Continue | Break.

(** One pass through the body of [while open_set:], entered with a
    non-empty [open_set]; it returns the local variables as they are when
    the pass ends. *)
Definition loop_body (G : Graph) (goal : option NodeId) (st : State)
    : outcome (control * State) :=
  let iteration := S (iteration st) in
  current ← py_min (dist st) (open_set st);
  d ← getitem (dist st) current;
  if isinf d then
    let steps := steps st ++
      [{| step_iter := iteration; step_trying := [];
          step_selected_node := None; step_closed := closed st;
          step_dist := dist st; step_prev := prev st |}] in
    Returns (Break,
      {| iteration := iteration; dist := dist st; prev := prev st;
         closed := closed st; open_set := open_set st; steps := steps |})
  else
    nbrs ← G_neighbors G current;
    '(dist, prev, trying_logs) ←
      for_each nbrs (relax_nbr G (closed st) current) (dist st, prev st, []);
    let closed := {[current]} ∪ closed st in
    open_set ← set_remove current (open_set st);
    let steps := steps st ++
      [{| step_iter := iteration; step_trying := trying_logs;
          step_selected_node := Some current; step_closed := closed;
          step_dist := dist; step_prev := prev |}] in
    Returns (if decide (goal = Some current) then Break else Continue,
      {| iteration := iteration; dist := dist; prev := prev;
         closed := closed; open_set := open_set; steps := steps |}).

(** [while open_set: ...] followed by [return steps]. *)
Fixpoint dijkstra_loop (fuel : nat) (G : Graph) (goal : option NodeId)
    (st : State) : outcome (list Step) :=
  match open_set st with
  | [] => Returns (steps st)
  | _ :: _ =>
      match fuel with
      | 0 => OutOfFuel
      | S fuel' =>
          '(c, st') ← loop_body G goal st;
          match c with
          | Break => Returns (steps st')
          | Continue => dijkstra_loop fuel' G goal st'
          end
      end
  end.

(** The state on entry to the loop.  [order] enumerates
    [set(G.nodes)]. *)
Definition init_state (G : Graph) (order : list NodeId) (start : NodeId)
    : State :=
  {| iteration := 0;
     dist := <[start:=zero]> (dict_fromkeys (G_nodes G) inf);
     prev := dict_fromkeys (G_nodes G) None;
     closed := ∅;
     open_set := order;
     steps := [] |}.

(** Every pass removes one element of [open_set] or leaves the loop, so
    one unit of fuel per element is enough. *)
Definition dijkstra_steps (G : Graph) (order : list NodeId)
    (start : NodeId) (goal : option NodeId) : outcome (list Step) :=
  if G_contains G start then
    dijkstra_loop (length order) G goal (init_state G order start)
  else Raises ValueError.

(** ** [reconstruct_path] *)

(** The [while node is not None] loop; it returns [path] as it is on
    leaving the loop. *)
Fixpoint reconstruct_loop (fuel : nat) (prev : gmap NodeId (option NodeId))
    (start : NodeId) (node : option NodeId) (path : list NodeId)
    : outcome (list NodeId) :=
  match node with
  | None => Returns path
  | Some n =>
      match fuel with
      | 0 => OutOfFuel
      | S fuel' =>
          let path := path ++ [n] in
          if decide (n = start) then Returns path
          else
            node ← getitem prev n;
            reconstruct_loop fuel' prev start node path
      end
  end.

Definition reconstruct_path (fuel : nat) (prev : gmap NodeId (option NodeId))
    (start goal : NodeId) : outcome (list NodeId) :=
  path ← reconstruct_loop fuel prev start (Some goal) [];
  if bool_decide (path = [] ∨ last path ≠ Some start) then Returns []
  else Returns (reverse path).

(** ** Specification vocabulary *)

(** The invariants networkx maintains for an adjacency structure: node
    ids are unique, the neighbours of a node are unique, and every
    neighbour is itself a node. *)
Definition wf_graph (G : Graph) : bool :=
  bool_decide (NoDup (G_nodes G)) &&
  forallb (λ '(_, nbrs),
      bool_decide (NoDup nbrs.*1) &&
      forallb (λ '(v, _), bool_decide (v ∈ G_nodes G)) nbrs)
    (adj G).

(** Every edge weight, as [G_weight] reads it, is at least [0.0]. *)
Definition nonneg_weights (G : Graph) : bool :=
  forallb (λ '(_, nbrs),
      forallb (λ '(_, attr), negb (flt (default one attr) zero)) nbrs)
    (adj G).

(** [path G s (v :: vs) c]: the nodes [v :: vs], read from right to
    left, are a walk along edges of [G] from [s] to [v], and [c] is the
    sum of its weights accumulated from [s] on, as the engine adds them
    up. *)
Inductive path (G : Graph) (s : NodeId) : list NodeId → float → Prop :=
| path_start : path G s [s] zero
| path_step u vs c v w :
    path G s (u :: vs) c →
    G_weight G u v = Returns w →
    path G s (v :: u :: vs) (fadd c w).

(** [d] is the shortest-path distance from [s] to [v]: no walk from [s]
    to [v] costs less, and [d] is the cost of a walk without repeated
    nodes, or [inf] when there is none. *)
Definition shortest_dist (G : Graph) (s v : NodeId) (d : float) : Prop :=
  (∀ vs c, path G s (v :: vs) c → fle d c) ∧
  (d = inf ∨ ∃ vs, path G s (v :: vs) d ∧ NoDup (v :: vs)).

(** The backward walk of the path reconstructor, as the specification
    describes it: from a node follow [prev] until [start] is reached or
    no predecessor is found.  The list holds the nodes visited, in the
    order visited. *)
Inductive walk_end := ReachedStart | AbsentPredecessor | MissingKey.

Inductive backward_walk (prev : gmap NodeId (option NodeId))
    (start : NodeId) : NodeId → list NodeId → walk_end → Prop :=
| bw_start : backward_walk prev start start [start] ReachedStart
| bw_absent n :
    n ≠ start → prev !! n = Some None →
    backward_walk prev start n [n] AbsentPredecessor
| bw_missing n :
    n ≠ start → prev !! n = None →
    backward_walk prev start n [n] MissingKey
| bw_step n p l e :
    n ≠ start → prev !! n = Some (Some p) →
    backward_walk prev start p l e →
    backward_walk prev start n (n :: l) e.

(** The step the engine records when it stops on an unreachable
    remainder. *)
Definition terminal_step (st : State) : Step :=
  {| step_iter := S (iteration st); step_trying := [];
     step_selected_node := None; step_closed := closed st;
     step_dist := dist st; step_prev := prev st |}.

(** A relaxation attempt on [n] that was not skipped. *)
Definition attempted (n : NodeId) (s : Step) : Prop :=
  ∃ l, l ∈ step_trying s ∧ log_j l = n ∧ log_deleted l ≠ "already_closed".

(** A node that no attempt was made on still has the distance it was
    given before the loop: [inf], or [0.0] if it is [start]. *)
Definition untouched (G : Graph) (start : NodeId) (st : State) : Prop :=
  ∀ n, n ∈ G_nodes G →
    (∀ s, s ∈ steps st → ¬ attempted n s) →
    dist st !! n = Some (if decide (n = start) then zero else inf).

(** ** Invariants of the engine *)

Implicit Types (G : Graph) (st : State).

(** What one relaxation log entry says, for a pass that selected
    [current] while [closed] was the set of finalized nodes. *)
Definition log_ok G (closed : gset NodeId) (current : NodeId) (l : Log) : Prop :=
  log_i l = current ∧
  G_weight G current (log_j l) = Returns (log_link_cost l) ∧
  log_temp_cost l = fadd (log_perm_cost l) (log_link_cost l) ∧
  log_selected l = "N/A" ∧
  log_deleted l =
    (if decide (log_j l ∈ closed) then "already_closed" else "NA").

(** The number of steps that finalized a node. *)
Definition finalizations (l : list Step) : nat :=
  length (omap step_selected_node l).

(** The bookkeeping of the loop: the working maps are keyed by the
    nodes, [closed] and [open_set] split the nodes, and every node in
    [closed] was finalized by a step of its own. *)
Record Wf G st : Prop := {
  wf_dom_dist : dom (dist st) = list_to_set (G_nodes G);
  wf_dom_prev : dom (prev st) = list_to_set (G_nodes G);
  wf_open_nodup : NoDup (open_set st);
  wf_partition n : n ∈ G_nodes G ↔ n ∈ closed st ∨ n ∈ open_set st;
  wf_disjoint n : n ∈ closed st → n ∉ open_set st;
  wf_count : size (closed st) = finalizations (steps st);
}.

(** The last recorded step is a copy of the working state. *)
Definition snapshot st : Prop :=
  ∀ s, last (steps st) = Some s →
    step_closed s = closed st ∧ step_dist s = dist st ∧
    step_prev s = prev st.

(** Every recorded step finalized a node other than the goal; this holds
    whenever the loop goes round again. *)
Definition all_selected (goal : option NodeId) (l : list Step) : Prop :=
  ∀ s, s ∈ l → ∃ n, step_selected_node s = Some n ∧ goal ≠ Some n.

(** Before the first step nothing is finalized. *)
Definition fresh st : Prop := steps st = [] → closed st = ∅.

(** A step without a selected node is the last one, has no attempts and
    repeats the tables of the step before it; if it is the first step,
    its finalized set is empty. *)
Definition terminal_ok (l : list Step) : Prop :=
  ∀ i s, l !! i = Some s → step_selected_node s = None →
    S i = length l ∧ step_trying s = [] ∧
    (i = 0 → step_closed s = ∅) ∧
    ∀ j s0, i = S j → l !! j = Some s0 →
      step_closed s = step_closed s0 ∧ step_dist s = step_dist s0 ∧
      step_prev s = step_prev s0.

(** From one step to the next, finalized nodes stay finalized with the
    same distance and no distance grows. *)
Definition monotone_steps (l : list Step) : Prop :=
  ∀ i s1 s2, l !! i = Some s1 → l !! (S i) = Some s2 →
    step_closed s1 ⊆ step_closed s2 ∧
    (∀ n, n ∈ step_closed s1 → step_dist s2 !! n = step_dist s1 !! n) ∧
    (∀ n d1, step_dist s1 !! n = Some d1 →
       ∃ d2, step_dist s2 !! n = Some d2 ∧ fle d2 d1).

(** Distances and predecessors agree, and predecessors are finalized. *)
Definition consistent G (closed : gset NodeId) (dist : gmap NodeId float)
    (prev : gmap NodeId (option NodeId)) : Prop :=
  ∀ n p, prev !! n = Some (Some p) →
    p ∈ closed ∧
    ∃ dn dp w, dist !! n = Some dn ∧ dist !! p = Some dp ∧
               G_weight G p n = Returns w ∧ dn = fadd dp w.

(** A ranking of the nodes that decreases along [prev]: finalized nodes
    are ranked in the order they were finalized, below all others. *)
Definition ranked (closed : gset NodeId)
    (prev : gmap NodeId (option NodeId)) (rank : NodeId → nat) : Prop :=
  (∀ n, n ∈ closed → rank n < size closed) ∧
  (∀ n, n ∉ closed → rank n = size closed) ∧
  (∀ n p, prev !! n = Some (Some p) → p ∈ closed ∧ rank p < rank n).


(** The invariant behind the correctness of the distances. *)
Record Dijkstra G (start : NodeId) st : Prop := {
  dj_start : ∃ d, dist st !! start = Some d ∧ fle d zero;
  dj_path v d :
    dist st !! v = Some d →
    d = inf ∨ ∃ vs, path G start (v :: vs) d ∧ NoDup (v :: vs) ∧
                    ∀ x, x ∈ vs → x ∈ closed st;
  dj_closed u d vs c :
    u ∈ closed st → dist st !! u = Some d →
    path G start (u :: vs) c → fle d c;
  dj_edges u v w du dv :
    u ∈ closed st → v ∉ closed st → G_weight G u v = Returns w →
    dist st !! u = Some du → dist st !! v = Some dv →
    fle dv (fadd du w);
}.

(** ** Further invariants of the engine *)

(** Steps are numbered from 1. *)
Definition numbered (l : list Step) : Prop :=
  ∀ i s, l !! i = Some s → step_iter s = S i.

(** The finalized set of the step before position [i]. *)
Definition closed_before (l : list Step) (i : nat) : gset NodeId :=
  match i with
  | 0 => ∅
  | S j => from_option step_closed ∅ (l !! j)
  end.

(** A step that selects a node adds exactly that node, a node of the
    graph not finalized before, to the finalized set. *)
Definition grows G (l : list Step) : Prop :=
  ∀ i s u, l !! i = Some s → step_selected_node s = Some u →
    u ∈ G_nodes G ∧ (u ∉ closed_before l i) ∧
    step_closed s = {[u]} ∪ closed_before l i.

(** The facts about the working tables that hold between passes on a
    graph with non-negative weights. *)
Record Tables G (start : NodeId) (closed : gset NodeId)
    (dist : gmap NodeId float) (prev : gmap NodeId (option NodeId))
    : Prop := {
  t_start : dist !! start = Some zero ∧ prev !! start = Some None;
  t_nonneg n d : dist !! n = Some d → fle zero d;
  t_root n : prev !! n = Some None → n = start ∨ dist !! n = Some inf;
  t_tree : consistent G closed dist prev;
  t_sorted u v du dv :
    u ∈ closed → v ∉ closed →
    dist !! u = Some du → dist !! v = Some dv → fle du dv;
  t_finite u d : u ∈ closed → dist !! u = Some d → isinf d = false;
}.

(** What holds of every step recorded on a graph with non-negative
    weights: the facts of [Tables] for its copies of the tables, which
    are keyed by the nodes; a ranking that decreases along its
    predecessor map; shortest distances for its finalized nodes; and a
    selected node at least as far from [start] as every finalized one. *)
Record sound_step G (start : NodeId) (s : Step) : Prop := {
  ss_tables : Tables G start (step_closed s) (step_dist s) (step_prev s);
  ss_dom_dist : dom (step_dist s) = list_to_set (G_nodes G);
  ss_dom_prev : dom (step_prev s) = list_to_set (G_nodes G);
  ss_closed n : n ∈ step_closed s → n ∈ G_nodes G;
  ss_rank :
    ∃ rank, ranked (step_closed s) (step_prev s) rank ∧
            ∀ n, n ∈ G_nodes G → rank n < length (G_nodes G);
  ss_short u d :
    u ∈ step_closed s → step_dist s !! u = Some d →
    shortest_dist G start u d;
  ss_order u v du dv :
    step_selected_node s = Some u → v ∈ step_closed s →
    step_dist s !! u = Some du → step_dist s !! v = Some dv →
    fle dv du;
}.

(** ** What a relaxation attempt does

    The log entry of an attempt does not say whether the attempt
    improved the neighbour; the tables of the step do. *)

(** The tables a step starts from: those of the step before it, or, for
    the first step, the tables as they are before the loop. *)
Definition dist_before G (start : NodeId) (l : list Step) (i : nat)
    : gmap NodeId float :=
  match i with
  | 0 => <[start:=zero]> (dict_fromkeys (G_nodes G) inf)
  | S j => from_option step_dist ∅ (l !! j)
  end.

Definition prev_before G (l : list Step) (i : nat)
    : gmap NodeId (option NodeId) :=
  match i with
  | 0 => dict_fromkeys (G_nodes G) None
  | S j => from_option step_prev ∅ (l !! j)
  end.

(** The distance of the selected node [u] when its [k]-th neighbour is
    tried, [d0] being the distances the step starts from and [d1] the
    ones it records: only the attempt on [u] itself, along a self-loop,
    changes it. *)
Definition working_dist (u : NodeId) (nbrs : list NodeId) (k : nat)
    (d0 d1 : gmap NodeId float) : option float :=
  if decide (u ∈ take k nbrs) then d1 !! u else d0 !! u.

(** What the attempt logged as [l] did, between the tables [d0], [p0]
    the step starts from and the tables [d1], [p1] it records.  A
    neighbour among the finalized nodes [closed0] is skipped; any other
    is improved, to the candidate distance and with the selected node as
    predecessor, exactly when the candidate is strictly less than the
    distance the neighbour has, and is left as it is otherwise. *)
Definition attempt_effect (closed0 : gset NodeId)
    (d0 d1 : gmap NodeId float) (p0 p1 : gmap NodeId (option NodeId))
    (l : Log) : Prop :=
  if decide (log_j l ∈ closed0) then
    d1 !! log_j l = d0 !! log_j l ∧ p1 !! log_j l = p0 !! log_j l
  else
    ∃ old, d0 !! log_j l = Some old ∧
      if flt (log_temp_cost l) old then
        d1 !! log_j l = Some (log_temp_cost l) ∧
        p1 !! log_j l = Some (Some (log_i l))
      else
        d1 !! log_j l = Some old ∧ p1 !! log_j l = p0 !! log_j l.

(** The attempts of every step that selected a node, against the tables
    of the step and of the step before it. *)
Definition attempts_ok G (start : NodeId) (l : list Step) : Prop :=
  ∀ i s u, l !! i = Some s → step_selected_node s = Some u →
    ∃ nbrs, G_neighbors G u = Returns nbrs ∧ NoDup nbrs ∧
      log_j <$> step_trying s = nbrs ∧
      (∀ k lg, step_trying s !! k = Some lg →
         log_ok G (closed_before l i) u lg ∧
         Some (log_perm_cost lg) =
           working_dist u nbrs k (dist_before G start l i) (step_dist s) ∧
         attempt_effect (closed_before l i)
           (dist_before G start l i) (step_dist s)
           (prev_before G l i) (step_prev s) lg) ∧
      (∀ n, n ∉ nbrs →
         step_dist s !! n = dist_before G start l i !! n ∧
         step_prev s !! n = prev_before G l i !! n).

(** Before the first step the tables are the initial ones. *)
Definition pristine G (start : NodeId) st : Prop :=
  steps st = [] →
  dist st = <[start:=zero]> (dict_fromkeys (G_nodes G) inf) ∧
  prev st = dict_fromkeys (G_nodes G) None.

(** ** [draw_step] (graph_utils.py)

    The picture is matplotlib's; what [draw_step] computes for it from a
    step is the colour of every node, the edges drawn as being tried and
    the edges drawn as the final path. *)

(** The colours of the nodes, in the order of [G.nodes]. *)
Definition node_colors (G : Graph) (s : Step) : list string :=
  (λ n, if decide (Some n = step_selected_node s) then "#FFD700"
        else if decide (n ∈ step_closed s) then "#FF6B6B"
        else "#FFFFFF") <$> G_nodes G.

(** [[(t["i"], t["j"]) for t in trying
      if t.get("deleted") != "already_closed"]] *)
Definition trying_edges (trying : list Log) : list (NodeId * NodeId) :=
  (λ t, (log_i t, log_j t)) <$>
  filter (λ t, log_deleted t ≠ "already_closed") trying.

(** [while node != start: ...], with [ok] and [path_edges] as they are
    when the loop ends.  [prev.get(node)] is [None] for a missing key as
    for a recorded [None]. *)
Fixpoint path_edges_loop (fuel : nat) (prev : gmap NodeId (option NodeId))
    (start node : NodeId) (path_edges : list (NodeId * NodeId))
    : outcome (bool * list (NodeId * NodeId)) :=
  if decide (node = start) then Returns (true, path_edges)
  else
    match fuel with
    | 0 => OutOfFuel
    | S fuel' =>
        match mjoin (prev !! node) with
        | None => Returns (false, path_edges)
        | Some p =>
            path_edges_loop fuel' prev start p (path_edges ++ [(p, node)])
        end
    end.

(** The edges drawn as the final path, if a path is drawn.  [start] and
    [goal] may be [None]. *)
Definition final_path_edges (fuel : nat) (G : Graph) (s : Step)
    (start goal : option NodeId)
    : outcome (option (list (NodeId * NodeId))) :=
  match start, goal with
  | Some start, Some goal =>
      if bool_decide (goal ∈ step_closed s) && G_contains G start
         && G_contains G goal then
        '(ok, path_edges) ← path_edges_loop fuel (step_prev s) start goal [];
        Returns (if ok : bool then Some path_edges else None)
      else Returns None
  | _, _ => Returns None
  end.

(** The edges along a backward walk, each from the predecessor to the
    node, in the order walked. *)
Fixpoint hops (l : list NodeId) : list (NodeId * NodeId) :=
  match l with
  | [] => []
  | n :: l' =>
      match l' with
      | [] => []
      | p :: _ => (p, n) :: hops l'
      end
  end.

(** ** [load_graph_from_json_str] (graph_utils.py)

    The payload is the JSON document as [json.loads] and pydantic's type
    checks deliver it; a document that fails there raises [ValueError]
    before any of the code below runs. *)
Record Node := { node_id : NodeId; node_label : string }.

Record Edge := {
  edge_source : NodeId;
  edge_target : NodeId;
  edge_weight : float;
}.

Record GraphPayload := {
  payload_directed : bool;
  payload_nodes : list Node;
  payload_edges : list Edge;
}.

(** The validator of the field [nodes]. *)
Definition unique_ids (v : list Node) : outcome (list Node) :=
  let ids := node_id <$> v in
  if decide (length ids ≠ size (list_to_set ids : gset NodeId)) then
    Raises ValueError
  else Returns v.

(** A networkx graph: its adjacency structure and the [label] attribute
    of the nodes that have one. *)
Record NxGraph := {
  nx_graph : Graph;
  nx_label : gmap NodeId string;
}.

(** [d[k] = v] on an insertion-ordered dictionary: a key that is present
    keeps its place, a new key goes to the end. *)
Fixpoint assoc_set {V} (k : NodeId) (v : V) (l : list (NodeId * V))
    : list (NodeId * V) :=
  match l with
  | [] => [(k, v)]
  | (k', v') :: l' =>
      if decide (k' = k) then (k, v) :: l' else (k', v') :: assoc_set k v l'
  end.

(** [if n not in self._node: self._adj[n] = {}] *)
Definition adj_touch (n : NodeId)
    (a : list (NodeId * list (NodeId * option float)))
    : list (NodeId * list (NodeId * option float)) :=
  if decide (n ∈ a.*1) then a else a ++ [(n, [])].

(** [self._adj[u][v] = datadict], where [datadict] is the attribute
    dictionary of the edge with [weight] set to [w]. *)
Definition adj_set (u v : NodeId) (w : float)
    (a : list (NodeId * list (NodeId * option float)))
    : outcome (list (NodeId * list (NodeId * option float))) :=
  match assoc u a with
  | Some nbrs => Returns (assoc_set u (assoc_set v (Some w) nbrs) a)
  | None => Raises KeyError
  end.

(** [G.add_node(n, label=l)] *)
Definition add_node (n : NodeId) (l : string) (g : NxGraph) : NxGraph :=
  {| nx_graph := {| adj := adj_touch n (adj (nx_graph g)) |};
     nx_label := <[n:=l]> (nx_label g) |}.

(** [G.add_edge(u, v, weight=w)]: both ends become nodes if they are
    not, and the edge is entered at [u], and at [v] as well unless the
    graph is a [DiGraph]. *)
Definition add_edge (is_directed : bool) (u v : NodeId) (w : float)
    (g : NxGraph) : outcome NxGraph :=
  let a := adj_touch v (adj_touch u (adj (nx_graph g))) in
  a ← adj_set u v w a;
  a ← (if is_directed then Returns a else adj_set v u w a);
  Returns {| nx_graph := {| adj := a |}; nx_label := nx_label g |}.

Definition load_graph_from_json_str (payload : GraphPayload)
    : outcome NxGraph :=
  nodes ← unique_ids (payload_nodes payload);
  let g := {| nx_graph := {| adj := [] |}; nx_label := ∅ |} in
  let g := foldl (λ g n, add_node (node_id n) (node_label n) g) g nodes in
  for_each (payload_edges payload)
    (λ e g, add_edge (payload_directed payload)
              (edge_source e) (edge_target e) (edge_weight e) g) g.

(** The payload edge [e] makes [v] a neighbour of [u]. *)
Definition joins (is_directed : bool) (u v : NodeId) (e : Edge) : bool :=
  bool_decide (edge_source e = u ∧ edge_target e = v) ||
  negb is_directed && bool_decide (edge_source e = v ∧ edge_target e = u).

(** [n] is an end of the payload edge [e]. *)
Definition endpoint (n : NodeId) (e : Edge) : Prop :=
  n = edge_source e ∨ n = edge_target e.

(** The attribute dictionary of the edge from [u] to [v], if there is
    such an edge. *)
Definition edge_attr (a : list (NodeId * list (NodeId * option float)))
    (u v : NodeId) : option (option float) :=
  assoc u a ≫= assoc v.

(** Node ids are unique, and so are the neighbours of every node. *)
Definition adj_ok (a : list (NodeId * list (NodeId * option float))) : Prop :=
  NoDup a.*1 ∧ ∀ n nbrs, assoc n a = Some nbrs → NoDup nbrs.*1.

(** The node ids after [n] has been made a node. *)
Definition touch_keys (n : NodeId) (ks : list NodeId) : list NodeId :=
  if decide (n ∈ ks) then ks else ks ++ [n].

(** The graph under construction when the payload edges [es] have been
    added to the nodes [ids]: the node list is [ids] followed by the ends
    of edges that are not among them, and the attribute of an edge is the
    weight of the last payload edge that joins its ends. *)
Definition loading (ids : list NodeId) (is_directed : bool)
    (es : list Edge) (g : NxGraph) : Prop :=
  adj_ok (adj (nx_graph g)) ∧
  (∃ extra, G_nodes (nx_graph g) = ids ++ extra ∧
     ∀ n, n ∈ extra ↔ (n ∉ ids) ∧ Exists (endpoint n) es) ∧
  ∀ x y, edge_attr (adj (nx_graph g)) x y =
    (λ e, Some (edge_weight e)) <$>
    last (filter (λ e, joins is_directed x y e) es).

(** ** The application (app.py)

    Streamlit runs the script from top to bottom on every interaction;
    the widgets hand the run their values, and the session state is what
    one run leaves to the next.  [ss.pos] is read by the drawing only and
    is left out. *)
Record Session := {
  ss_G : option NxGraph;
  ss_start : option NodeId;
  ss_goal : option NodeId;
  ss_steps : list Step;
  ss_idx : Z;
}.

(** What the file uploader holds: no file, bytes that are not UTF-8, a
    text that [json.loads] or pydantic's type checks reject, or a
    document. *)
Inductive Upload :=
| NoFile
| Undecodable
| Malformed
| Document (payload : GraphPayload).

(** The values the widgets return in one run.  [w_layout] is the outcome
    of the layout and of the messages after it, [w_order] the order in
    which [set(G.nodes)] is enumerated should the run call
    [dijkstra_steps].  A button may return any value: that a disabled
    button is never pressed is not assumed. *)
Record Widgets := {
  w_uploaded : Upload;
  w_layout : outcome unit;
  w_start : option NodeId;
  w_goal : option NodeId;
  w_order : list NodeId;
  w_prepare : bool;
  w_reset : bool;
  w_prev : bool;
  w_next : bool;
}.

(** [ss.setdefault(...)] on a fresh session. *)
Definition initial_session : Session :=
  {| ss_G := None; ss_start := None; ss_goal := None;
     ss_steps := []; ss_idx := 0 |}.

(** The upload section.  The bytes are decoded before the [try]. *)
Definition upload (w : Widgets) (ss : Session) : outcome Session :=
  match w_uploaded w with
  | NoFile => Returns ss
  | Undecodable => Raises ValueError
  | doc =>
      let body :=
        payload ← match doc with
                  | Document payload => Returns payload
                  | _ => Raises ValueError
                  end;
        g ← load_graph_from_json_str payload;
        _ ← w_layout w;
        Returns g in
      match body with
      | Returns g =>
          Returns {| ss_G := Some g; ss_start := ss_start ss;
                     ss_goal := ss_goal ss; ss_steps := ss_steps ss;
                     ss_idx := ss_idx ss |}
      | Raises _ =>
          Returns {| ss_G := None; ss_start := ss_start ss;
                     ss_goal := ss_goal ss; ss_steps := []; ss_idx := 0 |}
      | OutOfFuel => OutOfFuel
      end
  end.

(** The selection of [start] and [goal] and the button that prepares the
    steps.  A [start] of [None] is not in the graph. *)
Definition prepare (w : Widgets) (ss : Session) : outcome Session :=
  match ss_G ss with
  | None => Returns ss
  | Some g =>
      let start := w_start w in
      let goal := w_goal w in
      if w_prepare w then
        let body :=
          match start with
          | Some start => dijkstra_steps (nx_graph g) (w_order w) start goal
          | None => Raises ValueError
          end in
        match body with
        | Returns r =>
            Returns {| ss_G := Some g; ss_start := start; ss_goal := goal;
                       ss_steps := r; ss_idx := 0 |}
        | Raises _ =>
            Returns {| ss_G := Some g; ss_start := start; ss_goal := goal;
                       ss_steps := []; ss_idx := 0 |}
        | OutOfFuel => OutOfFuel
        end
      else
        Returns {| ss_G := Some g; ss_start := start; ss_goal := goal;
                   ss_steps := ss_steps ss; ss_idx := ss_idx ss |}
  end.

(** The three cursor buttons, shown when there is a graph and there are
    steps. *)
Definition cursor (w : Widgets) (ss : Session) : Session :=
  match ss_G ss, ss_steps ss with
  | Some _, _ :: _ =>
      let idx := ss_idx ss in
      let idx := if w_reset w then 0%Z else idx in
      let idx := if w_prev w then Z.max 0 (idx - 1) else idx in
      let idx :=
        if w_next w then Z.min (Z.of_nat (length (ss_steps ss)) - 1) (idx + 1)
        else idx in
      {| ss_G := ss_G ss; ss_start := ss_start ss; ss_goal := ss_goal ss;
         ss_steps := ss_steps ss; ss_idx := idx |}
  | _, _ => ss
  end.

(** One run of the script, up to the point where it shows a step. *)
Definition script_run (w : Widgets) (ss : Session) : outcome Session :=
  ss ← upload w ss;
  ss ← prepare w ss;
  Returns (cursor w ss).

(** A session: one run after the other. *)
Fixpoint script_runs (ws : list Widgets) (ss : Session) : outcome Session :=
  match ws with
  | [] => Returns ss
  | w :: ws' => ss' ← script_run w ss; script_runs ws' ss'
  end.

(** [l[i]] for a Python integer [i]; [None] stands for [IndexError]. *)
Definition py_index {A} (l : list A) (i : Z) : option A :=
  if decide (0 ≤ i)%Z then l !! Z.to_nat i
  else if decide (- Z.of_nat (length l) ≤ i)%Z then
    l !! Z.to_nat (Z.of_nat (length l) + i)
  else None.

(** [ss.steps[ss.idx]], which the run shows when there is a graph and
    there are steps. *)
Definition shown_step (ss : Session) : option (option Step) :=
  match ss_G ss, ss_steps ss with
  | Some _, _ :: _ => Some (py_index (ss_steps ss) (ss_idx ss))
  | _, _ => None
  end.

(** The cursor is a position of the step list, if there are steps. *)
Definition cursor_ok (ss : Session) : Prop :=
  (0 ≤ ss_idx ss)%Z ∧
  (ss_steps ss ≠ [] → (ss_idx ss < Z.of_nat (length (ss_steps ss)))%Z).

(** The graph of the session, if there is one, has the shape networkx
    keeps. *)
Definition graph_ok (ss : Session) : Prop :=
  ∀ g, ss_G ss = Some g → wf_graph (nx_graph g) = true.

End Engine.

(** ** A concrete number system and sample graphs

    Integers extended with [+∞] satisfy the order laws; the examples use
    them for weights. *)
Inductive xint := Fin (z : Z) | PInf.

Definition xadd (a b : xint) : xint :=
  match a, b with
  | Fin x, Fin y => Fin (x + y)
  | _, _ => PInf
  end.

Definition xlt (a b : xint) : bool :=
  match a, b with
  | Fin x, Fin y => bool_decide (x < y)%Z
  | Fin _, PInf => true
  | PInf, _ => false
  end.

Definition xisinf (a : xint) : bool :=
  match a with
  | PInf => true
  | Fin _ => false
  end.

#[global] Instance xint_float : Float :=
  {| float := xint; zero := Fin 0; one := Fin 1; inf := PInf;
     fadd := xadd; flt := xlt; isinf := xisinf |}.

(** An undirected graph over numbered nodes, built the way
    [load_graph_from_json_str] does: every edge is entered at both of its
    ends. *)
Definition undirected (nodes : list nat) (edges : list (nat * nat * Z))
    : Graph (NodeId:=nat) :=
  {| adj := (λ n, (n,
       omap (λ '(a, b, w),
         if decide (a = n) then Some (b, Some (Fin w))
         else if decide (b = n) then Some (a, Some (Fin w))
         else None) edges)) <$> nodes |}.

(** A directed graph: every edge is entered at its source only. *)
Definition directed (nodes : list nat) (edges : list (nat * nat * Z))
    : Graph (NodeId:=nat) :=
  {| adj := (λ n, (n,
       omap (λ '(a, b, w),
         if decide (a = n) then Some (b, Some (Fin w)) else None) edges))
       <$> nodes |}.

(** The sample payload of the application, with weights in tenths. *)
Definition sample : Graph :=
  undirected [1; 2; 3; 4]
    [(1, 2, 15%Z); (1, 3, 21%Z); (2, 3, 9%Z); (2, 4, 20%Z); (3, 4, 12%Z)].

(** Two nodes joined by one edge. *)
Definition pair_graph : Graph := undirected [1; 2] [(1, 2, 1%Z)].

(** A node with a self-loop of negative weight. *)
Definition loop_graph : Graph := directed [1; 2] [(1, 1, (-1)%Z); (1, 2, 5%Z)].

(** A node with no edge to the rest. *)
Definition split_graph : Graph := undirected [1; 2; 3] [(1, 2, 1%Z)].

(** The steps of a call that returned, and the step at a position. *)
Definition steps_of (o : outcome (list (Step (NodeId:=nat))))
    : list Step :=
  match o with
  | Returns r => r
  | _ => []
  end.

Definition empty_step : Step (NodeId:=nat) :=
  {| step_iter := 0; step_trying := []; step_selected_node := None;
     step_closed := ∅; step_dist := ∅; step_prev := ∅ |}.

Definition step_at (r : list Step) (i : nat) : Step :=
  default empty_step (r !! i).

Definition sample_steps : list Step :=
  steps_of (dijkstra_steps sample [1; 2; 3; 4] 1 (Some 4)).

Definition split_steps : list Step :=
  steps_of (dijkstra_steps split_graph [1; 2; 3] 1 None).

Definition loop_steps : list Step :=
  steps_of (dijkstra_steps loop_graph [1; 2] 1 None).

Definition split_goal_steps : list Step :=
  steps_of (dijkstra_steps split_graph [1; 2; 3] 1 (Some 2)).

(** The predecessor map of the last step on the sample graph. *)
Definition sample_prev : gmap nat (option nat) :=
  step_prev (step_at sample_steps 3).

(** A predecessor map that leads to a node it has no entry for. *)
Definition broken_prev : gmap nat (option nat) := {[4 := Some 9]}.

(** The state of the loop on [split_graph] after two passes, when only
    the unreachable node is left. *)
Definition split_state : State :=
  {| iteration := 2;
     dist := step_dist (step_at split_steps 1);
     prev := step_prev (step_at split_steps 1);
     closed := step_closed (step_at split_steps 1);
     open_set := [3];
     steps := take 2 split_steps |}.

(** A predecessor map with a cycle that [start] is not on. *)
Definition cyclic_prev : gmap nat (option nat) :=
  {[2 := Some 3; 3 := Some 2]}.

(** Payloads over numbered nodes; a node is labelled by a name. *)
Definition payload_of (is_directed : bool) (nodes : list (nat * string))
    (edges : list (nat * nat * Z)) : GraphPayload (NodeId:=nat) :=
  {| payload_directed := is_directed;
     payload_nodes :=
       (λ '(n, l), {| node_id := n; node_label := l |}) <$> nodes;
     payload_edges :=
       (λ '(a, b, w),
          {| edge_source := a; edge_target := b; edge_weight := Fin w |})
       <$> edges |}.

(** The sample payload of the application, with weights in tenths. *)
Definition sample_payload : GraphPayload :=
  payload_of false [(1, "1"); (2, "2"); (3, "3"); (4, "4")]
    [(1, 2, 15%Z); (1, 3, 21%Z); (2, 3, 9%Z); (2, 4, 20%Z); (3, 4, 12%Z)].

(** An edge to a node that is not declared, and an edge given twice. *)
Definition stray_payload : GraphPayload :=
  payload_of false [(1, "a"); (2, "b")]
    [(1, 3, 5%Z); (1, 2, 4%Z); (2, 1, 7%Z)].

(** Two nodes with the same id. *)
Definition twin_payload : GraphPayload :=
  payload_of false [(1, "a"); (1, "b")] [].

(** The graph of a call of the loader that returned. *)
Definition loaded_of (o : outcome (NxGraph (NodeId:=nat)))
    : NxGraph (NodeId:=nat) :=
  match o with
  | Returns g => g
  | _ => {| nx_graph := {| adj := [] |}; nx_label := ∅ |}
  end.

Definition sample_loaded : NxGraph :=
  loaded_of (load_graph_from_json_str sample_payload).

Definition stray_loaded : NxGraph :=
  loaded_of (load_graph_from_json_str stray_payload).

(** A session: the sample payload is uploaded, the steps from node 1 to
    node 4 are prepared, and [Next] is pressed five times. *)
Definition idle (up : Upload (NodeId:=nat)) : Widgets :=
  {| w_uploaded := up; w_layout := Returns ();
     w_start := Some 1; w_goal := Some 4; w_order := [1; 2; 3; 4];
     w_prepare := false; w_reset := false; w_prev := false;
     w_next := false |}.

Definition press_prepare (w : Widgets (NodeId:=nat)) : Widgets :=
  {| w_uploaded := w_uploaded w; w_layout := w_layout w;
     w_start := w_start w; w_goal := w_goal w; w_order := w_order w;
     w_prepare := true; w_reset := w_reset w; w_prev := w_prev w;
     w_next := w_next w |}.

Definition press_next (w : Widgets (NodeId:=nat)) : Widgets :=
  {| w_uploaded := w_uploaded w; w_layout := w_layout w;
     w_start := w_start w; w_goal := w_goal w; w_order := w_order w;
     w_prepare := w_prepare w; w_reset := w_reset w; w_prev := w_prev w;
     w_next := true |}.

Definition sample_session : list Widgets :=
  let w := idle (Document sample_payload) in
  [w; press_prepare w] ++ replicate 5 (press_next w).

Definition session_of (o : outcome (Session (NodeId:=nat)))
    : Session (NodeId:=nat) :=
  match o with
  | Returns ss => ss
  | _ => initial_session
  end.

Definition sample_session_end : Session :=
  session_of (script_runs sample_session initial_session).



(** * Proofs *)

(** ** Outcomes *)

Lemma bind_Returns {A B} (m : outcome A) (f : A → outcome B) b :
  m ≫= f = Returns b ↔ ∃ a, m = Returns a ∧ f a = Returns b.
Proof.
  destruct m; simpl; split.
  - eauto.
  - intros (? & [= ->] & ?); done.
  - done.
  - intros (? & [=] & _).
  - done.
  - intros (? & [=] & _).
Qed.

(** Take apart a hypothesis saying that a sequence of calls returned. *)
Ltac returns H :=
  repeat match type of H with
  | _ ≫= _ = Returns _ =>
      let x := fresh "x" in let E := fresh "E" in
      apply bind_Returns in H as (x & E & H)
  | (let '(_, _) := ?p in _) = Returns _ => destruct p
  | Returns _ = Returns _ => injection H as H
  | Raises _ = Returns _ => discriminate H
  | OutOfFuel = Returns _ => discriminate H
  end.

Lemma getitem_Returns `{Countable K} {V} (d : gmap K V) k v :
  getitem d k = Returns v ↔ d !! k = Some v.
Proof. unfold getitem. destruct (d !! k); split; congruence. Qed.

Lemma getitem_Raises `{Countable K} {V} (d : gmap K V) k e :
  getitem d k = Raises e ↔ d !! k = None ∧ e = KeyError.
Proof.
  unfold getitem. destruct (d !! k); split.
  - intros [=].
  - intros [[=] _].
  - intros [= <-]. done.
  - intros [_ ->]. done.
Qed.

(** ** Order lemmas *)

Section Order.
Context {F : Float} {FO : FloatOrder F}.

Lemma fle_refl a : fle a a.
Proof. apply flt_irrefl. Qed.

Lemma flt_fle a b : flt a b = true → fle a b.
Proof.
  intros Hab. unfold fle. destruct (flt b a) eqn:Hba; [|done].
  pose proof (flt_trans _ _ _ Hab Hba) as Haa.
  rewrite flt_irrefl in Haa. done.
Qed.

Lemma fle_cases a b : fle a b → a = b ∨ flt a b = true.
Proof.
  intros Hab. destruct (flt a b) eqn:E; [by right|left].
  by apply flt_total.
Qed.

Lemma fle_trans a b c : fle a b → fle b c → fle a c.
Proof.
  intros [->|Hab]%fle_cases [->|Hbc]%fle_cases.
  - apply fle_refl.
  - by apply flt_fle.
  - by apply flt_fle.
  - apply flt_fle. by eapply flt_trans.
Qed.

Lemma fle_antisym a b : fle a b → fle b a → a = b.
Proof. intros Hab Hba. by apply flt_total. Qed.

Lemma fle_total a b : fle a b ∨ fle b a.
Proof.
  destruct (flt b a) eqn:E; [right|by left]. by apply flt_fle.
Qed.

Lemma fle_inf a : fle a inf.
Proof. apply inf_top. Qed.

Lemma fle_inf_eq a : fle inf a → a = inf.
Proof. intros. apply fle_antisym; [apply fle_inf|done]. Qed.

Lemma not_flt_fle a b : flt a b = false → fle b a.
Proof. done. Qed.

(** Adding a non-negative weight never gives a strictly smaller value. *)
Lemma no_improve_self d w : fle zero w → flt (fadd d w) d = false.
Proof. apply fadd_nonneg. Qed.

End Order.

(** ** Containers *)

Section Containers.
Context `{Countable K}.

Lemma lookup_dict_fromkeys {V} (keys : list K) (v : V) k :
  dict_fromkeys keys v !! k = if decide (k ∈ keys) then Some v else None.
Proof.
  unfold dict_fromkeys.
  induction keys as [|k' keys IH]; cbn [foldr].
  - rewrite lookup_empty. case_decide; [|done]. set_solver.
  - rewrite lookup_insert, IH. clear IH.
    destruct (decide (k' = k)) as [->|Hne], (decide (k ∈ keys)) as [Hin|Hnin].
    + by rewrite decide_True by set_solver.
    + by rewrite decide_True by set_solver.
    + by rewrite decide_True by set_solver.
    + by rewrite decide_False by set_solver.
Qed.

Lemma dom_dict_fromkeys {V} (keys : list K) (v : V) :
  dom (dict_fromkeys keys v) = list_to_set keys.
Proof.
  apply set_eq. intros k. rewrite elem_of_dom, lookup_dict_fromkeys.
  rewrite elem_of_list_to_set. unfold is_Some. case_decide; naive_solver.
Qed.

Lemma set_remove_Returns (x : K) s s' :
  set_remove x s = Returns s' → s ≡ₚ x :: s'.
Proof.
  revert s'. induction s as [|y s IH]; intros s' Hr; simpl in Hr; [done|].
  case_decide; returns Hr; subst; [done|].
  rewrite (IH _ E). apply Permutation_swap.
Qed.

Lemma set_remove_total (x : K) s :
  x ∈ s → ∃ s', set_remove x s = Returns s'.
Proof.
  induction s as [|y s IH]; [by intros ?%elem_of_nil|].
  intros Hx. simpl. case_decide; [by eexists|].
  destruct IH as [s' Hs']; [set_solver|]. rewrite Hs'. by eexists.
Qed.

End Containers.

Section ForEach.
Context {A S : Type}.
Implicit Types (l : list A) (body : A → S → outcome S).

(** Loop invariants that may mention the elements already handled. *)
Lemma for_each_inv (I : list A → S → Prop) l body s s' :
  I [] s →
  (∀ done x s1 s2,
      I done s1 → x ∈ l → body x s1 = Returns s2 → I (done ++ [x]) s2) →
  for_each l body s = Returns s' →
  I l s'.
Proof.
  intros Hinit Hstep.
  cut (∀ rest done s, (∀ x, x ∈ rest → x ∈ l) → I done s →
        for_each rest body s = Returns s' → I (done ++ rest) s').
  { intros Hcut. apply (Hcut l []); done. }
  induction rest as [|x rest IH]; intros done s0 Hsub HI Hr; simpl in Hr.
  - returns Hr. subst. by rewrite app_nil_r.
  - returns Hr. rewrite cons_middle, app_assoc. eapply IH; [set_solver| |done].
    eapply Hstep; [done| |done]. set_solver.
Qed.

Lemma for_each_total (I : S → Prop) l body s :
  I s →
  (∀ x s1, x ∈ l → I s1 → ∃ s2, body x s1 = Returns s2 ∧ I s2) →
  ∃ s', for_each l body s = Returns s'.
Proof.
  revert s. induction l as [|x l IH]; intros s HI Hstep; simpl; [by eexists|].
  destruct (Hstep x s) as (s2 & -> & HI2); [set_solver|done|]. simpl.
  apply IH; [done|]. intros. apply Hstep; [set_solver|done].
Qed.

End ForEach.

Section Min.
Context `{Countable K} {F : Float}.
Implicit Types (dist : gmap K float) (s : list K).

Lemma min_from_elem dist best kbest s u :
  min_from dist best kbest s = Returns u → u = best ∨ u ∈ s.
Proof.
  revert best kbest. induction s as [|n s IH]; intros best kbest Hr; simpl in Hr.
  - returns Hr. by left.
  - returns Hr. destruct (flt x kbest); apply IH in Hr; set_solver.
Qed.

Lemma py_min_elem dist s u : py_min dist s = Returns u → u ∈ s.
Proof.
  destruct s as [|n s]; simpl; intros Hr; [done|].
  returns Hr. apply min_from_elem in Hr. set_solver.
Qed.

Lemma min_from_total dist best kbest s :
  (∀ v, v ∈ s → is_Some (dist !! v)) →
  ∃ u, min_from dist best kbest s = Returns u.
Proof.
  revert best kbest. induction s as [|n s IH]; intros best kbest Hk; simpl.
  - by eexists.
  - destruct (Hk n) as [kn Hn]; [set_solver|].
    apply getitem_Returns in Hn. rewrite Hn. simpl.
    destruct (flt kn kbest); apply IH; set_solver.
Qed.

Lemma py_min_total dist s :
  s ≠ [] → (∀ v, v ∈ s → is_Some (dist !! v)) →
  ∃ u, py_min dist s = Returns u.
Proof.
  destruct s as [|n s]; [done|]. intros _ Hk. simpl.
  destruct (Hk n) as [kn Hn]; [set_solver|].
  apply getitem_Returns in Hn. rewrite Hn. simpl.
  apply min_from_total. set_solver.
Qed.

Context {FO : FloatOrder F}.

Lemma min_from_min dist best kbest s u :
  dist !! best = Some kbest →
  min_from dist best kbest s = Returns u →
  ∃ du, dist !! u = Some du ∧ fle du kbest ∧
        ∀ v dv, v ∈ s → dist !! v = Some dv → fle du dv.
Proof.
  revert best kbest. induction s as [|n s IH]; intros best kbest Hb Hr; simpl in Hr.
  - returns Hr. subst. exists kbest. split_and!; [done|apply fle_refl|].
    by intros ?? ?%elem_of_nil.
  - returns Hr. apply getitem_Returns in E.
    destruct (flt x kbest) eqn:Hlt.
    + destruct (IH _ _ E Hr) as (du & Hu & Hle & Hall).
      exists du. split_and!; [done|eauto using fle_trans, flt_fle|].
      intros v dv [->|Hv]%elem_of_cons Hdv; [|eauto].
      by simplify_eq.
    + destruct (IH _ _ Hb Hr) as (du & Hu & Hle & Hall).
      exists du. split_and!; [done..|].
      intros v dv [->|Hv]%elem_of_cons Hdv; [|eauto].
      simplify_eq. eapply fle_trans; [done|]. by apply not_flt_fle.
Qed.

Lemma py_min_min dist s u :
  py_min dist s = Returns u →
  ∃ du, dist !! u = Some du ∧
        ∀ v dv, v ∈ s → dist !! v = Some dv → fle du dv.
Proof.
  destruct s as [|n s]; simpl; intros Hr; [done|].
  returns Hr. apply getitem_Returns in E.
  destruct (min_from_min _ _ _ _ _ E Hr) as (du & Hu & Hle & Hall).
  exists du. split; [done|].
  intros v dv [->|Hv]%elem_of_cons Hdv; [|eauto]. by simplify_eq.
Qed.

End Min.

(** ** The graph interface *)

Section GraphFacts.
Context `{Countable NodeId} {F : Float}.
Implicit Types (G : @Graph NodeId F) (u v : NodeId).

Lemma assoc_Some_elem {V} (k : NodeId) (l : list (NodeId * V)) x :
  assoc k l = Some x → (k, x) ∈ l.
Proof.
  induction l as [|[k' y] l IH]; simpl; [done|].
  case_decide; [intros [= ->]; subst; left|right; auto].
Qed.

Lemma assoc_is_Some {V} (k : NodeId) (l : list (NodeId * V)) :
  k ∈ l.*1 ↔ is_Some (assoc k l).
Proof.
  induction l as [|[k' y] l IH]; simpl.
  - split; [by intros ?%elem_of_nil|by intros [? [=]]].
  - case_decide; subst.
    + split; [by eexists|left].
    + rewrite <- IH. set_solver.
Qed.

Lemma G_contains_spec G u : G_contains G u = true ↔ u ∈ G_nodes G.
Proof. unfold G_contains. by rewrite bool_decide_eq_true. Qed.

Lemma G_neighbors_Returns G u nbrs :
  G_neighbors G u = Returns nbrs ↔
  ∃ l, assoc u (adj G) = Some l ∧ nbrs = l.*1.
Proof.
  unfold G_neighbors. destruct (assoc u (adj G)); split.
  - intros [= <-]. eauto.
  - by intros (? & [= <-] & ->).
  - done.
  - by intros (? & [=] & _).
Qed.

Lemma G_neighbors_total G u :
  u ∈ G_nodes G → ∃ nbrs, G_neighbors G u = Returns nbrs.
Proof.
  intros [l Hl]%assoc_is_Some. exists l.*1.
  apply G_neighbors_Returns. eauto.
Qed.

Lemma G_neighbors_node G u nbrs :
  G_neighbors G u = Returns nbrs → u ∈ G_nodes G.
Proof.
  intros (l & Hl & _)%G_neighbors_Returns. apply assoc_is_Some. eauto.
Qed.

Lemma G_weight_Returns G u v w :
  G_weight G u v = Returns w ↔
  ∃ l attr, assoc u (adj G) = Some l ∧ assoc v l = Some attr ∧
            w = default one attr.
Proof.
  unfold G_weight. destruct (assoc u (adj G)) as [l|].
  - destruct (assoc v l) as [attr|] eqn:Hv; split.
    + intros [= <-]. eauto.
    + intros (? & ? & [= <-] & Hv' & ->). by simplify_eq.
    + done.
    + intros (? & ? & [= <-] & Hv' & _). by simplify_eq.
  - split; [done|]. by intros (? & ? & [=] & _).
Qed.

Lemma G_weight_neighbor G u v w :
  G_weight G u v = Returns w →
  ∃ nbrs, G_neighbors G u = Returns nbrs ∧ v ∈ nbrs.
Proof.
  intros (l & attr & Hl & Hv & _)%G_weight_Returns. exists l.*1. split.
  - apply G_neighbors_Returns. eauto.
  - apply assoc_is_Some. eauto.
Qed.

Lemma G_weight_total G u v nbrs :
  G_neighbors G u = Returns nbrs → v ∈ nbrs →
  ∃ w, G_weight G u v = Returns w.
Proof.
  intros (l & Hl & ->)%G_neighbors_Returns [attr Hv]%assoc_is_Some.
  exists (default one attr). apply G_weight_Returns. eauto.
Qed.

Lemma wf_graph_nodes G : wf_graph G = true → NoDup (G_nodes G).
Proof.
  unfold wf_graph. intros [Hn _]%andb_prop. by apply bool_decide_eq_true in Hn.
Qed.

Lemma wf_graph_neighbors G u nbrs :
  wf_graph G = true → G_neighbors G u = Returns nbrs →
  NoDup nbrs ∧ ∀ v, v ∈ nbrs → v ∈ G_nodes G.
Proof.
  unfold wf_graph. intros [_ Hall]%andb_prop (l & Hl & ->)%G_neighbors_Returns.
  apply assoc_Some_elem, list_elem_of_In in Hl.
  rewrite forallb_forall in Hall. apply Hall in Hl.
  apply andb_prop in Hl as [Hnd Hin]. apply bool_decide_eq_true in Hnd.
  split; [done|]. intros v ([v' attr] & -> & Hv)%list_elem_of_fmap.
  rewrite forallb_forall in Hin. apply list_elem_of_In, Hin in Hv.
  by apply bool_decide_eq_true in Hv.
Qed.

Lemma wf_graph_edge G u v w :
  wf_graph G = true → G_weight G u v = Returns w →
  u ∈ G_nodes G ∧ v ∈ G_nodes G.
Proof.
  intros Hwf (nbrs & Hn & Hv)%G_weight_neighbor. split.
  - by eapply G_neighbors_node.
  - by eapply wf_graph_neighbors.
Qed.

Lemma nonneg_weights_edge G u v w :
  nonneg_weights G = true → G_weight G u v = Returns w → fle zero w.
Proof.
  unfold nonneg_weights. intros Hall (l & attr & Hl & Hv & ->)%G_weight_Returns.
  apply assoc_Some_elem, list_elem_of_In in Hl.
  rewrite forallb_forall in Hall. apply Hall in Hl.
  rewrite forallb_forall in Hl.
  apply assoc_Some_elem, list_elem_of_In, Hl in Hv.
  by apply negb_true_iff in Hv.
Qed.

End GraphFacts.

(** ** The relaxation loop *)

Section RelaxFacts.
Context `{Countable NodeId} {F : Float}.
Implicit Types (G : @Graph NodeId F) (closed : gset NodeId)
  (dist : gmap NodeId float) (prev : gmap NodeId (option NodeId))
  (logs : list (@Log NodeId F)).

(** What one pass through the body of the [for] loop does. *)
Lemma relax_nbr_spec G closed cur nbr dist prev logs dist' prev' logs' :
  relax_nbr G closed cur nbr (dist, prev, logs) = Returns (dist', prev', logs') →
  ∃ w perm l,
    G_weight G cur nbr = Returns w ∧ dist !! cur = Some perm ∧
    logs' = logs ++ [l] ∧ log_j l = nbr ∧ log_ok G closed cur l ∧
    log_perm_cost l = perm ∧
    ((nbr ∈ closed ∧ dist' = dist ∧ prev' = prev) ∨
     ((nbr ∉ closed) ∧ ∃ old, dist !! nbr = Some old ∧
        ((flt (fadd perm w) old = true ∧
          dist' = (<[nbr:=fadd perm w]> dist) ∧
          prev' = (<[nbr:=Some cur]> prev)) ∨
         (flt (fadd perm w) old = false ∧ dist' = dist ∧ prev' = prev)))).
Proof.
  unfold relax_nbr. intros Hr. case_decide as Hc.
  - returns Hr. apply getitem_Returns in E0.
    eexists x, x0, _. split_and!; [done..| |done|].
    + unfold log_ok; simpl. rewrite decide_True by done. by rewrite E.
    + left. by simplify_eq.
  - returns Hr. apply getitem_Returns in E0, E1.
    exists x, x0,
      {| log_i := cur; log_j := nbr; log_link_cost := x;
         log_perm_cost := x0; log_temp_cost := fadd x0 x;
         log_selected := "N/A"; log_deleted := "NA" |}.
    split_and!; [done|done| |done| |done|].
    + destruct (flt (fadd x0 x) x1); by simplify_eq.
    + unfold log_ok; simpl. rewrite decide_False by done. by rewrite E.
    + right. split; [done|]. exists x1. split; [done|].
      destruct (flt (fadd x0 x) x1); simplify_eq; [left|right]; done.
Qed.

(** Facts about the whole [for] loop that depend on nothing. *)
Lemma relax_loop_frame G closed cur nbrs dist prev dist' prev' logs :
  for_each nbrs (relax_nbr G closed cur) (dist, prev, []) =
    Returns (dist', prev', logs) →
  dom dist' = dom dist ∧
  dom prev' ⊆ dom prev ∪ dom dist ∧ dom prev ⊆ dom prev' ∧
  log_j <$> logs = nbrs ∧
  Forall (log_ok G closed cur) logs ∧
  (∀ x, (x ∈ nbrs → x ∈ closed) →
     dist' !! x = dist !! x ∧ prev' !! x = prev !! x).
Proof.
  intros Hr.
  apply (for_each_inv (λ (done : list NodeId) '(d, p, ls),
    dom d = dom dist ∧ dom p ⊆ dom prev ∪ dom dist ∧ dom prev ⊆ dom p ∧
    log_j <$> ls = done ∧
    Forall (log_ok G closed cur) ls ∧
    (∀ x, (x ∈ done → x ∈ closed) →
       d !! x = dist !! x ∧ p !! x = prev !! x)) _ _ _ _) in Hr; [done| |].
  { split_and!; [done|set_solver|done..]. }
  clear Hr. intros done nbr [[d p] ls] [[d2 p2] ls2].
  intros (Hd & Hp & Hp' & Hl & Hok & Hsame) _ Hb.
  apply relax_nbr_spec in Hb
    as (w & perm & l & Hw & Hperm & -> & Hj & Hlog & _ & Hcase).
  assert (log_j <$> ls ++ [l] = done ++ [nbr]) as Hl2.
  { rewrite fmap_app. simpl. by rewrite Hl, Hj. }
  assert (Forall (log_ok G closed cur) (ls ++ [l])) as Hok2.
  { apply Forall_app. split; [done|]. by apply Forall_singleton. }
  destruct Hcase as [(Hc & -> & ->)|(Hc & old & Hold & [(_ & -> & ->)|(_ & -> & ->)])].
  - split_and!; try done. intros x Hx. apply Hsame. set_solver.
  - assert (nbr ∈ dom d) by (apply elem_of_dom; eauto).
    split_and!; try done.
    + rewrite dom_insert_L. set_solver.
    + rewrite dom_insert_L. set_solver.
    + rewrite dom_insert_L. set_solver.
    + intros x Hx. assert (x ≠ nbr) by set_solver.
      rewrite !lookup_insert_ne by done. apply Hsame. set_solver.
  - split_and!; try done. intros x Hx. apply Hsame. set_solver.
Qed.

(** The loop returns when the working maps are keyed by the nodes. *)
Lemma relax_loop_total G closed cur nbrs dist prev :
  wf_graph G = true →
  G_neighbors G cur = Returns nbrs →
  dom dist = list_to_set (G_nodes G) →
  ∃ r, for_each nbrs (relax_nbr G closed cur) (dist, prev, []) = Returns r.
Proof.
  intros Hwf Hn Hdom.
  apply (for_each_total (λ '(d, _, _), dom d = dom dist)); [done|].
  intros nbr [[d p] ls] Hnbr Hd.
  assert (cur ∈ dom d) as [perm Hperm]%elem_of_dom.
  { rewrite Hd, Hdom. apply elem_of_list_to_set. by eapply G_neighbors_node. }
  assert (nbr ∈ dom d) as [old Hold]%elem_of_dom.
  { rewrite Hd, Hdom. apply elem_of_list_to_set.
    by eapply wf_graph_neighbors. }
  destruct (G_weight_total _ _ _ _ Hn Hnbr) as [w Hw].
  apply getitem_Returns in Hperm, Hold.
  unfold relax_nbr. rewrite Hw, Hperm. simpl.
  case_decide; [by eexists|]. rewrite Hold. simpl.
  destruct (flt _ _); (eexists; split; [done|]); simpl; [|done].
  rewrite dom_insert_L. apply getitem_Returns, (elem_of_dom_2 d) in Hold.
  set_solver.
Qed.

Context {FO : FloatOrder F}.

(** No distance grows. *)
Lemma relax_loop_mono G closed cur nbrs dist prev dist' prev' logs :
  for_each nbrs (relax_nbr G closed cur) (dist, prev, []) =
    Returns (dist', prev', logs) →
  ∀ x d, dist !! x = Some d → ∃ d', dist' !! x = Some d' ∧ fle d' d.
Proof.
  intros Hr.
  apply (for_each_inv (λ (_ : list NodeId) '(d, _, _),
    ∀ x dx, dist !! x = Some dx → ∃ d', d !! x = Some d' ∧ fle d' dx)
    _ _ _ _) in Hr; [done| |].
  { intros x d Hx. exists d. split; [done|apply fle_refl]. }
  clear Hr. intros _ nbr [[d p] ls] [[d2 p2] ls2] Hmono _ Hb.
  apply relax_nbr_spec in Hb
    as (w & perm & l & Hw & Hperm & -> & Hj & Hlog & _ & Hcase).
  destruct Hcase as [(Hc & -> & ->)|(Hc & old & Hold & [(Hlt & -> & ->)|(_ & -> & ->)])];
    [done| |done].
  intros x dx Hx. destruct (Hmono _ _ Hx) as (d' & Hd' & Hle).
  destruct (decide (x = nbr)) as [->|Hne].
  - rewrite lookup_insert_eq. eexists. split; [done|]. simplify_eq.
    eapply fle_trans; [|done]. by apply flt_fle.
  - rewrite lookup_insert_ne by done. eauto.
Qed.

(** When a self-loop at the selected node cannot improve its distance,
    the loop leaves that distance alone, and every other node either was
    improved through the selected node or is unchanged. *)
Lemma relax_loop_spec G closed cur nbrs dist prev dist' prev' logs perm :
  dist !! cur = Some perm →
  (∀ w, G_weight G cur cur = Returns w → fle zero w) →
  for_each nbrs (relax_nbr G closed cur) (dist, prev, []) =
    Returns (dist', prev', logs) →
  dist' !! cur = Some perm ∧
  Forall (λ l, log_perm_cost l = perm) logs ∧
  ∀ x,
    (x ∈ nbrs ∧ (x ∉ closed) ∧ x ≠ cur ∧
     ∃ w old, G_weight G cur x = Returns w ∧ dist !! x = Some old ∧
              flt (fadd perm w) old = true ∧
              dist' !! x = Some (fadd perm w) ∧
              prev' !! x = Some (Some cur)) ∨
    (dist' !! x = dist !! x ∧ prev' !! x = prev !! x ∧
     (x ∈ nbrs → x ∉ closed →
      ∀ w old, G_weight G cur x = Returns w → dist !! x = Some old →
               flt (fadd perm w) old = false)).
Proof.
  intros Hcur Hself Hr.
  apply (for_each_inv (λ (done : list NodeId) '(d, p, ls),
    d !! cur = Some perm ∧
    Forall (λ l, log_perm_cost l = perm) ls ∧
    ∀ x,
      (x ∈ done ∧ (x ∉ closed) ∧ x ≠ cur ∧
       ∃ w old, G_weight G cur x = Returns w ∧ dist !! x = Some old ∧
                flt (fadd perm w) old = true ∧
                d !! x = Some (fadd perm w) ∧ p !! x = Some (Some cur)) ∨
      (d !! x = dist !! x ∧ p !! x = prev !! x ∧
       (x ∈ done → x ∉ closed →
        ∀ w old, G_weight G cur x = Returns w → dist !! x = Some old →
                 flt (fadd perm w) old = false))) _ _ _ _) in Hr; [done| |].
  { split_and!; [done|done|]. intros x. right. split_and!; [done..|].
    by intros ?%elem_of_nil. }
  clear Hr. intros done nbr [[d p] ls] [[d2 p2] ls2] (Hc & Hperms & Hall) _ Hb.
  apply relax_nbr_spec in Hb
    as (w & perm' & l & Hw & Hperm' & -> & Hj & Hlog & Hlp & Hcase).
  assert (perm' = perm) as -> by congruence.
  assert (Forall (λ l, log_perm_cost l = perm) (ls ++ [l])) as Hperms2.
  { apply Forall_app. split; [done|]. by apply Forall_singleton. }
  destruct Hcase as [(Hcl & -> & ->)|(Hcl & old & Hold & [(Hlt & -> & ->)|(Hlt & -> & ->)])].
  - split_and!; [done..|]. intros x. destruct (Hall x) as [Himp|(? & ? & Hno)].
    + left. set_solver.
    + right. split_and!; [done..|]. intros [?| ->%list_elem_of_singleton]%elem_of_app; auto.
      done.
  - assert (nbr ≠ cur) as Hne.
    { intros ->. assert (old = perm) as -> by congruence.
      rewrite no_improve_self in Hlt; [done|]. by apply Hself. }
    split_and!; [by rewrite lookup_insert_ne|done|].
    intros x. destruct (decide (x = nbr)) as [->|Hx].
    + left. split_and!; [set_solver|done|done|].
      destruct (Hall nbr) as [(_ & _ & _ & w' & old' & Hw' & _ & _ & Hd & _)
                             |(Hd & _ & _)].
      * assert (w' = w) as -> by congruence.
        assert (old = fadd perm w) as -> by congruence.
        by rewrite flt_irrefl in Hlt.
      * exists w, old. rewrite !lookup_insert_eq. split_and!; try done.
        by rewrite <- Hd.
    + rewrite !lookup_insert_ne by done.
      destruct (Hall x) as [Himp|(? & ? & Hno)].
      * left. set_solver.
      * right. split_and!; [done..|]. intros ?. apply Hno. set_solver.
  - split_and!; [done..|]. intros x. destruct (Hall x) as [Himp|(Hd & ? & Hno)].
    + left. set_solver.
    + right. split_and!; [done..|].
      intros [?| ->%list_elem_of_singleton]%elem_of_app; auto.
      intros _ w' old' Hw' Hold'. rewrite Hd in Hold.
      assert (w' = w) as -> by congruence.
      assert (old' = old) as -> by congruence. done.
Qed.

End RelaxFacts.

(** ** One pass through the [while] loop *)

Section LoopFacts.
Context `{Countable NodeId} {F : Float}.
Implicit Types (G : @Graph NodeId F) (st : @State NodeId _ _ F)
  (goal : option NodeId).

(** A pass either stops on an unreachable remainder or finalizes the
    node it selected. *)
Lemma loop_body_spec G goal st c st' :
  loop_body G goal st = Returns (c, st') →
  ∃ cur d,
    py_min (dist st) (open_set st) = Returns cur ∧
    dist st !! cur = Some d ∧
    ((isinf d = true ∧ c = Break ∧
      st' = {| iteration := S (iteration st); dist := dist st;
               prev := prev st; closed := closed st;
               open_set := open_set st;
               steps := steps st ++ [terminal_step st] |}) ∨
     (isinf d = false ∧
      c = (if decide (goal = Some cur) then Break else Continue) ∧
      ∃ nbrs logs,
        G_neighbors G cur = Returns nbrs ∧
        for_each nbrs (relax_nbr G (closed st) cur) (dist st, prev st, []) =
          Returns (dist st', prev st', logs) ∧
        set_remove cur (open_set st) = Returns (open_set st') ∧
        iteration st' = S (iteration st) ∧
        closed st' = {[cur]} ∪ closed st ∧
        steps st' = steps st ++
          [{| step_iter := S (iteration st); step_trying := logs;
              step_selected_node := Some cur; step_closed := closed st';
              step_dist := dist st'; step_prev := prev st' |}])).
Proof.
  unfold loop_body. intros Hr. returns Hr. rename x into cur, x0 into d.
  apply getitem_Returns in E0. exists cur, d. split_and!; [done..|].
  destruct (isinf d).
  - left. returns Hr. by simplify_eq.
  - right. apply bind_Returns in Hr as (nbrs & Hn & Hr).
    apply bind_Returns in Hr as ([[dist' prev'] logs] & Hrel & Hr).
    apply bind_Returns in Hr as (open' & Hrem & Hr).
    returns Hr. simplify_eq. split_and!; [done..|]. exists nbrs, logs. by simpl.
Qed.

(** The loop returns the steps of a state reached by passes that went
    round again, or of the state at a [break] after such passes. *)
Lemma dijkstra_loop_inv (J I : State → Prop) G goal :
  (∀ st, J st → I st) →
  (∀ st c st', J st → open_set st ≠ [] →
     loop_body G goal st = Returns (c, st') →
     I st' ∧ (c = Continue → J st')) →
  ∀ fuel st r, J st → dijkstra_loop fuel G goal st = Returns r →
    ∃ st', I st' ∧ r = steps st'.
Proof.
  intros Hexit Hpass. induction fuel as [|fuel IH]; intros st r HJ Hr.
  - simpl in Hr. destruct (open_set st) eqn:Ho; [|done].
    returns Hr. eauto.
  - simpl in Hr. destruct (open_set st) eqn:Ho.
    { returns Hr. eauto. }
    apply bind_Returns in Hr as ([c st'] & Hb & Hr).
    destruct (Hpass st c st') as [HI HJ']; [done|by rewrite Ho|done|].
    destruct c.
    + apply (IH st'); auto.
    + returns Hr. eauto.
Qed.

(** The bookkeeping invariant holds on entry ... *)
Lemma Wf_init G order start :
  wf_graph G = true → order ≡ₚ G_nodes G → start ∈ G_nodes G →
  Wf G (init_state G order start).
Proof.
  intros Hwf Hperm Hstart.
  split; cbn [init_state dist prev closed open_set steps].
  - rewrite dom_insert_L, dom_dict_fromkeys.
    apply (elem_of_list_to_set (C:=gset NodeId)) in Hstart. set_solver.
  - apply dom_dict_fromkeys.
  - rewrite Hperm. by apply wf_graph_nodes.
  - intros n. rewrite Hperm. set_solver.
  - set_solver.
  - apply (size_empty (C:=gset NodeId)).
Qed.

Lemma finalizations_snoc (l : list (@Step NodeId _ _ F)) s :
  finalizations (l ++ [s]) =
  finalizations l +
  match step_selected_node s with Some _ => 1 | None => 0 end.
Proof.
  unfold finalizations. rewrite omap_app, length_app. simpl.
  by destruct (step_selected_node s).
Qed.

(** ... and after every pass. *)
Lemma Wf_pass G goal st c st' :
  Wf G st → loop_body G goal st = Returns (c, st') → Wf G st'.
Proof.
  intros [Hdd Hdp Hnd Hpart Hdisj Hcount]
    (cur & d & Hmin & Hd & [(_ & _ & ->)|(_ & _ & nbrs & logs & Hn & Hrel
       & Hrem & _ & Hcl & Hst)])%loop_body_spec.
  - split; simpl; try done.
    rewrite finalizations_snoc. simpl. lia.
  - apply relax_loop_frame in Hrel as (Hd1 & Hp1 & Hp2 & _).
    apply set_remove_Returns in Hrem.
    apply py_min_elem in Hmin.
    assert (NoDup (cur :: open_set st')) as [Hcur Hnd']%NoDup_cons
      by by rewrite <- Hrem.
    split.
    + congruence.
    + apply set_eq. intros n. set_solver.
    + done.
    + intros n. rewrite Hpart, Hcl, Hrem. set_solver.
    + intros n. rewrite Hcl. intros [->%elem_of_singleton|Hn']%elem_of_union; [done|].
      apply Hdisj in Hn'. rewrite Hrem in Hn'. set_solver.
    + rewrite Hcl, Hst, finalizations_snoc. simpl.
      rewrite size_union, size_singleton by (specialize (Hdisj cur); set_solver).
      lia.
Qed.

(** A pass that goes round again has removed a node from [open_set]. *)
Lemma loop_body_Continue G goal st st' :
  loop_body G goal st = Returns (Continue, st') →
  length (open_set st) = S (length (open_set st')).
Proof.
  intros (cur & d & _ & _ & [(_ & [=] & _)|(_ & _ & nbrs & logs & _ & _
       & Hrem & _)])%loop_body_spec.
  apply set_remove_Returns in Hrem. by rewrite Hrem.
Qed.

(** A pass returns. *)
Lemma loop_body_total G goal st :
  wf_graph G = true → Wf G st → open_set st ≠ [] →
  ∃ c st', loop_body G goal st = Returns (c, st').
Proof.
  intros Hwf HWf Hne.
  destruct (py_min_total (dist st) (open_set st)) as [cur Hmin]; [done| |].
  { intros v Hv. apply elem_of_dom. rewrite (wf_dom_dist _ _ HWf).
    apply elem_of_list_to_set, (wf_partition _ _ HWf). auto. }
  pose proof (py_min_elem _ _ _ Hmin) as Hopen.
  assert (cur ∈ G_nodes G) as Hnode by (apply (wf_partition _ _ HWf); auto).
  assert (is_Some (dist st !! cur)) as [d Hd].
  { apply elem_of_dom. rewrite (wf_dom_dist _ _ HWf).
    by apply elem_of_list_to_set. }
  apply getitem_Returns in Hd.
  unfold loop_body. rewrite Hmin. simpl. rewrite Hd. simpl.
  destruct (isinf d); [by eexists _, _|].
  destruct (G_neighbors_total _ _ Hnode) as [nbrs Hn]. rewrite Hn. simpl.
  destruct (relax_loop_total G (closed st) cur nbrs (dist st) (prev st))
    as [[[dist' prev'] logs] Hrel]; [done|done|apply HWf|].
  rewrite Hrel. simpl.
  destruct (set_remove_total _ _ Hopen) as [open' Hrem]. rewrite Hrem. simpl.
  by eexists _, _.
Qed.

(** One unit of fuel per open node is enough for the loop to return. *)
Lemma dijkstra_loop_total G goal fuel st :
  wf_graph G = true → Wf G st → length (open_set st) ≤ fuel →
  ∃ r, dijkstra_loop fuel G goal st = Returns r.
Proof.
  intros Hwf. revert st. induction fuel as [|fuel IH]; intros st HWf Hlen.
  - destruct (open_set st) eqn:Ho; simpl in Hlen; [|lia].
    simpl. rewrite Ho. by eexists.
  - simpl. destruct (open_set st) eqn:Ho; [by eexists|].
    destruct (loop_body_total G goal st) as (c & st' & Hb);
      [done|done|by rewrite Ho|].
    rewrite Hb. simpl. destruct c; [|by eexists].
    apply IH.
    + by eapply Wf_pass.
    + apply loop_body_Continue in Hb. rewrite Ho in Hb. simpl in *. lia.
Qed.

End LoopFacts.

(** ** The recorded steps *)

Section TraceFacts.
Context `{Countable NodeId} {F : Float}.
Implicit Types (G : @Graph NodeId F) (st : @State NodeId _ _ F)
  (goal : option NodeId) (s : @Step NodeId _ _ F)
  (l r : list (@Step NodeId _ _ F)).

(** Every pass appends one step, a copy of the state it ends in. *)
Lemma loop_body_steps G goal st c st' :
  loop_body G goal st = Returns (c, st') →
  ∃ s, steps st' = steps st ++ [s] ∧
       step_closed s = closed st' ∧ step_dist s = dist st' ∧
       step_prev s = prev st'.
Proof.
  intros (cur & d & _ & _ & [(_ & _ & ->)|(_ & _ & nbrs & logs & _ & _
       & _ & _ & _ & ->)])%loop_body_spec; by eexists.
Qed.

Lemma snapshot_pass G goal st c st' :
  loop_body G goal st = Returns (c, st') → snapshot st'.
Proof.
  intros (s & Hs & ?)%loop_body_steps s' Hlast.
  rewrite Hs, last_snoc in Hlast. by simplify_eq.
Qed.

Lemma snapshot_init G order start : snapshot (init_state G order start).
Proof. intros s. done. Qed.

(** A pass that goes round again selected a node other than the goal. *)
Lemma all_selected_pass G goal st st' :
  all_selected goal (steps st) →
  loop_body G goal st = Returns (Continue, st') →
  all_selected goal (steps st').
Proof.
  intros Hall (cur & d & _ & _ & [(_ & [=] & _)|(_ & Hc & nbrs & logs & _ & _
       & _ & _ & _ & Hst)])%loop_body_spec.
  rewrite Hst. intros s [Hs| ->%list_elem_of_singleton]%elem_of_app; [auto|].
  exists cur. split; [done|]. by case_decide.
Qed.

(** Invariants about the recorded steps carry over to the result when
    every pass records a step satisfying them. *)
Lemma dijkstra_loop_steps (J : State → Prop) (P : Step → Prop) G goal :
  (∀ st c st' s, J st → open_set st ≠ [] →
     loop_body G goal st = Returns (c, st') →
     steps st' = steps st ++ [s] →
     P s ∧ (c = Continue → J st')) →
  ∀ fuel st r, J st → Forall P (steps st) →
    dijkstra_loop fuel G goal st = Returns r → Forall P r.
Proof.
  intros Hpass fuel st r HJ HP Hr.
  destruct (dijkstra_loop_inv (λ st, J st ∧ Forall P (steps st))
              (λ st, Forall P (steps st)) G goal) with fuel st r
    as (st' & HP' & ->); try done.
  - by intros ? [].
  - clear dependent st r. intros st c st' [HJ HP] Hne Hb.
    destruct (loop_body_steps _ _ _ _ _ Hb) as (s & Hs & _).
    destruct (Hpass _ _ _ _ HJ Hne Hb Hs) as [HPs HJ'].
    assert (Forall P (steps st')) as HP'.
    { rewrite Hs. apply Forall_app. split; [done|]. by apply Forall_singleton. }
    split; [done|]. auto.
Qed.

End TraceFacts.

(** ** Errors and termination of [dijkstra_steps] *)

Section Errors.
Context `{Countable NodeId} {F : Float}.
Implicit Types (G : @Graph NodeId F).

(** C3. [dijkstra_steps] raises exactly when [start] is not a node of
    the graph: then it raises [ValueError] and returns no steps at all,
    and for a [start] in the graph it returns a step sequence. *)
Theorem dijkstra_steps_raises_iff G order start goal :
  wf_graph G = true → order ≡ₚ G_nodes G →
  (start ∉ G_nodes G ↔ dijkstra_steps G order start goal = Raises ValueError) ∧
  (start ∈ G_nodes G ↔ ∃ r, dijkstra_steps G order start goal = Returns r) ∧
  (∀ e, dijkstra_steps G order start goal = Raises e → start ∉ G_nodes G).
Proof.
  intros Hwf Hperm. unfold dijkstra_steps.
  destruct (G_contains G start) eqn:Hc.
  - apply G_contains_spec in Hc.
    destruct (dijkstra_loop_total G goal (length order)
                (init_state G order start)) as [r Hr]; [done| |done|].
    { by apply Wf_init. }
    rewrite Hr. split_and!; [split; done|split; eauto|done].
  - assert (start ∉ G_nodes G) as Hn.
    { intros Hin%G_contains_spec. congruence. }
    split_and!; [done| |done]. split; [done|]. by intros [? [=]].
Qed.

End Errors.

(** ** The terminal step *)

Section Terminal.
Context `{Countable NodeId} {F : Float}.
Implicit Types (G : @Graph NodeId F) (st : @State NodeId _ _ F)
  (goal : option NodeId) (s : @Step NodeId _ _ F)
  (l r : list (@Step NodeId _ _ F)).

Lemma terminal_ok_all_selected goal l : all_selected goal l → terminal_ok l.
Proof.
  intros Hall i s Hi Hs. apply list_elem_of_lookup_2, Hall in Hi as (n & Hn & _).
  congruence.
Qed.

Lemma terminal_ok_pass G goal st c st' :
  snapshot st → fresh st → all_selected goal (steps st) →
  loop_body G goal st = Returns (c, st') →
  terminal_ok (steps st').
Proof.
  intros Hsnap Hfresh Hall Hb i s Hi Hnone.
  apply loop_body_spec in Hb
    as (cur & d & _ & _ & [(_ & _ & ->)|(_ & _ & nbrs & logs & _ & _
       & _ & _ & _ & Hst)]).
  - simpl in Hi. apply lookup_app_Some in Hi as [Hi|[Hlen Hi]].
    { apply list_elem_of_lookup_2, Hall in Hi as (n & Hn & _). congruence. }
    apply list_lookup_singleton_Some in Hi as [Hi <-].
    simpl. rewrite length_app. simpl. split_and!; [lia|done| |].
    + intros ->. apply Hfresh. apply nil_length_inv. lia.
    + intros j s0 -> Hj. rewrite lookup_app_l in Hj by lia.
      assert (last (steps st) = Some s0) as Hlast.
      { rewrite last_lookup. rewrite <- Hj. f_equal. lia. }
      destruct (Hsnap _ Hlast) as (-> & -> & ->). done.
  - rewrite Hst in Hi. apply lookup_app_Some in Hi as [Hi|[Hlen Hi]].
    { apply list_elem_of_lookup_2, Hall in Hi as (n & Hn & _). congruence. }
    apply list_lookup_singleton_Some in Hi as [Hi <-]. done.
Qed.

Lemma fresh_pass G goal st c st' :
  loop_body G goal st = Returns (c, st') → fresh st'.
Proof.
  intros (s & Hs & _)%loop_body_steps Hnil. rewrite Hs in Hnil.
  by apply app_nil in Hnil as [_ ?].
Qed.

(** C5. Whenever the node selected as the minimum of the open set has an
    infinite distance, the loop records one terminal step (no attempts,
    no selected node, the current tables and finalized set) after the
    steps recorded so far and returns.  In every sequence
    [dijkstra_steps] returns, a step without a selected node is the last
    step, has no attempts, and has the finalized set and the tables of
    the step before it. *)
Theorem terminal_step_recorded :
  (∀ G goal fuel st cur d,
     py_min (dist st) (open_set st) = Returns cur →
     dist st !! cur = Some d → isinf d = true →
     dijkstra_loop (S fuel) G goal st =
       Returns (steps st ++ [terminal_step st])) ∧
  (∀ G order start goal r,
     dijkstra_steps G order start goal = Returns r → terminal_ok r).
Proof.
  split.
  - intros G goal fuel st cur d Hmin Hd Hinf. simpl.
    destruct (open_set st) eqn:Ho; [done|].
    unfold loop_body. rewrite Ho, Hmin. simpl.
    apply getitem_Returns in Hd. rewrite Hd. simpl. by rewrite Hinf.
  - intros G order start goal r. unfold dijkstra_steps.
    destruct (G_contains G start); [|done]. intros Hr.
    assert (∃ st', terminal_ok (steps st') ∧ r = steps st')
      as (st' & Hok & ->); [|done].
    apply (dijkstra_loop_inv
             (λ st, snapshot st ∧ fresh st ∧ all_selected goal (steps st))
             (λ st, terminal_ok (steps st)) G goal)
      with (length order) (init_state G order start); [| | |done].
    + intros st (_ & _ & Hall). by eapply terminal_ok_all_selected.
    + intros st c st' (Hsnap & Hfresh & Hall) _ Hb. split.
      * by eapply terminal_ok_pass.
      * intros ->. split_and!;
          [by eapply snapshot_pass|by eapply fresh_pass
          |by eapply all_selected_pass].
    + split_and!; [apply snapshot_init|done|]. by intros s ?%elem_of_nil.
Qed.

End Terminal.

(** ** Monotone distances *)

Section Monotone.
Context `{Countable NodeId} {F : Float} {FO : FloatOrder F}.
Implicit Types (G : @Graph NodeId F) (st : @State NodeId _ _ F)
  (goal : option NodeId) (s : @Step NodeId _ _ F)
  (l r : list (@Step NodeId _ _ F)).

Lemma monotone_steps_pass G goal st c st' :
  snapshot st → monotone_steps (steps st) →
  loop_body G goal st = Returns (c, st') →
  monotone_steps (steps st').
Proof.
  intros Hsnap Hmono Hb i s1 s2 H1 H2.
  assert (closed st ⊆ closed st' ∧
          (∀ n, n ∈ closed st → dist st' !! n = dist st !! n) ∧
          (∀ n d1, dist st !! n = Some d1 →
             ∃ d2, dist st' !! n = Some d2 ∧ fle d2 d1)) as Hstate.
  { apply loop_body_spec in Hb
      as (cur & d & _ & _ & [(_ & _ & ->)|(_ & _ & nbrs & logs & _ & Hrel
         & _ & _ & Hcl & _)]).
    - simpl. split_and!; [done..|]. intros n d1 ?. exists d1.
      split; [done|apply fle_refl].
    - split_and!.
      + set_solver.
      + intros n Hn. by apply (relax_loop_frame _ _ _ _ _ _ _ _ _ Hrel).
      + by apply (relax_loop_mono _ _ _ _ _ _ _ _ _ Hrel). }
  destruct (loop_body_steps _ _ _ _ _ Hb) as (s & Hs & Hsc & Hsd & _).
  rewrite Hs in H1, H2.
  apply lookup_app_Some in H2 as [H2|[Hlen H2]].
  { apply (Hmono i); [|done]. rewrite lookup_app_l in H1; [done|].
    apply lookup_lt_Some in H2. lia. }
  apply list_lookup_singleton_Some in H2 as [Hi <-].
  rewrite lookup_app_l in H1 by lia.
  assert (last (steps st) = Some s1) as Hlast.
  { rewrite last_lookup. rewrite <- H1. f_equal. lia. }
  destruct (Hsnap _ Hlast) as (-> & -> & _). by rewrite Hsc, Hsd.
Qed.

(** C7. From each step to the next no recorded distance grows, and once
    a node is in a step's finalized set it stays there with the same
    recorded distance in all later steps. *)
Theorem distances_monotone G order start goal r :
  dijkstra_steps G order start goal = Returns r →
  (∀ i s1 s2 n d1,
     r !! i = Some s1 → r !! (S i) = Some s2 →
     step_dist s1 !! n = Some d1 →
     ∃ d2, step_dist s2 !! n = Some d2 ∧ fle d2 d1) ∧
  (∀ i j s1 s2 n,
     i ≤ j → r !! i = Some s1 → r !! j = Some s2 →
     n ∈ step_closed s1 →
     n ∈ step_closed s2 ∧ step_dist s2 !! n = step_dist s1 !! n).
Proof.
  unfold dijkstra_steps. destruct (G_contains G start); [|done]. intros Hr.
  assert (∃ st', monotone_steps (steps st') ∧ r = steps st')
    as (st' & Hmono & ->).
  { apply (dijkstra_loop_inv
             (λ st, snapshot st ∧ monotone_steps (steps st))
             (λ st, monotone_steps (steps st)) G goal)
      with (length order) (init_state G order start); [| | |done].
    - by intros st [].
    - intros st c st' [Hsnap Hmono] _ Hb.
      assert (monotone_steps (steps st')) by by eapply monotone_steps_pass.
      split; [done|]. intros _. split; [by eapply snapshot_pass|done].
    - split; [apply snapshot_init|]. by intros i s1 s2 ?. }
  split.
  + intros i s1 s2 n d1 H1 H2 Hd.
    destruct (Hmono i s1 s2 H1 H2) as (_ & _ & Hle). by apply Hle.
  + intros i j s1 s2 n Hij. revert s2.
    induction Hij as [|j Hij IH]; intros s2 H1 H2 Hn.
    * by simplify_eq.
    * destruct (lookup_lt_is_Some_2 (steps st') j) as [sj Hj].
      { apply lookup_lt_Some in H2. lia. }
      destruct (IH sj H1 Hj Hn) as [Hnj Hdj].
      destruct (Hmono j sj s2 Hj H2) as (Hsub & Hsame & _).
      split; [set_solver|]. rewrite <- Hdj. by apply Hsame.
Qed.

End Monotone.

(** ** Stopping at the goal *)

Section Goal.
Context `{Countable NodeId} {F : Float}.
Implicit Types (G : @Graph NodeId F) (st : @State NodeId _ _ F)
  (goal : option NodeId) (s : @Step NodeId _ _ F)
  (l r : list (@Step NodeId _ _ F)).

Lemma untouched_init G order start : untouched G start (init_state G order start).
Proof.
  intros n Hn _. simpl. destruct (decide (n = start)) as [->|Hne].
  - by rewrite lookup_insert_eq.
  - rewrite lookup_insert_ne by done.
    rewrite lookup_dict_fromkeys. by rewrite decide_True.
Qed.

Lemma untouched_pass G start goal st c st' :
  untouched G start st → loop_body G goal st = Returns (c, st') →
  untouched G start st'.
Proof.
  intros Hun Hb n Hn Hno.
  apply loop_body_spec in Hb
    as (cur & d & _ & _ & [(_ & _ & ->)|(_ & _ & nbrs & logs & _ & Hrel
       & _ & _ & _ & Hst)]).
  - simpl in *. apply Hun; [done|]. intros s Hs. apply Hno. set_solver.
  - rewrite Hst in Hno.
    pose proof (relax_loop_frame _ _ _ _ _ _ _ _ _ Hrel)
      as (_ & _ & _ & Hj & Hok & Hsame).
    destruct (Hsame n) as [-> _].
    + intros Hin. destruct (decide (n ∈ closed st)) as [|Hnc]; [done|].
      rewrite <- Hj in Hin. apply list_elem_of_fmap in Hin as (lg & -> & Hlg).
      exfalso. eapply (Hno _); [apply elem_of_app; right; by left|].
      exists lg. simpl. split_and!; [done..|].
      rewrite Forall_forall in Hok. destruct (Hok _ Hlg) as (_ & _ & _ & _ & ->).
      by rewrite decide_False.
    + apply Hun; [done|]. intros s Hs. apply Hno. set_solver.
Qed.

Lemma finalizations_all goal l : all_selected goal l → finalizations l = length l.
Proof.
  induction l as [|s l IH] using rev_ind; intros Hall; [done|].
  rewrite finalizations_snoc, length_app, IH by set_solver. simpl.
  destruct (Hall s) as (n & -> & _); [set_solver|done].
Qed.

(** C6.  When a goal is given and a step finalizes it, that step is the
    last one; all steps of the sequence are finalizations, as many as
    the finalized set of that step has nodes, fewer than the graph has
    nodes if some node is not finalized; and every node on which no
    attempt was made still has, in that step, the distance it was given
    before the loop: [inf], and [0.0] for [start], the one node that is
    reached from the beginning. *)
Theorem goal_step_last G order start g r :
  wf_graph G = true → order ≡ₚ G_nodes G →
  dijkstra_steps G order start (Some g) = Returns r →
  ∀ k s, r !! k = Some s → step_selected_node s = Some g →
    S k = length r ∧
    length r = finalizations r ∧
    finalizations r = size (step_closed s) ∧
    ((∃ n, n ∈ G_nodes G ∧ n ∉ step_closed s) →
       length r < length (G_nodes G)) ∧
    (∀ n, n ∈ G_nodes G →
       (∀ s', s' ∈ r → ¬ attempted n s') →
       step_dist s !! n = Some (if decide (n = start) then zero else inf)).
Proof.
  intros Hwf Hperm. unfold dijkstra_steps.
  destruct (G_contains G start) eqn:Hstart; [|done]. intros Hr.
  apply G_contains_spec in Hstart.
  assert (∃ st', (Wf G st' ∧ untouched G start st' ∧ snapshot st' ∧
            ∀ k s, steps st' !! k = Some s → step_selected_node s = Some g →
              S k = length (steps st') ∧
              length (steps st') = finalizations (steps st')) ∧
          r = steps st') as (st' & (HWf & Hun & Hsnap & Hlast) & ->).
  { apply (dijkstra_loop_inv
             (λ st, Wf G st ∧ untouched G start st ∧ snapshot st ∧
                    all_selected (Some g) (steps st)) _ G (Some g))
      with (length order) (init_state G order start); [| | |done].
    - intros st (? & ? & ? & Hall). split_and!; [done..|].
      intros k s Hk Hs. apply list_elem_of_lookup_2, Hall in Hk as (n & ? & ?).
      congruence.
    - intros st c st' (HWf & Hun & Hsnap & Hall) _ Hb.
      assert (Wf G st') by by eapply Wf_pass.
      assert (untouched G start st') by by eapply untouched_pass.
      assert (snapshot st') by by eapply snapshot_pass.
      split; [|intros ->; split_and!; [done..|by eapply all_selected_pass]].
      split_and!; [done..|]. intros k s Hk Hs.
      destruct (loop_body_steps _ _ _ _ _ Hb) as (s' & Hst & _).
      rewrite Hst in Hk |- *. apply lookup_app_Some in Hk as [Hk|[Hlen Hk]].
      { apply list_elem_of_lookup_2, Hall in Hk as (n & ? & ?). congruence. }
      apply list_lookup_singleton_Some in Hk as [Hk <-].
      rewrite finalizations_snoc, Hs, length_app.
      rewrite (finalizations_all _ _ Hall). simpl. lia.
    - split_and!; [by apply Wf_init|apply untouched_init|apply snapshot_init|].
      by intros s ?%elem_of_nil. }
  intros k s Hk Hs. destruct (Hlast _ _ Hk Hs) as [Hlen Hfin].
  assert (last (steps st') = Some s) as Hl.
  { rewrite last_lookup, <- Hk. f_equal. lia. }
  destruct (Hsnap _ Hl) as (Hc & Hd & _).
  split_and!; [done|done|by rewrite Hc, (wf_count _ _ HWf)| |by rewrite Hd].
  intros (n & Hn & Hnc). rewrite Hfin, <- (wf_count _ _ HWf), <- Hc.
  rewrite <- (size_list_to_set (C:=gset NodeId)) by by apply wf_graph_nodes.
  apply subset_size. split.
  - intros x Hx. apply elem_of_list_to_set, (wf_partition _ _ HWf).
    left. by rewrite <- Hc.
  - intros Hsub. apply Hnc, Hsub. by apply elem_of_list_to_set.
Qed.

End Goal.

(** ** The path reconstructor *)

Section Reconstruct.
Context `{Countable NodeId}.
Implicit Types (prev : gmap NodeId (option NodeId)) (start goal n : NodeId)
  (l path acc : list NodeId).

Lemma reconstruct_loop_None prev start fuel acc :
  reconstruct_loop fuel prev start None acc = Returns acc.
Proof. by destruct fuel. Qed.

(** The loop follows the backward walk. *)
Lemma reconstruct_loop_walk prev start n l e fuel acc :
  backward_walk prev start n l e → length l ≤ fuel →
  reconstruct_loop fuel prev start (Some n) acc =
    match e with
    | MissingKey => Raises KeyError
    | _ => Returns (acc ++ l)
    end.
Proof.
  intros Hw. revert fuel acc.
  induction Hw as [|n Hne Hp|n Hne Hp|n p l e Hne Hp Hw IH];
    intros [|fuel] acc Hlen; simpl in Hlen; try lia; simpl.
  - by rewrite decide_True.
  - rewrite decide_False by done.
    apply getitem_Returns in Hp. rewrite Hp. simpl.
    apply reconstruct_loop_None.
  - rewrite decide_False by done.
    assert (getitem prev n = Raises KeyError) as ->; [|done].
    by apply getitem_Raises.
  - rewrite decide_False by done.
    apply getitem_Returns in Hp. rewrite Hp. simpl.
    rewrite IH by lia. destruct e; try done; by rewrite <- app_assoc.
Qed.

(** Conversely, whatever the loop does is a backward walk. *)
Lemma reconstruct_loop_inv prev start n fuel acc :
  match reconstruct_loop fuel prev start (Some n) acc with
  | Returns path =>
      ∃ l e, backward_walk prev start n l e ∧ e ≠ MissingKey ∧
             path = acc ++ l
  | Raises err =>
      err = KeyError ∧ ∃ l, backward_walk prev start n l MissingKey
  | OutOfFuel => True
  end.
Proof.
  revert n acc. induction fuel as [|fuel IH]; intros n acc; simpl; [done|].
  case_decide as Hn.
  - subst. exists [start], ReachedStart. split_and!; [constructor|done..].
  - unfold getitem. destruct (prev !! n) as [[p|]|] eqn:Hp; simpl.
    + specialize (IH p (acc ++ [n])).
      destruct (reconstruct_loop fuel prev start (Some p) (acc ++ [n])).
      * destruct IH as (l & e & Hw & He & ->). exists (n :: l), e.
        split_and!; [by econstructor|done|by rewrite <- app_assoc].
      * destruct IH as (-> & l & Hw). split; [done|]. exists (n :: l).
        by econstructor.
      * done.
    + rewrite reconstruct_loop_None. exists [n], AbsentPredecessor.
      split_and!; [by constructor|done..].
    + split; [done|]. exists [n]. by constructor.
Qed.

Lemma backward_walk_last prev start n l e :
  backward_walk prev start n l e →
  ∃ m, last l = Some m ∧
       match e with
       | ReachedStart => m = start
       | AbsentPredecessor => m ≠ start ∧ prev !! m = Some None
       | MissingKey => m ≠ start ∧ prev !! m = None
       end.
Proof.
  induction 1 as [|n Hne Hp|n Hne Hp|n p l e Hne Hp Hw (m & Hl & Hm)];
    [by eexists..|].
  exists m. split; [|done]. destruct l; [done|]. by rewrite last_cons, Hl.
Qed.

(** Only a walk that reaches [start] visits it. *)
Lemma backward_walk_start prev start n l e :
  backward_walk prev start n l e → start ∈ l → e = ReachedStart.
Proof.
  induction 1 as [|n Hne Hp|n Hne Hp|n p l e Hne Hp Hw IH]; intros Hs.
  - done.
  - by apply list_elem_of_singleton in Hs.
  - by apply list_elem_of_singleton in Hs.
  - apply elem_of_cons in Hs as [?|?]; [done|auto].
Qed.

(** Every node of a walk that does not run into a missing key is a key,
    the start node it may end in apart. *)
Lemma backward_walk_keys prev start n l e x :
  backward_walk prev start n l e → e ≠ MissingKey →
  x ∈ l → x ≠ start → is_Some (prev !! x).
Proof.
  induction 1 as [|n Hne Hp|n Hne Hp|n p l e Hne Hp Hw IH]; intros He Hx Hxs.
  - set_solver.
  - apply list_elem_of_singleton in Hx as ->. eauto.
  - done.
  - apply elem_of_cons in Hx as [->|Hx]; eauto.
Qed.

Lemma reconstruct_path_walk prev start goal l e fuel :
  backward_walk prev start goal l e → length l ≤ fuel →
  reconstruct_path fuel prev start goal =
    match e with
    | ReachedStart => Returns (reverse l)
    | AbsentPredecessor => Returns []
    | MissingKey => Raises KeyError
    end.
Proof.
  intros Hw Hlen. unfold reconstruct_path.
  rewrite (reconstruct_loop_walk _ _ _ _ _ _ _ Hw Hlen). simpl.
  destruct (backward_walk_last _ _ _ _ _ Hw) as (m & Hl & Hm).
  destruct e; simpl; [| |done].
  - subst. rewrite bool_decide_eq_false_2; [done|].
    intros [->|Hne]; [done|]. by rewrite Hl in Hne.
  - rewrite bool_decide_eq_true_2; [done|]. right. rewrite Hl.
    intros [= ->]. by destruct Hm.
Qed.

(** C2. [reconstruct_path prev start start] is [[start]]; when the
    backward walk from [goal] reaches [start] the result is the walk
    reversed, from [start] to [goal]; when the walk finds an absent
    predecessor before reaching [start] the result is the empty list. *)
Theorem reconstruct_path_spec prev start goal :
  (∀ fuel, reconstruct_path (S fuel) prev start start = Returns [start]) ∧
  (∀ fuel l, backward_walk prev start goal l ReachedStart →
     length l ≤ fuel →
     reconstruct_path fuel prev start goal = Returns (reverse l)) ∧
  (∀ fuel l, backward_walk prev start goal l AbsentPredecessor →
     length l ≤ fuel →
     reconstruct_path fuel prev start goal = Returns []).
Proof.
  split_and!.
  - intros fuel.
    rewrite (reconstruct_path_walk prev start start [start] ReachedStart);
      [done|constructor|simpl; lia].
  - intros fuel l Hw Hlen. by rewrite (reconstruct_path_walk _ _ _ _ _ _ Hw).
  - intros fuel l Hw Hlen. by rewrite (reconstruct_path_walk _ _ _ _ _ _ Hw).
Qed.

(** C10. For a [goal] other than [start] that is not a key of [prev],
    and more generally whenever the backward walk arrives at a node that
    is not a key, [reconstruct_path] raises [KeyError]; it returns the
    empty list only if the walk ends at a key without predecessor, and
    then every node of the walk is a key. *)
Theorem reconstruct_path_key_error prev start goal :
  (goal ≠ start → prev !! goal = None →
     ∀ fuel, reconstruct_path (S fuel) prev start goal = Raises KeyError) ∧
  (∀ fuel l, backward_walk prev start goal l MissingKey →
     length l ≤ fuel →
     reconstruct_path fuel prev start goal = Raises KeyError) ∧
  (∀ fuel, reconstruct_path fuel prev start goal = Returns [] →
     ∃ l, backward_walk prev start goal l AbsentPredecessor ∧
          ∀ x, x ∈ l → is_Some (prev !! x)).
Proof.
  split_and!.
  - intros Hne Hp fuel.
    rewrite (reconstruct_path_walk prev start goal [goal] MissingKey);
      [done|by constructor|simpl; lia].
  - intros fuel l Hw Hlen. by rewrite (reconstruct_path_walk _ _ _ _ _ _ Hw).
  - intros fuel. unfold reconstruct_path.
    pose proof (reconstruct_loop_inv prev start goal fuel []) as Hinv.
    destruct (reconstruct_loop fuel prev start (Some goal) []) as [path| |];
      simpl; [|done..].
    destruct Hinv as (l & e & Hw & He & ->). simpl.
    destruct (backward_walk_last _ _ _ _ _ Hw) as (m & Hl & Hm).
    case_bool_decide as Hd; [|intros [= Hr]].
    + intros _. destruct e; [|clear He|done].
      * subst. destruct Hd as [->|Hd]; [done|]. by rewrite Hl in Hd.
      * exists l. split; [done|]. intros x Hx.
        destruct (decide (x = start)) as [->|Hxs];
          [|by eapply backward_walk_keys].
        by apply (backward_walk_start _ _ _ _ _ Hw) in Hx.
    + apply (f_equal length) in Hr. rewrite length_reverse in Hr.
      destruct l; [done|]. done.
Qed.

End Reconstruct.

(** ** Passes over graphs with non-negative weights *)

Section NonNegative.
Context `{Countable NodeId} {F : Float} {FO : FloatOrder F}.
Implicit Types (G : @Graph NodeId F) (st : @State NodeId _ _ F)
  (goal : option NodeId) (s : @Step NodeId _ _ F)
  (l r : list (@Step NodeId _ _ F)).

(** A pass leaves the tables alone, or finalizes the selected node at
    its current distance and improves some of its open neighbours. *)
Lemma loop_body_relax G goal st c st' :
  nonneg_weights G = true →
  loop_body G goal st = Returns (c, st') →
  (closed st' = closed st ∧ dist st' = dist st ∧ prev st' = prev st) ∨
  ∃ cur perm nbrs,
    py_min (dist st) (open_set st) = Returns cur ∧
    dist st !! cur = Some perm ∧
    G_neighbors G cur = Returns nbrs ∧
    closed st' = {[cur]} ∪ closed st ∧
    dist st' !! cur = Some perm ∧
    ∀ x,
      (x ∈ nbrs ∧ (x ∉ closed st) ∧ x ≠ cur ∧
       ∃ w old, G_weight G cur x = Returns w ∧ dist st !! x = Some old ∧
                flt (fadd perm w) old = true ∧
                dist st' !! x = Some (fadd perm w) ∧
                prev st' !! x = Some (Some cur)) ∨
      (dist st' !! x = dist st !! x ∧ prev st' !! x = prev st !! x ∧
       (x ∈ nbrs → x ∉ closed st →
        ∀ w old, G_weight G cur x = Returns w → dist st !! x = Some old →
                 flt (fadd perm w) old = false)).
Proof.
  intros Hnn (cur & d & Hmin & Hd & [(_ & _ & ->)|(_ & _ & nbrs & logs & Hn
     & Hrel & _ & _ & Hcl & _)])%loop_body_spec; [by left|right].
  exists cur, d, nbrs.
  apply relax_loop_spec with (perm := d) in Hrel as (Hcur & _ & Hall);
    [done|done|].
  intros w Hw. by eapply nonneg_weights_edge.
Qed.

Lemma consistent_pass G goal st c st' :
  nonneg_weights G = true →
  consistent G (closed st) (dist st) (prev st) →
  loop_body G goal st = Returns (c, st') →
  consistent G (closed st') (dist st') (prev st').
Proof.
  intros Hnn Hcons [(-> & -> & ->)|(cur & perm & nbrs & _ & Hd & _ & Hcl
     & Hcur & Hall)]%loop_body_relax; [done| |done].
  intros n p Hp. rewrite Hcl.
  destruct (Hall n) as [(_ & _ & _ & w & old & Hw & _ & _ & Hdn & Hpn)
                       |(Hdn & Hpn & _)].
  - assert (p = cur) as -> by congruence. split; [set_solver|].
    by exists (fadd perm w), perm, w.
  - rewrite Hpn in Hp.
    destruct (Hcons _ _ Hp) as (Hpc & dn & dp & w & Hn & Hpd & Hw & ->).
    split; [set_solver|]. exists (fadd dp w), dp, w.
    split_and!; [congruence| |done..].
    destruct (Hall p) as [(_ & ? & _)|(-> & _)]; done.
Qed.


(** The ranking by order of finalization survives a pass. *)
Lemma ranked_pass G goal st c st' rank :
  nonneg_weights G = true → Wf G st →
  ranked (closed st) (prev st) rank →
  loop_body G goal st = Returns (c, st') →
  ∃ rank', ranked (closed st') (prev st') rank'.
Proof.
  intros Hnn HWf (Hr1 & Hr2 & Hr3)
    [(-> & _ & ->)|(cur & perm & nbrs & Hmin & Hd & _ & Hcl
     & Hcur & Hall)]%loop_body_relax; [by exists rank| |done].
  assert (cur ∉ closed st) as Hnc.
  { apply py_min_elem in Hmin. intros ?%(wf_disjoint _ _ HWf). done. }
  rewrite Hcl. clear Hcl.
  assert (size ({[cur]} ∪ closed st) = S (size (closed st))) as Hsize.
  { rewrite size_union, size_singleton by set_solver. lia. }
  exists (λ n, if decide (n ∈ closed st) then rank n
               else if decide (n = cur) then size (closed st)
               else S (size (closed st))).
  split_and!.
  - intros n. rewrite Hsize. intros Hn.
    destruct (decide (n ∈ closed st)) as [Hc|Hc].
    + specialize (Hr1 _ Hc). lia.
    + rewrite decide_True by set_solver. lia.
  - intros n. rewrite Hsize. intros Hn.
    rewrite !decide_False by set_solver. done.
  - intros n p Hp.
    destruct (Hall n) as [(_ & Hn & Hne & w & old & _ & _ & _ & _ & Hpn)
                         |(_ & Hpn & _)].
    + assert (p = cur) as -> by congruence. split; [set_solver|].
      rewrite (decide_False (P:=cur ∈ closed st)) by done.
      rewrite (decide_True (P:=cur = cur)) by done.
      rewrite (decide_False (P:=n ∈ closed st)) by done.
      rewrite (decide_False (P:=n = cur)) by done. lia.
    + rewrite Hpn in Hp. destruct (Hr3 _ _ Hp) as [Hpc Hlt].
      split; [set_solver|]. rewrite (decide_True _ _ Hpc).
      specialize (Hr1 _ Hpc). repeat case_decide; lia.
Qed.


End NonNegative.

(** ** Termination of the path reconstructor *)

Section Termination.
Context `{Countable NodeId}.
Implicit Types (prev : gmap NodeId (option NodeId)) (start goal n : NodeId)
  (l path acc : list NodeId).



End Termination.

Section Acyclic.
Context `{Countable NodeId} {F : Float} {FO : FloatOrder F}.
Implicit Types (G : @Graph NodeId F).


End Acyclic.

(** ** Correctness of the finalized distances *)

Section Correctness.
Context `{Countable NodeId} {F : Float} {FO : FloatOrder F}.
Implicit Types (G : @Graph NodeId F) (st : @State NodeId _ _ F)
  (goal : option NodeId) (s : @Step NodeId _ _ F)
  (r : list (@Step NodeId _ _ F)) (l vs : list NodeId).

(** The shortest-path distance is unique. *)
Lemma shortest_dist_unique G start v d1 d2 :
  shortest_dist G start v d1 → shortest_dist G start v d2 → d1 = d2.
Proof.
  intros [Hlow1 Hatt1] [Hlow2 Hatt2]. apply fle_antisym.
  - destruct Hatt2 as [->|(vs & Hp & _)]; [apply fle_inf|eauto].
  - destruct Hatt1 as [->|(vs & Hp & _)]; [apply fle_inf|eauto].
Qed.

(** Walks stay inside the graph. *)
Lemma path_nodes G start l c :
  wf_graph G = true → start ∈ G_nodes G →
  path G start l c → ∀ x, x ∈ l → x ∈ G_nodes G.
Proof.
  intros Hwf Hs. induction 1 as [|u vs c v w Hp IH Hw]; intros x Hx.
  - by apply list_elem_of_singleton in Hx as ->.
  - apply elem_of_cons in Hx as [->|Hx]; [|auto].
    by eapply wf_graph_edge.
Qed.

(** A walk from [start] either ends in a finalized node or passes an
    open node whose distance is at most the cost of the walk. *)
Lemma path_leaving_closed G start st l c :
  wf_graph G = true → nonneg_weights G = true → start ∈ G_nodes G →
  Wf G st → Dijkstra G start st →
  path G start l c →
  ∀ v, head l = Some v →
    v ∈ closed st ∨
    ∃ y dy, y ∈ open_set st ∧ dist st !! y = Some dy ∧ fle dy c.
Proof.
  intros Hwf Hnn Hs HWf HD.
  induction 1 as [|u vs c v w Hp IH Hw]; intros v' [= <-].
  - apply (wf_partition _ _ HWf) in Hs as [?|Hopen]; [by left|right].
    destruct (dj_start _ _ _ HD) as (d & Hd & Hle). eauto.
  - destruct (IH u) as [Hu|(y & dy & Hy & Hdy & Hle)]; [done| |].
    + destruct (decide (v ∈ closed st)) as [|Hv]; [by left|right].
      destruct (wf_graph_edge _ _ _ _ Hwf Hw) as [Hun Hvn].
      apply (wf_partition _ _ HWf) in Hvn as [?|Hvo]; [done|].
      assert (is_Some (dist st !! u)) as [du Hdu].
      { apply elem_of_dom. rewrite (wf_dom_dist _ _ HWf).
        by apply elem_of_list_to_set. }
      assert (is_Some (dist st !! v)) as [dv Hdv].
      { apply elem_of_dom. rewrite (wf_dom_dist _ _ HWf).
        apply elem_of_list_to_set, (wf_partition _ _ HWf). auto. }
      exists v, dv. split_and!; [done..|].
      eapply fle_trans; [by eapply (dj_edges _ _ _ HD u v)|].
      apply fadd_mono. by eapply (dj_closed _ _ _ HD).
    + right. exists y, dy. split_and!; [done..|].
      eapply fle_trans; [done|]. apply fadd_nonneg.
      by eapply nonneg_weights_edge.
Qed.

(** No walk to the selected node is cheaper than its distance. *)
Lemma selected_lower_bound G start st cur d vs c :
  wf_graph G = true → nonneg_weights G = true → start ∈ G_nodes G →
  Wf G st → Dijkstra G start st →
  py_min (dist st) (open_set st) = Returns cur → dist st !! cur = Some d →
  path G start (cur :: vs) c → fle d c.
Proof.
  intros Hwf Hnn Hs HWf HD Hmin Hd Hp.
  destruct (py_min_min _ _ _ Hmin) as (d' & Hd' & Hall).
  assert (d' = d) as -> by congruence.
  destruct (path_leaving_closed _ _ _ _ _ Hwf Hnn Hs HWf HD Hp cur)
    as [Hc|(y & dy & Hy & Hdy & Hle)]; [done| |].
  - apply py_min_elem in Hmin. by apply (wf_disjoint _ _ HWf) in Hc.
  - eapply fle_trans; [|done]. eauto.
Qed.

Lemma Dijkstra_init G order start :
  Dijkstra G start (init_state G order start).
Proof.
  split; simpl.
  - exists zero. rewrite lookup_insert_eq. split; [done|apply fle_refl].
  - intros v d. destruct (decide (v = start)) as [->|Hne].
    + rewrite lookup_insert_eq. intros [= <-]. right. exists [].
      split_and!; [constructor|apply NoDup_singleton|by intros ? ?%elem_of_nil].
    + rewrite lookup_insert_ne by done. rewrite lookup_dict_fromkeys.
      case_decide; [|done]. intros [= <-]. by left.
  - set_solver.
  - set_solver.
Qed.

Lemma Dijkstra_pass G start goal st c st' :
  wf_graph G = true → nonneg_weights G = true → start ∈ G_nodes G →
  Wf G st → Dijkstra G start st →
  loop_body G goal st = Returns (c, st') →
  Dijkstra G start st'.
Proof.
  intros Hwf Hnn Hs HWf HD Hb.
  destruct (loop_body_relax _ _ _ _ _ Hnn Hb)
    as [(Hc & Hd & Hp)|(cur & perm & nbrs & Hmin & Hperm & Hn & Hcl
        & Hcur & Hall)].
  { destruct HD as [H1 H2 H3 H4]. split; rewrite ?Hc, ?Hd; eauto. }
  assert (cur ∉ closed st) as Hnc.
  { apply py_min_elem in Hmin. intros ?%(wf_disjoint _ _ HWf). done. }
  assert (∀ u, u ∈ closed st → dist st' !! u = dist st !! u) as Hfix.
  { intros u Hu. by destruct (Hall u) as [(_ & ? & _)|(-> & _)]. }
  split.
  - destruct (dj_start _ _ _ HD) as (d & Hd & Hle).
    destruct (Hall start) as [(_ & _ & _ & w & old & _ & Hold & Hlt & Hnew & _)
                             |(-> & _)]; [|eauto].
    eexists. split; [done|]. assert (old = d) as -> by congruence.
    eapply fle_trans; [by apply flt_fle|done].
  - intros v d Hd. rewrite Hcl.
    destruct (Hall v) as [(_ & Hvc & Hvn & w & old & Hw & _ & _ & Hnew & _)
                         |(Hsame & _)].
    + assert (d = fadd perm w) as -> by congruence.
      destruct (dj_path _ _ _ HD _ _ Hperm) as [->|(vs & Hp & Hnd & Hvs)].
      * left. apply fle_inf_eq, fadd_nonneg. by eapply nonneg_weights_edge.
      * right. exists (cur :: vs). split_and!.
        -- by econstructor.
        -- apply NoDup_cons. split; [|done].
           intros [->|Hin%Hvs]%elem_of_cons; done.
        -- intros x [->|Hx%Hvs]%elem_of_cons; set_solver.
    + rewrite Hsame in Hd.
      destruct (dj_path _ _ _ HD _ _ Hd) as [->|(vs & Hp & Hnd & Hvs)];
        [by left|right].
      exists vs. split_and!; [done..|]. intros x Hx%Hvs. set_solver.
  - intros u d vs c' Hu Hd Hp. rewrite Hcl in Hu.
    apply elem_of_union in Hu as [->%elem_of_singleton|Hu].
    + assert (d = perm) as -> by congruence.
      by eapply selected_lower_bound.
    + rewrite (Hfix _ Hu) in Hd. by eapply (dj_closed _ _ _ HD).
  - intros u v w du dv Hu Hv Hw Hdu Hdv. rewrite Hcl in Hu, Hv.
    apply not_elem_of_union in Hv as [Hvn%not_elem_of_singleton Hvc].
    apply elem_of_union in Hu as [->%elem_of_singleton|Hu].
    + assert (du = perm) as -> by congruence.
      destruct (G_weight_neighbor _ _ _ _ Hw) as (nbrs' & Hn' & Hin).
      assert (nbrs' = nbrs) as -> by congruence.
      destruct (Hall v) as [(_ & _ & _ & w' & old & Hw' & _ & _ & Hnew & _)
                           |(Hsame & _ & Hno)].
      * assert (w' = w) as -> by congruence.
        assert (dv = fadd perm w) as -> by congruence. apply fle_refl.
      * rewrite Hsame in Hdv. by apply (Hno Hin Hvc w dv).
    + rewrite (Hfix _ Hu) in Hdu.
      destruct (Hall v) as [(_ & _ & _ & w' & old & _ & Hold & Hlt & Hnew & _)
                           |(Hsame & _)].
      * assert (dv = fadd perm w') as -> by congruence.
        eapply fle_trans; [by apply flt_fle|].
        by eapply (dj_edges _ _ _ HD u v).
      * rewrite Hsame in Hdv. by eapply (dj_edges _ _ _ HD u v).
Qed.

(** C1. On a graph with non-negative weights and for a [start] in the
    graph, [dijkstra_steps] returns a step sequence, and the distance a
    step of it records for a node of its finalized set is the
    shortest-path distance from [start] to that node. *)
Theorem finalized_distance_shortest G order start goal :
  wf_graph G = true → nonneg_weights G = true → order ≡ₚ G_nodes G →
  start ∈ G_nodes G →
  ∃ r, dijkstra_steps G order start goal = Returns r ∧
    ∀ s n, s ∈ r → n ∈ step_closed s →
      ∃ d, step_dist s !! n = Some d ∧ shortest_dist G start n d.
Proof.
  intros Hwf Hnn Hperm Hstart. unfold dijkstra_steps.
  rewrite (proj2 (G_contains_spec G start) Hstart).
  destruct (dijkstra_loop_total G goal (length order)
              (init_state G order start)) as [r Hr];
    [done|by apply Wf_init|done|].
  exists r. split; [done|].
  cut (Forall (λ s, ∀ n, n ∈ step_closed s →
         ∃ d, step_dist s !! n = Some d ∧ shortest_dist G start n d) r).
  { rewrite Forall_forall. eauto. }
  apply (dijkstra_loop_steps (λ st, Wf G st ∧ Dijkstra G start st) _ G goal)
    with (length order) (init_state G order start); [| |done|done].
  - intros st c st' s [HWf HD] _ Hb Hs.
    assert (Wf G st') as HWf' by by eapply Wf_pass.
    assert (Dijkstra G start st') as HD'
      by by apply (Dijkstra_pass G start goal st c st').
    split; [|done].
    destruct (loop_body_steps _ _ _ _ _ Hb) as (s' & Hs' & Hc & Hd & _).
    rewrite Hs in Hs'. apply app_inv_head in Hs' as [= <-].
    rewrite Hc, Hd. intros n Hn.
    assert (is_Some (dist st' !! n)) as [d Hdn].
    { apply elem_of_dom. rewrite (wf_dom_dist _ _ HWf').
      apply elem_of_list_to_set, (wf_partition _ _ HWf'). auto. }
    exists d. split; [done|]. split.
    + intros vs c' Hp. by eapply (dj_closed _ _ _ HD').
    + destruct (dj_path _ _ _ HD' _ _ Hdn) as [->|(vs & Hp & Hnd & _)];
        [by left|right; eauto].
  - split; [by apply Wf_init|apply Dijkstra_init].
Qed.

End Correctness.

(** ** The concrete number system satisfies the order laws *)

#[global] Instance xint_order : FloatOrder xint_float.
Proof.
  split; unfold fle; simpl.
  - intros [a|]; simpl; [|done]. apply bool_decide_eq_false. lia.
  - intros [a|] [b|] [c|]; simpl; try done.
    rewrite !bool_decide_eq_true. lia.
  - intros [a|] [b|]; simpl; try done.
    rewrite !bool_decide_eq_false. intros. f_equal. lia.
  - by intros [a|].
  - intros [a|] [b|] [w|]; simpl; try done.
    rewrite !bool_decide_eq_false. lia.
  - intros [a|] [w|]; simpl; try done.
    rewrite !bool_decide_eq_false. lia.
Qed.

(** ** Runs on the sample graphs *)

Lemma sample_run :
  dijkstra_steps sample [1; 2; 3; 4] 1 (Some 4) = Returns sample_steps.
Proof. vm_compute. reflexivity. Defined.

Lemma split_run :
  dijkstra_steps split_graph [1; 2; 3] 1 None = Returns split_steps.
Proof. vm_compute. reflexivity. Defined.

Lemma split_goal_run :
  dijkstra_steps split_graph [1; 2; 3] 1 (Some 2) = Returns split_goal_steps.
Proof. vm_compute. reflexivity. Defined.

(** The step at a position of a run is one of its steps. *)
Lemma step_at_elem (r : list Step) i s :
  r !! i = Some s → step_at r i ∈ r.
Proof.
  intros Hi. unfold step_at. rewrite Hi. simpl.
  by eapply list_elem_of_lookup_2.
Defined.

(** C1 on the sample graph: node 4 is finalized in the last step at
    distance 33, which is its shortest-path distance from node 1. *)
Lemma finalized_distance_shortest_witness :
  step_dist (step_at sample_steps 3) !! 4 = Some (Fin 33) ∧
  shortest_dist sample 1 4 (Fin 33).
Proof.
  destruct (finalized_distance_shortest sample [1; 2; 3; 4] 1 (Some 4))
    as (r & Hr & Hall).
  - reflexivity.
  - reflexivity.
  - reflexivity.
  - vm_compute. set_solver.
  - rewrite sample_run in Hr. injection Hr as <-.
    destruct (Hall (step_at sample_steps 3) 4) as (d & Hd & Hshort).
    + apply (step_at_elem sample_steps 3 (step_at sample_steps 3)).
      vm_compute. reflexivity.
    + vm_compute. reflexivity.
    + assert (d = Fin 33) as ->.
      { vm_compute in Hd. by injection Hd as <-. }
      split; [vm_compute; reflexivity|exact Hshort].
Defined.

(** C2 on the predecessor map of the sample run. *)
Lemma reconstruct_path_spec_witness :
  reconstruct_path 4 sample_prev 1 1 = Returns [1] ∧
  reconstruct_path 4 sample_prev 1 4 = Returns [1; 3; 4] ∧
  reconstruct_path 4 sample_prev 2 4 = Returns [].
Proof.
  split_and!.
  - apply (proj1 (reconstruct_path_spec sample_prev 1 1) 3).
  - apply (proj1 (proj2 (reconstruct_path_spec sample_prev 1 4)) 4 [4; 3; 1]).
    + apply bw_step with 3; [lia|vm_compute; reflexivity|].
      apply bw_step with 1; [lia|vm_compute; reflexivity|].
      apply bw_start.
    + simpl. lia.
  - apply (proj2 (proj2 (reconstruct_path_spec sample_prev 2 4)) 4 [4; 3; 1]).
    + apply bw_step with 3; [lia|vm_compute; reflexivity|].
      apply bw_step with 1; [lia|vm_compute; reflexivity|].
      apply bw_absent; [lia|vm_compute; reflexivity].
    + simpl. lia.
Defined.

(** C3 on the sample graph, for a start outside and inside it. *)
Lemma dijkstra_steps_raises_iff_witness :
  dijkstra_steps sample [1; 2; 3; 4] 7 None = Raises ValueError ∧
  ∃ r, dijkstra_steps sample [1; 2; 3; 4] 1 None = Returns r.
Proof.
  split.
  - destruct (dijkstra_steps_raises_iff sample [1; 2; 3; 4] 7 None)
      as (Hraise & _); [reflexivity|reflexivity|].
    apply Hraise. intros Hin. vm_compute in Hin. set_solver.
  - destruct (dijkstra_steps_raises_iff sample [1; 2; 3; 4] 1 None)
      as (_ & Hret & _); [reflexivity|reflexivity|].
    apply Hret. vm_compute. set_solver.
Defined.

(** C4 as stated fails on the sample graph.  In the second step node 2
    is selected; the attempt on node 3 does not improve it (24 against
    21) and the attempt on node 4 does (35 against [inf]), and both
    entries carry the same [selected] and [deleted] fields. *)
Lemma improved_not_recorded :
  ∃ s1 s2 s3 s4 l1 l3 l4,
    dijkstra_steps sample [1; 2; 3; 4] 1 (Some 4) =
      Returns [s1; s2; s3; s4] ∧
    step_selected_node s2 = Some 2 ∧ step_trying s2 = [l1; l3; l4] ∧
    log_j l3 = 3 ∧ log_temp_cost l3 = Fin 24 ∧
    step_dist s1 !! 3 = Some (Fin 21) ∧ step_dist s2 !! 3 = Some (Fin 21) ∧
    log_j l4 = 4 ∧ log_temp_cost l4 = Fin 35 ∧
    step_dist s1 !! 4 = Some PInf ∧ step_dist s2 !! 4 = Some (Fin 35) ∧
    log_selected l3 = log_selected l4 ∧ log_deleted l3 = log_deleted l4.
Proof.
  eexists _, _, _, _, _, _, _.
  split; [vm_compute; reflexivity|].
  split; [vm_compute; reflexivity|].
  split; [vm_compute; reflexivity|].
  repeat split; vm_compute; reflexivity.
Qed.

(** C5 on a graph with an unreachable node. *)
Lemma terminal_step_recorded_witness :
  dijkstra_loop 1 split_graph None split_state =
    Returns (steps split_state ++ [terminal_step split_state]) ∧
  terminal_ok split_steps.
Proof.
  split.
  - apply (proj1 terminal_step_recorded split_graph None 0 split_state 3 PInf).
    + vm_compute. reflexivity.
    + vm_compute. reflexivity.
    + reflexivity.
  - apply (proj2 terminal_step_recorded split_graph [1; 2; 3] 1 None).
    exact split_run.
Defined.

(** No attempt is made on the unreachable node. *)
Lemma not_attempted_3 s : s ∈ split_goal_steps → ¬ attempted 3 s.
Proof.
  intros Hs (l & Hl & Hj & _).
  vm_compute in Hs.
  apply elem_of_cons in Hs as [->|Hs];
    [|apply list_elem_of_singleton in Hs as ->];
    apply list_elem_of_singleton in Hl as ->; vm_compute in Hj; lia.
Defined.

(** Stopping at goal 2 on the graph with an unreachable node 3. *)
Lemma goal_step_last_witness :
  2 = length split_goal_steps ∧
  length split_goal_steps = finalizations split_goal_steps ∧
  finalizations split_goal_steps =
    size (step_closed (step_at split_goal_steps 1)) ∧
  length split_goal_steps < length (G_nodes split_graph) ∧
  step_dist (step_at split_goal_steps 1) !! 3 = Some inf.
Proof.
  destruct (goal_step_last split_graph [1; 2; 3] 1 2 split_goal_steps)
    with 1 (step_at split_goal_steps 1) as (H1 & H2 & H3 & H4 & H5).
  - reflexivity.
  - reflexivity.
  - exact split_goal_run.
  - vm_compute. reflexivity.
  - vm_compute. reflexivity.
  - split_and!; [done..| |].
    + apply H4. exists 3. split; [vm_compute; set_solver|].
      vm_compute. discriminate.
    + apply (H5 3); [vm_compute; set_solver|apply not_attempted_3].
Defined.

(** C7 on the sample run. *)
Lemma distances_monotone_witness :
  (∃ d2, step_dist (step_at sample_steps 1) !! 4 = Some d2 ∧ fle d2 PInf) ∧
  1 ∈ step_closed (step_at sample_steps 3) ∧
  step_dist (step_at sample_steps 3) !! 1 =
    step_dist (step_at sample_steps 0) !! 1.
Proof.
  destruct (distances_monotone sample [1; 2; 3; 4] 1 (Some 4) sample_steps
              sample_run) as [Hstep Hfinal].
  split.
  - apply (Hstep 0 (step_at sample_steps 0)); vm_compute; reflexivity.
  - apply (Hfinal 0 3); [lia|vm_compute; reflexivity..].
Defined.



(** C10: a goal that is no key, a walk into a missing key, and a walk
    that returns the empty list. *)
Lemma reconstruct_path_key_error_witness :
  reconstruct_path 4 sample_prev 1 9 = Raises KeyError ∧
  reconstruct_path 4 broken_prev 1 4 = Raises KeyError ∧
  ∃ l, backward_walk sample_prev 2 4 l AbsentPredecessor ∧
       ∀ x, x ∈ l → is_Some (sample_prev !! x).
Proof.
  split_and!.
  - apply (proj1 (reconstruct_path_key_error sample_prev 1 9));
      [lia|vm_compute; reflexivity].
  - apply (proj1 (proj2 (reconstruct_path_key_error broken_prev 1 4)) 4 [4; 9]).
    + apply bw_step with 9; [lia|vm_compute; reflexivity|].
      apply bw_missing; [lia|vm_compute; reflexivity].
    + simpl. lia.
  - apply (proj2 (proj2 (reconstruct_path_key_error sample_prev 2 4)) 4).
    vm_compute. reflexivity.
Defined.

(** Non-negative weights are needed for the agreement of distances and
    predecessors and for the termination of the path reconstructor: with
    a self-loop of negative weight the selected node becomes its own
    predecessor, its distance no longer agrees with that predecessor, and
    the backward walk from it runs forever. *)
Remark negative_self_loop :
  step_prev (step_at loop_steps 0) !! 1 = Some (Some 1) ∧
  step_dist (step_at loop_steps 0) !! 1 = Some (Fin (-1)) ∧
  G_weight loop_graph 1 1 = Returns (Fin (-1)) ∧
  ∀ fuel, reconstruct_path fuel (step_prev (step_at loop_steps 0)) 2 1 =
            OutOfFuel.
Proof.
  split_and!; [vm_compute; reflexivity..|].
  intros fuel. unfold reconstruct_path.
  cut (∀ acc, reconstruct_loop fuel (step_prev (step_at loop_steps 0)) 2
                (Some 1) acc = OutOfFuel).
  { intros ->. done. }
  induction fuel as [|fuel IH]; intros acc; [done|].
  cbn [reconstruct_loop]. rewrite decide_False by lia.
  assert (getitem (step_prev (step_at loop_steps 0)) 1 = Returns (Some 1))
    as -> by (vm_compute; reflexivity).
  apply IH.
Qed.

(** * Further properties of the engine *)

Section StepShape.
Context `{Countable NodeId} {F : Float}.
Implicit Types (G : @Graph NodeId F) (st : @State NodeId _ _ F)
  (goal : option NodeId) (s : @Step NodeId _ _ F)
  (l r : list (@Step NodeId _ _ F)).

(** The steps recorded so far stay at the front of the result. *)
Lemma dijkstra_loop_prefix G goal fuel st r :
  dijkstra_loop fuel G goal st = Returns r → steps st `prefix_of` r.
Proof.
  revert st. induction fuel as [|fuel IH]; intros st Hr; simpl in Hr.
  - destruct (open_set st); [|done]. by injection Hr as <-.
  - destruct (open_set st); [by injection Hr as <-|].
    apply bind_Returns in Hr as ([c st'] & Hb & Hr).
    destruct (loop_body_steps _ _ _ _ _ Hb) as (s & Hs & _).
    assert (steps st `prefix_of` steps st') by (rewrite Hs; by eexists).
    destruct c.
    + etrans; [done|]. by apply IH.
    + by injection Hr as <-.
Qed.

Lemma numbered_pass G goal st c st' :
  iteration st = length (steps st) → numbered (steps st) →
  loop_body G goal st = Returns (c, st') →
  iteration st' = length (steps st') ∧ numbered (steps st').
Proof.
  intros Hit Hnum Hb.
  assert (iteration st' = S (iteration st) ∧
          ∃ s, steps st' = steps st ++ [s] ∧ step_iter s = S (iteration st))
    as (Hit' & s & Hs & Hi).
  { apply loop_body_spec in Hb
      as (cur & d & _ & _ & [(_ & _ & ->)|(_ & _ & nbrs & logs & _ & _
         & _ & Hit' & _ & Hst)]).
    - split; [done|]. by eexists.
    - split; [done|]. by eexists. }
  split.
  - rewrite Hit', Hs, length_app, Hit. simpl. lia.
  - intros i s' Hi'. rewrite Hs in Hi'.
    apply lookup_app_Some in Hi' as [Hi'|[Hlen Hi']]; [by apply Hnum|].
    apply list_lookup_singleton_Some in Hi' as [Hi' <-]. rewrite Hi, Hit. lia.
Qed.

(** X1. The steps of a run carry the iteration numbers 1, 2, 3, ... in
    order. *)
Theorem steps_numbered G order start goal r :
  dijkstra_steps G order start goal = Returns r →
  ∀ i s, r !! i = Some s → step_iter s = S i.
Proof.
  unfold dijkstra_steps. destruct (G_contains G start); [|done]. intros Hr.
  assert (∃ st', numbered (steps st') ∧ r = steps st')
    as (st' & Hnum & ->); [|done].
  apply (dijkstra_loop_inv
           (λ st, iteration st = length (steps st) ∧ numbered (steps st))
           (λ st, numbered (steps st)) G goal)
    with (length order) (init_state G order start); [| | |done].
  - by intros st [].
  - intros st c st' [Hit Hnum] _ Hb.
    destruct (numbered_pass _ _ _ _ _ Hit Hnum Hb). split; [done|]. by intros.
  - split; [done|]. by intros i s ?.
Qed.

Lemma closed_before_app l s i :
  i ≤ length l → closed_before (l ++ [s]) i = closed_before l i.
Proof.
  intros Hi. destruct i as [|j]; [done|]. simpl.
  by rewrite lookup_app_l by lia.
Qed.

Lemma closed_before_last l st :
  snapshot st → fresh st → l = steps st →
  closed_before l (length l) = closed st.
Proof.
  intros Hsnap Hfresh ->. destruct (steps st) as [|s0 l0] eqn:Hl using rev_ind.
  - simpl. symmetry. by apply Hfresh.
  - clear IHl0. rewrite length_app. simpl.
    replace (length l0 + 1) with (S (length l0)) by lia. simpl.
    rewrite lookup_app_r, Nat.sub_diag by lia. simpl.
    destruct (Hsnap s0) as (-> & _); [|done]. by rewrite Hl, last_snoc.
Qed.

Lemma grows_pass G goal st c st' :
  Wf G st → snapshot st → fresh st → grows G (steps st) →
  loop_body G goal st = Returns (c, st') →
  grows G (steps st').
Proof.
  intros HWf Hsnap Hfresh Hgrow Hb i s u Hi Hu.
  pose proof (closed_before_last (steps st) st Hsnap Hfresh eq_refl) as Hcb.
  apply loop_body_spec in Hb
    as (cur & d & Hmin & _ & [(_ & _ & ->)|(_ & _ & nbrs & logs & _ & _
       & _ & _ & Hcl & Hst)]).
  - cbn [steps] in Hi |- *. apply lookup_app_Some in Hi as [Hi|[Hlen Hi]].
    + rewrite closed_before_app by (apply lookup_lt_Some in Hi; lia).
      by apply Hgrow.
    + by apply list_lookup_singleton_Some in Hi as [Hi <-].
  - rewrite Hst in Hi |- *. apply lookup_app_Some in Hi as [Hi|[Hlen Hi]].
    + rewrite closed_before_app by (apply lookup_lt_Some in Hi; lia).
      by apply Hgrow.
    + apply list_lookup_singleton_Some in Hi as [Hi <-].
      simpl in Hu. injection Hu as <-.
      assert (i = length (steps st)) as -> by lia.
      rewrite closed_before_app, Hcb by lia. simpl.
      apply py_min_elem in Hmin. split_and!.
      * apply (wf_partition _ _ HWf). auto.
      * intros Hc. by apply (wf_disjoint _ _ HWf) in Hc.
      * done.
Qed.

(** X2. Every step that selects a node adds exactly that node to the
    finalized set of the step before it (the empty set for the first
    step); the node is a node of the graph that was not finalized
    before, so no node is selected twice. *)
Theorem finalized_set_grows G order start goal r :
  wf_graph G = true → order ≡ₚ G_nodes G →
  dijkstra_steps G order start goal = Returns r →
  grows G r ∧ NoDup (omap step_selected_node r).
Proof.
  intros Hwf Hperm. unfold dijkstra_steps.
  destruct (G_contains G start) eqn:Hstart; [|done]. intros Hr.
  apply G_contains_spec in Hstart.
  pose (I := λ st : State,
    Wf G st ∧ snapshot st ∧ fresh st ∧ grows G (steps st) ∧
    NoDup (omap step_selected_node (steps st)) ∧
    ∀ u, u ∈ omap step_selected_node (steps st) → u ∈ closed st).
  assert (∃ st', I st' ∧ r = steps st') as (st' & HI & ->).
  { apply (dijkstra_loop_inv I I G goal)
      with (length order) (init_state G order start); [done| | |done].
    - intros st c st' (HWf & Hsnap & Hfresh & Hgrow & Hnd & Hsel) _ Hb.
      cut (I st'); [by auto|]. unfold I. split_and!.
      + by eapply Wf_pass.
      + by eapply snapshot_pass.
      + by eapply fresh_pass.
      + by eapply grows_pass.
      + apply loop_body_spec in Hb
          as (cur & d & Hmin & _ & [(_ & _ & ->)|(_ & _ & nbrs & logs & _ & _
             & _ & _ & Hcl & Hst)]).
        * cbn [steps]. rewrite omap_app. simpl. by rewrite app_nil_r.
        * rewrite Hst, omap_app. simpl. apply NoDup_app. split_and!; [done| |].
          -- intros u Hu%Hsel ->%list_elem_of_singleton.
             apply py_min_elem in Hmin. by apply (wf_disjoint _ _ HWf) in Hu.
          -- apply NoDup_singleton.
      + apply loop_body_spec in Hb
          as (cur & d & Hmin & _ & [(_ & _ & ->)|(_ & _ & nbrs & logs & _ & _
             & _ & _ & Hcl & Hst)]).
        * cbn [steps closed]. rewrite omap_app. simpl. by rewrite app_nil_r.
        * rewrite Hst, Hcl, omap_app. simpl.
          intros u [Hu%Hsel|Hu%list_elem_of_singleton]%elem_of_app; set_solver.
    - unfold I. split_and!; [by apply Wf_init|apply snapshot_init|done| | |].
      + by intros i s u ?.
      + apply NoDup_nil_2.
      + by intros u ?%elem_of_nil. }
  by destruct HI as (_ & _ & _ & ? & ? & _).
Qed.

(** X3. A run records at most as many steps as the graph has nodes. *)
Theorem steps_bounded G order start goal r :
  wf_graph G = true → order ≡ₚ G_nodes G →
  dijkstra_steps G order start goal = Returns r →
  length r ≤ length (G_nodes G).
Proof.
  intros Hwf Hperm. unfold dijkstra_steps.
  destruct (G_contains G start) eqn:Hstart; [|done]. intros Hr.
  apply G_contains_spec in Hstart.
  assert (∃ st', (Wf G st' ∧
            (length (steps st') = finalizations (steps st') ∨
             length (steps st') = S (finalizations (steps st')) ∧
             open_set st' ≠ [])) ∧ r = steps st')
    as (st' & (HWf & Hlen) & ->).
  { apply (dijkstra_loop_inv
             (λ st, Wf G st ∧ length (steps st) = finalizations (steps st))
             _ G goal)
      with (length order) (init_state G order start); [| | |done].
    - intros st [? ?]. auto.
    - intros st c st' [HWf Hlen] Hne Hb.
      assert (Wf G st') as HWf' by by eapply Wf_pass.
      apply loop_body_spec in Hb
        as (cur & d & _ & _ & [(_ & -> & ->)|(_ & _ & nbrs & logs & _ & _
           & _ & _ & _ & Hst)]).
      + split; [|done]. split; [done|]. right. cbn [steps open_set].
        rewrite finalizations_snoc, length_app. simpl. split; [lia|done].
      + assert (length (steps st') = finalizations (steps st')) as Hlen'.
        { rewrite Hst, finalizations_snoc, length_app. simpl. lia. }
        split; [auto|]. by intros.
    - split; [by apply Wf_init|done]. }
  assert (closed st' ⊆ list_to_set (G_nodes G)) as Hsub.
  { intros x Hx. apply elem_of_list_to_set, (wf_partition _ _ HWf). auto. }
  rewrite <- (size_list_to_set (C:=gset NodeId) (G_nodes G))
    by by apply wf_graph_nodes.
  destruct Hlen as [->|[-> Hopen]]; rewrite <- (wf_count _ _ HWf).
  - by apply subseteq_size.
  - apply subset_size. split; [done|].
    destruct (open_set st') as [|n o] eqn:Ho; [done|]. intros Hsup.
    assert (n ∈ closed st') as Hn.
    { apply Hsup, elem_of_list_to_set, (wf_partition _ _ HWf).
      right. rewrite Ho. left. }
    apply (wf_disjoint _ _ HWf) in Hn. apply Hn. rewrite Ho. left.
Qed.

End StepShape.

Section FirstStep.
Context `{Countable NodeId} {F : Float} {FO : FloatOrder F}.
Implicit Types (G : @Graph NodeId F) (st : @State NodeId _ _ F)
  (goal : option NodeId) (s : @Step NodeId _ _ F)
  (l r : list (@Step NodeId _ _ F)).

(** On the initial distances the minimum is [start], wherever it stands
    in the enumeration. *)
Lemma min_from_init (nodes : list NodeId) start best kbest o :
  flt zero inf = true →
  (∀ n, n ∈ o → n ∈ nodes) →
  (best = start ∧ kbest = zero) ∨ (kbest = inf ∧ start ∈ o) →
  min_from (<[start:=zero]> (dict_fromkeys nodes inf)) best kbest o =
    Returns start.
Proof.
  intros Hlt. revert best kbest.
  induction o as [|n o IH]; intros best kbest Hsub Hcase; simpl.
  - destruct Hcase as [[-> _]|[_ ?%elem_of_nil]]; done.
  - destruct (decide (n = start)) as [->|Hne].
    + unfold getitem. rewrite lookup_insert_eq. simpl.
      destruct Hcase as [[-> ->]|[-> _]].
      * rewrite flt_irrefl. apply IH; [set_solver|auto].
      * rewrite Hlt. apply IH; [set_solver|auto].
    + unfold getitem. rewrite lookup_insert_ne by done.
      rewrite lookup_dict_fromkeys, decide_True by set_solver. simpl.
      destruct Hcase as [[-> ->]|[-> Hin]].
      * rewrite inf_top. apply IH; [set_solver|auto].
      * rewrite flt_irrefl. apply IH; [set_solver|]. right. set_solver.
Qed.

Lemma py_min_init (nodes : list NodeId) start o :
  flt zero inf = true →
  (∀ n, n ∈ o → n ∈ nodes) → start ∈ o →
  py_min (<[start:=zero]> (dict_fromkeys nodes inf)) o = Returns start.
Proof.
  intros Hlt Hsub Hin. destruct o as [|n o]; [by apply elem_of_nil in Hin|].
  simpl. destruct (decide (n = start)) as [->|Hne].
  - unfold getitem. rewrite lookup_insert_eq. simpl.
    apply min_from_init; [done|set_solver|auto].
  - unfold getitem. rewrite lookup_insert_ne by done.
    rewrite lookup_dict_fromkeys, decide_True by set_solver. simpl.
    apply min_from_init; [done|set_solver|]. right. set_solver.
Qed.

(** X4. When [0.0 < inf] and [0.0] is not infinite, a run is never
    empty: its first step selects [start], and the finalized set of that
    step is [start] alone. *)
Theorem first_step_start G order start goal r :
  flt zero inf = true → isinf zero = false →
  order ≡ₚ G_nodes G →
  dijkstra_steps G order start goal = Returns r →
  ∃ s, r !! 0 = Some s ∧ step_selected_node s = Some start ∧
       step_closed s = {[start]}.
Proof.
  intros Hlt Hfin Hperm. unfold dijkstra_steps.
  destruct (G_contains G start) eqn:Hstart; [|done]. intros Hr.
  apply G_contains_spec in Hstart.
  assert (start ∈ order) as Hin by by rewrite Hperm.
  destruct (length order) as [|fuel] eqn:Hlen.
  { apply nil_length_inv in Hlen. subst. by apply elem_of_nil in Hin. }
  simpl in Hr. destruct order as [|n o] eqn:Ho;
    [by apply elem_of_nil in Hin|].
  rewrite <- Ho in *. clear Ho.
  apply bind_Returns in Hr as ([c st'] & Hb & Hr).
  assert (steps st' `prefix_of` r) as [k ->].
  { destruct c; [by eapply dijkstra_loop_prefix|]. injection Hr as <-. done. }
  apply loop_body_spec in Hb as (cur & d & Hmin & Hd & Hcase).
  simpl in Hmin, Hd.
  rewrite py_min_init in Hmin; [|done|by intros ?; rewrite Hperm|done].
  injection Hmin as <-. rewrite lookup_insert_eq in Hd. injection Hd as <-.
  destruct Hcase as [(Hinf & _)|(_ & _ & nbrs & logs & _ & _ & _ & _ & Hcl & Hst)];
    [congruence|].
  simpl in Hst, Hcl. rewrite Hst. eexists. split; [done|]. simpl.
  split; [done|]. rewrite Hcl. set_solver.
Qed.

End FirstStep.

(** ** The tables between passes *)

Section TablesFacts.
Context `{Countable NodeId} {F : Float} {FO : FloatOrder F}.
Implicit Types (G : @Graph NodeId F) (st : @State NodeId _ _ F)
  (goal : option NodeId) (s : @Step NodeId _ _ F)
  (r : list (@Step NodeId _ _ F)).

(** A pass that finalizes a node found its distance finite. *)
Lemma loop_body_finite G goal st c st' cur d :
  loop_body G goal st = Returns (c, st') →
  py_min (dist st) (open_set st) = Returns cur →
  dist st !! cur = Some d →
  closed st' ≠ closed st → isinf d = false.
Proof.
  intros (cur' & d' & Hmin & Hd & Hcase)%loop_body_spec Hmin' Hd' Hne.
  assert (cur' = cur) as -> by congruence.
  assert (d' = d) as -> by congruence.
  destruct Hcase as [(_ & _ & ->)|(? & _)]; done.
Qed.

Lemma Tables_init G order start :
  start ∈ G_nodes G →
  Tables G start ∅ (dist (init_state G order start))
    (prev (init_state G order start)).
Proof.
  intros Hs. split; simpl.
  - rewrite lookup_insert_eq, lookup_dict_fromkeys.
    by rewrite decide_True.
  - intros n d. destruct (decide (n = start)) as [->|Hne].
    + rewrite lookup_insert_eq. intros [= <-]. apply fle_refl.
    + rewrite lookup_insert_ne, lookup_dict_fromkeys by done.
      case_decide; [|done]. intros [= <-]. apply fle_inf.
  - intros n. rewrite lookup_dict_fromkeys. case_decide; [|done]. intros _.
    destruct (decide (n = start)) as [->|Hne]; [by left|right].
    rewrite lookup_insert_ne, lookup_dict_fromkeys by done.
    by rewrite decide_True.
  - intros n p. rewrite lookup_dict_fromkeys. by case_decide.
  - set_solver.
  - set_solver.
Qed.

Lemma Tables_pass G start goal st c st' :
  nonneg_weights G = true → Wf G st →
  Tables G start (closed st) (dist st) (prev st) →
  loop_body G goal st = Returns (c, st') →
  Tables G start (closed st') (dist st') (prev st').
Proof.
  intros Hnn HWf HT Hb.
  destruct (loop_body_relax _ _ _ _ _ Hnn Hb)
    as [(-> & -> & ->)|(cur & perm & nbrs & Hmin & Hperm & Hn & Hcl
        & Hcur & Hall)]; [done|].
  assert (cur ∈ open_set st) as Hopen by by eapply py_min_elem.
  assert (cur ∉ closed st) as Hnc.
  { intros ?%(wf_disjoint _ _ HWf). done. }
  assert (fle zero perm) as Hp0 by by eapply (t_nonneg _ _ _ _ _ HT).
  assert (∀ x w, G_weight G cur x = Returns w → fle perm (fadd perm w)) as Hup.
  { intros x w Hw. apply fadd_nonneg. by eapply nonneg_weights_edge. }
  assert (∀ u, u ∈ closed st → dist st' !! u = dist st !! u) as Hfix.
  { intros u Hu. by destruct (Hall u) as [(_ & ? & _)|(-> & _)]. }
  destruct HT as [[Hs0 Hsp] Hnneg Hroot Htree Hsorted Hfinite].
  split.
  - destruct (Hall start) as [(_ & _ & _ & w & old & Hw & Hold & Hlt & _)
                             |(-> & -> & _)]; [|done].
    assert (old = zero) as -> by congruence.
    assert (fle zero (fadd perm w)) as Hle
      by (eapply fle_trans; [done|by eapply Hup]).
    unfold fle in Hle. congruence.
  - intros n d Hd.
    destruct (Hall n) as [(_ & _ & _ & w & old & Hw & _ & _ & Hnew & _)
                         |(Hsame & _)].
    + assert (d = fadd perm w) as -> by congruence.
      eapply fle_trans; [done|by eapply Hup].
    + rewrite Hsame in Hd. eauto.
  - intros n Hp.
    destruct (Hall n) as [(_ & _ & _ & w & old & _ & _ & _ & _ & Hnew)
                         |(Hsame & Hpsame & _)]; [congruence|].
    rewrite Hpsame in Hp. rewrite Hsame. auto.
  - by eapply consistent_pass.
  - intros u v du dv Hu Hv Hdu Hdv. rewrite Hcl in Hu, Hv.
    apply not_elem_of_union in Hv as [Hvn%not_elem_of_singleton Hvc].
    assert (fle perm dv) as Hpv.
    { destruct (Hall v) as [(_ & _ & _ & w & old & Hw & _ & _ & Hnew & _)
                           |(Hsame & _)].
      - assert (dv = fadd perm w) as -> by congruence. by eapply Hup.
      - rewrite Hsame in Hdv.
        destruct (py_min_min _ _ _ Hmin) as (dm & Hdm & Hmin').
        assert (dm = perm) as -> by congruence.
        apply (Hmin' v); [|done].
        assert (v ∈ G_nodes G) as Hvg.
        { apply (elem_of_list_to_set (C:=gset NodeId)).
          rewrite <- (wf_dom_dist _ _ HWf). by apply elem_of_dom. }
        apply (wf_partition _ _ HWf) in Hvg as [?|?]; done. }
    apply elem_of_union in Hu as [->%elem_of_singleton|Hu].
    + by assert (du = perm) as -> by congruence.
    + rewrite (Hfix _ Hu) in Hdu. eapply fle_trans; [|done].
      by eapply (Hsorted u cur).
  - intros u d Hu Hd. rewrite Hcl in Hu.
    apply elem_of_union in Hu as [->%elem_of_singleton|Hu].
    + assert (d = perm) as -> by congruence.
      eapply loop_body_finite; [done..|]. rewrite Hcl. set_solver.
    + rewrite (Hfix _ Hu) in Hd. eauto.
Qed.

(** The selected node is at least as far as every finalized node. *)
Lemma order_pass G start goal st c st' s :
  nonneg_weights G = true → Wf G st →
  Tables G start (closed st) (dist st) (prev st) →
  loop_body G goal st = Returns (c, st') →
  steps st' = steps st ++ [s] →
  ∀ u v du dv,
    step_selected_node s = Some u → v ∈ step_closed s →
    step_dist s !! u = Some du → step_dist s !! v = Some dv →
    fle dv du.
Proof.
  intros Hnn HWf HT Hb Hs u v du dv Hu Hv Hdu Hdv.
  pose proof Hb as Hb'.
  apply loop_body_spec in Hb'
    as (cur & d & Hmin & Hd & [(_ & _ & ->)|(_ & _ & nbrs & logs & _ & _
       & _ & _ & Hcl & Hst)]).
  { simpl in Hs. apply app_inv_head in Hs as [= <-]. done. }
  rewrite Hst in Hs. apply app_inv_head in Hs as [= <-]. simpl in *.
  injection Hu as <-.
  destruct (loop_body_relax _ _ _ _ _ Hnn Hb)
    as [(Hc & _)|(cur' & perm & nbrs' & Hmin' & Hperm & Hn & _
        & Hcur & Hall)].
  { apply py_min_elem in Hmin. rewrite Hcl in Hc.
    assert (cur ∈ closed st) as ?%(wf_disjoint _ _ HWf) by set_solver. done. }
  assert (cur' = cur) as -> by congruence.
  assert (du = perm) as -> by congruence.
  rewrite Hcl in Hv. apply elem_of_union in Hv as [->%elem_of_singleton|Hv].
  - assert (dv = perm) as -> by congruence. apply fle_refl.
  - assert (dist st' !! v = dist st !! v) as Hsame.
    { by destruct (Hall v) as [(_ & ? & _)|(-> & _)]. }
    rewrite Hsame in Hdv. eapply (t_sorted _ _ _ _ _ HT v cur); [done| |done..].
    apply py_min_elem in Hmin. intros ?%(wf_disjoint _ _ HWf). done.
Qed.

(** Every step of a run on a graph with non-negative weights is sound. *)
Lemma run_sound G order start goal r :
  wf_graph G = true → nonneg_weights G = true → order ≡ₚ G_nodes G →
  dijkstra_steps G order start goal = Returns r →
  Forall (sound_step G start) r.
Proof.
  intros Hwf Hnn Hperm. unfold dijkstra_steps.
  destruct (G_contains G start) eqn:Hstart; [|done]. intros Hr.
  apply G_contains_spec in Hstart.
  apply (dijkstra_loop_steps
           (λ st, Wf G st ∧ Dijkstra G start st ∧
                  Tables G start (closed st) (dist st) (prev st) ∧
                  ∃ rank, ranked (closed st) (prev st) rank) _ G goal)
    with (length order) (init_state G order start); [| |done|done].
  - intros st c st' s (HWf & HD & HT & [rank Hrk]) _ Hb Hs.
    assert (Wf G st') as HWf' by by eapply Wf_pass.
    assert (Dijkstra G start st') as HD'
      by by apply (Dijkstra_pass G start goal st c st').
    assert (Tables G start (closed st') (dist st') (prev st')) as HT'
      by by apply (Tables_pass G start goal st c st').
    destruct (ranked_pass _ _ _ _ _ _ Hnn HWf Hrk Hb) as [rank' Hrk'].
    split; [|by eauto 10].
    pose proof (order_pass _ _ _ _ _ _ _ Hnn HWf HT Hb Hs) as Hord.
    destruct (loop_body_steps _ _ _ _ _ Hb) as (s' & Hs' & Hc & Hd & Hp).
    rewrite Hs in Hs'. apply app_inv_head in Hs' as [= <-].
    split; [by rewrite Hc, Hd, Hp|rewrite Hd; apply HWf'
           |rewrite Hp; apply HWf'|rewrite Hc|rewrite Hc, Hp
           |rewrite Hc, Hd|exact Hord].
    + intros n Hn. apply (wf_partition _ _ HWf'). auto.
    + exists rank'. split; [done|]. intros n Hn.
      destruct Hrk' as (Hr1 & Hr2 & _).
      assert (closed st' ⊆ list_to_set (G_nodes G)) as Hsub.
      { intros x Hx. apply elem_of_list_to_set, (wf_partition _ _ HWf'). auto. }
      rewrite <- (size_list_to_set (C:=gset NodeId) (G_nodes G))
        by by apply wf_graph_nodes.
      destruct (decide (n ∈ closed st')) as [Hcn|Hcn].
      * specialize (Hr1 _ Hcn). apply subseteq_size in Hsub. lia.
      * rewrite (Hr2 _ Hcn). apply subset_size. split; [done|].
        intros Hsup. apply Hcn, Hsup. by apply elem_of_list_to_set.
    + intros u d Hu Hdu. split.
      * intros vs c' Hpath. by eapply (dj_closed _ _ _ HD').
      * destruct (dj_path _ _ _ HD' _ _ Hdu) as [->|(vs & Hpath & Hnd & _)];
          [by left|right; eauto].
  - split_and!; [by apply Wf_init|apply Dijkstra_init|by apply Tables_init|].
    exists (λ _, 0). split_and!.
    + intros n. simpl. set_solver.
    + intros n _. symmetry. apply (size_empty (C:=gset NodeId)).
    + intros n p. simpl. rewrite lookup_dict_fromkeys. by case_decide.
Qed.

End TablesFacts.

(** ** Consequences for the recorded steps *)

Section SoundSteps.
Context `{Countable NodeId} {F : Float} {FO : FloatOrder F}.
Implicit Types (G : @Graph NodeId F) (s : @Step NodeId _ _ F)
  (r : list (@Step NodeId _ _ F))
  (dist : gmap NodeId float) (prev : gmap NodeId (option NodeId)).

(** X5. Nodes are finalized in order of non-decreasing distance: the
    node a step selects is at least as far from [start] as every node
    of that step's finalized set. *)
Theorem finalization_order G order start goal r :
  wf_graph G = true → nonneg_weights G = true → order ≡ₚ G_nodes G →
  dijkstra_steps G order start goal = Returns r →
  ∀ s u v du dv,
    s ∈ r → step_selected_node s = Some u → v ∈ step_closed s →
    step_dist s !! u = Some du → step_dist s !! v = Some dv →
    fle dv du.
Proof.
  intros Hwf Hnn Hperm Hr s u v du dv Hs.
  pose proof (run_sound _ _ _ _ _ Hwf Hnn Hperm Hr) as Hall.
  rewrite Forall_forall in Hall. apply (ss_order _ _ _ (Hall s Hs)).
Qed.

(** X6. In every step [start] is at distance [0.0] and has no
    predecessor. *)
Theorem start_fixed G order start goal r :
  wf_graph G = true → nonneg_weights G = true → order ≡ₚ G_nodes G →
  dijkstra_steps G order start goal = Returns r →
  ∀ s, s ∈ r →
    step_dist s !! start = Some zero ∧ step_prev s !! start = Some None.
Proof.
  intros Hwf Hnn Hperm Hr s Hs.
  pose proof (run_sound _ _ _ _ _ Hwf Hnn Hperm Hr) as Hall.
  rewrite Forall_forall in Hall.
  apply (t_start _ _ _ _ _ (ss_tables _ _ _ (Hall s Hs))).
Qed.

Lemma sound_step_dist G start s n :
  sound_step G start s → n ∈ G_nodes G → is_Some (step_dist s !! n).
Proof.
  intros Hs Hn. apply elem_of_dom. rewrite (ss_dom_dist _ _ _ Hs).
  by apply elem_of_list_to_set.
Qed.

(** X7. When [inf] is infinite, only nodes reachable from [start] are
    ever finalized: every finalized node has a finite distance, the cost
    of a walk from [start] without repeated nodes. *)
Theorem finalized_reachable G order start goal r :
  isinf inf = true →
  wf_graph G = true → nonneg_weights G = true → order ≡ₚ G_nodes G →
  dijkstra_steps G order start goal = Returns r →
  ∀ s n, s ∈ r → n ∈ step_closed s →
    ∃ d vs, step_dist s !! n = Some d ∧ isinf d = false ∧
            path G start (n :: vs) d ∧ NoDup (n :: vs).
Proof.
  intros Hinf Hwf Hnn Hperm Hr s n Hs Hn.
  pose proof (run_sound _ _ _ _ _ Hwf Hnn Hperm Hr) as Hall.
  rewrite Forall_forall in Hall. specialize (Hall s Hs).
  destruct (sound_step_dist G start s n Hall) as [d Hd];
    [by apply (ss_closed _ _ _ Hall)|].
  pose proof (t_finite _ _ _ _ _ (ss_tables _ _ _ Hall) n d Hn Hd) as Hfin.
  destruct (ss_short _ _ _ Hall n d Hn Hd) as [_ [->|(vs & Hp & Hnd)]];
    [congruence|].
  by exists d, vs.
Qed.

Lemma backward_walk_head prev start n l e :
  backward_walk prev start n l e → head l = Some n.
Proof. by destruct 1. Qed.

(** Following the predecessors of a node leads to [start] along a walk
    of the graph whose cost is the distance of the node, unless that
    distance is [inf]. *)
Lemma tables_walk G start closed dist prev rank :
  nonneg_weights G = true →
  Tables G start closed dist prev → ranked closed prev rank →
  dom prev = dom dist →
  ∀ k n d, rank n < k → dist !! n = Some d →
    ∃ l e, backward_walk prev start n l e ∧
           length l ≤ S (rank n) ∧ NoDup l ∧
           (∀ x, x ∈ l → rank x ≤ rank n) ∧
           match e with
           | ReachedStart => path G start l d
           | AbsentPredecessor => d = inf ∧ n ≠ start
           | MissingKey => False
           end.
Proof.
  intros Hnn HT (_ & _ & Hrk) Hdom.
  induction k as [|k IH]; intros n d Hlt Hd; [lia|].
  destruct (decide (n = start)) as [->|Hne].
  { exists [start], ReachedStart.
    destruct (t_start _ _ _ _ _ HT) as [Hs _].
    assert (d = zero) as -> by congruence.
    split_and!; [constructor|simpl; lia|apply NoDup_singleton| |constructor].
    by intros x ->%list_elem_of_singleton. }
  assert (is_Some (prev !! n)) as [[p|] Hp].
  { apply elem_of_dom. rewrite Hdom. by apply elem_of_dom. }
  - destruct (t_tree _ _ _ _ _ HT n p Hp)
      as (Hpc & dn & dp & w & Hdn & Hdp & Hw & ->).
    assert (d = fadd dp w) as -> by congruence.
    destruct (Hrk _ _ Hp) as [_ Hlt'].
    destruct (IH p dp) as (l & e & Hwalk & Hlen & Hnd & Hle & He); [lia|done|].
    exists (n :: l), e. split_and!.
    + by apply bw_step with p.
    + simpl. lia.
    + apply NoDup_cons. split; [|done]. intros Hin%Hle. lia.
    + intros x [->|Hx%Hle]%elem_of_cons; lia.
    + destruct e; [| |done].
      * pose proof (backward_walk_head _ _ _ _ _ Hwalk) as Hh.
        destruct l as [|p' vs]; [done|]. injection Hh as ->.
        by econstructor.
      * destruct He as [-> _]. split; [|done].
        apply fle_inf_eq, fadd_nonneg. by eapply nonneg_weights_edge.
  - exists [n], AbsentPredecessor.
    split_and!; [by apply bw_absent|simpl; lia|apply NoDup_singleton| | |done].
    + by intros x ->%list_elem_of_singleton.
    + destruct (t_root _ _ _ _ _ HT n Hp) as [?|Hinf]; [done|congruence].
Qed.

(** A value below some value is below [inf]. *)
Lemma flt_below_inf a b : flt a b = true → flt a inf = true.
Proof.
  intros Hab. destruct (fle_cases b inf (fle_inf b)) as [->|Hb]; [done|].
  by eapply flt_trans.
Qed.

(** Only an improvement gives a node a predecessor, and it leaves the
    node at a distance below [inf]. *)
Lemma relax_loop_below G closed cur nbrs dist prev dist' prev' logs :
  (∀ n p, prev !! n = Some (Some p) →
     ∃ d, dist !! n = Some d ∧ flt d inf = true) →
  for_each nbrs (relax_nbr G closed cur) (dist, prev, []) =
    Returns (dist', prev', logs) →
  ∀ n p, prev' !! n = Some (Some p) →
    ∃ d, dist' !! n = Some d ∧ flt d inf = true.
Proof.
  intros Hinit Hr.
  apply (for_each_inv (λ (_ : list NodeId) '(d, p, _),
    ∀ n q, p !! n = Some (Some q) →
      ∃ dn, d !! n = Some dn ∧ flt dn inf = true) _ _ _ _) in Hr;
    [done|done|].
  intros done nbr [[d p] ls] [[d2 p2] ls2] Hinv _ Hb.
  apply relax_nbr_spec in Hb
    as (w & perm & l & Hw & Hperm & -> & Hj & Hlog & _ & Hcase).
  destruct Hcase as [(Hc & -> & ->)
    |(Hc & old & Hold & [(Hlt & -> & ->)|(_ & -> & ->)])]; [done| |done].
  intros n q. destruct (decide (n = nbr)) as [->|Hne].
  - rewrite !lookup_insert_eq. intros _. eexists. split; [done|].
    by eapply flt_below_inf.
  - rewrite !lookup_insert_ne by done. apply Hinv.
Qed.

Lemma improved_below_inf G order start goal r :
  dijkstra_steps G order start goal = Returns r →
  ∀ s n p, s ∈ r → step_prev s !! n = Some (Some p) →
    ∃ d, step_dist s !! n = Some d ∧ flt d inf = true.
Proof.
  unfold dijkstra_steps. destruct (G_contains G start); [|done]. intros Hr.
  cut (Forall (λ s, ∀ n p, step_prev s !! n = Some (Some p) →
         ∃ d, step_dist s !! n = Some d ∧ flt d inf = true) r).
  { rewrite Forall_forall. eauto. }
  apply (dijkstra_loop_steps
           (λ st, ∀ n p, prev st !! n = Some (Some p) →
              ∃ d, dist st !! n = Some d ∧ flt d inf = true) _ G goal)
    with (length order) (init_state G order start); [| |done|done].
  - intros st c st' s HJ _ Hb Hs.
    assert (∀ n p, prev st' !! n = Some (Some p) →
              ∃ d, dist st' !! n = Some d ∧ flt d inf = true) as HJ'.
    { apply loop_body_spec in Hb
        as (cur & d & _ & _ & [(_ & _ & ->)|(_ & _ & nbrs & logs & _ & Hrel
           & _)]); [done|].
      by eapply relax_loop_below. }
    split; [|done].
    destruct (loop_body_steps _ _ _ _ _ Hb) as (s' & Hs' & _ & Hd & Hp).
    rewrite Hs in Hs'. apply app_inv_head in Hs' as [= <-].
    by rewrite Hd, Hp.
  - intros n p. simpl. rewrite lookup_dict_fromkeys. by case_decide.
Qed.

(** X8. On the predecessor map of any step, [reconstruct_path] to a node
    whose recorded distance is not [inf] returns a walk of the graph
    from [start] to that node, without repeated nodes, whose cost is
    that recorded distance; to a node other than [start] whose recorded
    distance is [inf] it returns the empty list. *)
Theorem reconstructed_path_cost G order start goal r :
  wf_graph G = true → nonneg_weights G = true → order ≡ₚ G_nodes G →
  dijkstra_steps G order start goal = Returns r →
  ∀ s g d fuel,
    s ∈ r → step_dist s !! g = Some d → length (G_nodes G) ≤ fuel →
    (d ≠ inf →
     ∃ p, reconstruct_path fuel (step_prev s) start g = Returns p ∧
          head p = Some start ∧ last p = Some g ∧ NoDup p ∧
          path G start (reverse p) d) ∧
    (d = inf → g ≠ start →
     reconstruct_path fuel (step_prev s) start g = Returns []).
Proof.
  intros Hwf Hnn Hperm Hr s g d fuel Hs Hd Hfuel.
  pose proof (run_sound _ _ _ _ _ Hwf Hnn Hperm Hr) as Hall.
  rewrite Forall_forall in Hall. specialize (Hall s Hs).
  destruct (ss_rank _ _ _ Hall) as (rank & Hrk & Hbound).
  assert (g ∈ G_nodes G) as Hg.
  { apply (elem_of_list_to_set (C:=gset NodeId)).
    rewrite <- (ss_dom_dist _ _ _ Hall). by apply elem_of_dom. }
  split.
  - intros Hfin.
    destruct (tables_walk G start _ _ _ rank Hnn (ss_tables _ _ _ Hall) Hrk)
      with (S (rank g)) g d as (l & e & Hwalk & Hlen & Hnd & _ & He);
      [by rewrite (ss_dom_prev _ _ _ Hall), (ss_dom_dist _ _ _ Hall)
      |lia|done|].
    specialize (Hbound _ Hg).
    rewrite (reconstruct_path_walk _ _ _ _ _ _ Hwalk) by lia.
    destruct e; [|by destruct He|done].
    exists (reverse l). split_and!.
    + done.
    + rewrite head_reverse.
      by destruct (backward_walk_last _ _ _ _ _ Hwalk) as (m & -> & ->).
    + rewrite last_reverse. by eapply backward_walk_head.
    + by rewrite reverse_Permutation.
    + by rewrite reverse_involutive.
  - intros -> Hne.
    assert (step_prev s !! g = Some None) as Hp.
    { assert (is_Some (step_prev s !! g)) as [[p|] Hp]; [|exfalso|done].
      { apply elem_of_dom. rewrite (ss_dom_prev _ _ _ Hall).
        by apply elem_of_list_to_set. }
      destruct (improved_below_inf _ _ _ _ _ Hr s g p Hs Hp) as (d & Hd' & Hlt).
      assert (d = inf) as -> by congruence.
      by rewrite flt_irrefl in Hlt. }
    apply (reconstruct_path_walk _ _ _ [g] AbsentPredecessor).
    + by apply bw_absent.
    + simpl. specialize (Hbound _ Hg). lia.
Qed.

End SoundSteps.

(** ** How a run ends *)

Section RunEnds.
Context `{Countable NodeId} {F : Float} {FO : FloatOrder F}.
Implicit Types (G : @Graph NodeId F) (st : @State NodeId _ _ F)
  (goal : option NodeId) (s : @Step NodeId _ _ F)
  (r : list (@Step NodeId _ _ F)).

(** The loop returns the steps of a state with an empty open set,
    reached by passes that went round again, or the steps at a [break]
    after such passes. *)
Lemma dijkstra_loop_end (J : State → Prop) G goal :
  (∀ st st', J st → open_set st ≠ [] →
     loop_body G goal st = Returns (Continue, st') → J st') →
  ∀ fuel st r, J st → dijkstra_loop fuel G goal st = Returns r →
    ∃ st1, J st1 ∧
      ((open_set st1 = [] ∧ r = steps st1) ∨
       (open_set st1 ≠ [] ∧
        ∃ st2, loop_body G goal st1 = Returns (Break, st2) ∧ r = steps st2)).
Proof.
  intros Hpass. induction fuel as [|fuel IH]; intros st r HJ Hr.
  - simpl in Hr. destruct (open_set st) eqn:Ho; [|done].
    injection Hr as <-. eauto.
  - simpl in Hr. destruct (open_set st) eqn:Ho.
    { injection Hr as <-. eauto. }
    apply bind_Returns in Hr as ([c st'] & Hb & Hr). destruct c.
    + apply (IH st'); [|done]. apply (Hpass st); [done|by rewrite Ho|done].
    + injection Hr as <-. exists st. split; [done|]. right.
      split; [by rewrite Ho|eauto].
Qed.

(** X10. Without a goal, and when a non-negative number is infinite only
    if it is [inf], a run ends in one of two ways: its last step has
    every node of the graph in its finalized set, or its last step is a
    terminal step in which every node not finalized is at distance
    [inf]. *)
Theorem run_exhausts G order start r :
  (∀ d, fle zero d → isinf d = true → d = inf) →
  wf_graph G = true → nonneg_weights G = true → order ≡ₚ G_nodes G →
  dijkstra_steps G order start None = Returns r →
  ∃ s, last r = Some s ∧
    ((∀ n, n ∈ G_nodes G → n ∈ step_closed s) ∨
     (step_selected_node s = None ∧
      ∀ n, n ∈ G_nodes G → n ∉ step_closed s →
           step_dist s !! n = Some inf)).
Proof.
  intros Hisinf Hwf Hnn Hperm. unfold dijkstra_steps.
  destruct (G_contains G start) eqn:Hstart; [|done]. intros Hr.
  apply G_contains_spec in Hstart.
  destruct (dijkstra_loop_end
              (λ st, Wf G st ∧ snapshot st ∧
                     Tables G start (closed st) (dist st) (prev st) ∧
                     (steps st = [] → open_set st ≠ []))
              G None) with (length order) (init_state G order start) r
    as (st1 & (HWf & Hsnap & HT & Hne) & Hend).
  - intros st st' (HWf & Hsnap & HT & _) _ Hb. split_and!.
    + by eapply Wf_pass.
    + by eapply snapshot_pass.
    + by apply (Tables_pass G start None st Continue st').
    + destruct (loop_body_steps _ _ _ _ _ Hb) as (s & -> & _).
      by intros [_ ?]%app_nil.
  - split_and!; [by apply Wf_init|apply snapshot_init|by apply Tables_init|].
    intros _. simpl. intros ->. rewrite <- Hperm in Hstart.
    by apply elem_of_nil in Hstart.
  - done.
  - destruct Hend as [[Ho ->]|(Ho & st2 & Hb & ->)].
    + destruct (last (steps st1)) as [s|] eqn:Hl.
      2:{ apply last_None in Hl. by apply Hne in Hl. }
      exists s. split; [done|]. left. intros n Hn.
      destruct (Hsnap _ Hl) as (-> & _).
      apply (wf_partition _ _ HWf) in Hn as [?|Hn]; [done|].
      rewrite Ho in Hn. by apply elem_of_nil in Hn.
    + apply loop_body_spec in Hb
        as (cur & d & Hmin & Hd & [(Hinf & _ & ->)|(_ & Hc & _)]).
      2:{ by case_decide. }
      exists (terminal_step st1). cbn [steps]. rewrite last_snoc.
      split; [done|]. right. split; [done|]. simpl. intros n Hn Hnc.
      apply (wf_partition _ _ HWf) in Hn as [?|Hn]; [done|].
      assert (is_Some (dist st1 !! n)) as [dn Hdn].
      { apply elem_of_dom. rewrite (wf_dom_dist _ _ HWf).
        apply elem_of_list_to_set, (wf_partition _ _ HWf). auto. }
      destruct (py_min_min _ _ _ Hmin) as (dm & Hdm & Hleast).
      assert (dm = d) as -> by congruence.
      assert (d = inf) as ->.
      { apply Hisinf; [|done]. by eapply (t_nonneg _ _ _ _ _ HT). }
      rewrite Hdn. f_equal. apply fle_inf_eq. by eapply Hleast.
Qed.

End RunEnds.

(** ** More about the path reconstructor *)

Section ReconstructShape.
Context `{Countable NodeId}.
Implicit Types (prev : gmap NodeId (option NodeId)) (start goal n : NodeId)
  (l p acc : list NodeId).

(** A node is followed, in a backward walk, by its predecessor. *)
Lemma backward_walk_links prev start n l e k1 a b k2 :
  backward_walk prev start n l e → l = k1 ++ a :: b :: k2 →
  prev !! a = Some (Some b).
Proof.
  intros Hw. revert k1.
  induction Hw as [|n Hne Hp|n Hne Hp|n p l e Hne Hp Hw IH]; intros k1 Hl.
  - by destruct k1 as [|? [|? ?]].
  - by destruct k1 as [|? [|? ?]].
  - by destruct k1 as [|? [|? ?]].
  - destruct k1 as [|x k1]; simpl in Hl.
    + injection Hl as -> Hl.
      apply backward_walk_head in Hw. rewrite Hl in Hw. simpl in Hw.
      by injection Hw as <-.
    + injection Hl as -> Hl. by eapply IH.
Qed.

(** The walk from a node is determined by the node. *)
Lemma backward_walk_det prev start n l e l' e' :
  backward_walk prev start n l e → backward_walk prev start n l' e' →
  l = l' ∧ e = e'.
Proof.
  intros Hw. revert l' e'.
  induction Hw as [|n Hne Hp|n Hne Hp|n p l e Hne Hp Hw IH];
    intros l' e' Hw'; inversion Hw'; simplify_eq; try done.
  match goal with Hx : backward_walk _ _ _ _ _ |- _ =>
    destruct (IH _ _ Hx) as [-> ->] end. done.
Qed.

(** From every node of a walk the rest of the walk is the walk from
    that node. *)
Lemma backward_walk_suffix prev start n l e x :
  backward_walk prev start n l e → x ∈ l →
  ∃ l', backward_walk prev start x l' e ∧ length l' ≤ length l.
Proof.
  induction 1 as [|n Hne Hp|n Hne Hp|n p l e Hne Hp Hw IH]; intros Hx.
  - apply list_elem_of_singleton in Hx as ->. exists [start].
    split; [constructor|done].
  - apply list_elem_of_singleton in Hx as ->. exists [n].
    split; [by constructor|done].
  - apply list_elem_of_singleton in Hx as ->. exists [n].
    split; [by constructor|done].
  - apply elem_of_cons in Hx as [->|Hx].
    + exists (n :: l). split; [by apply bw_step with p|done].
    + destruct (IH Hx) as (l' & Hw' & Hlen). exists l'.
      split; [done|]. simpl. lia.
Qed.

(** A walk that ends visits no node twice. *)
Lemma backward_walk_NoDup prev start n l e :
  backward_walk prev start n l e → NoDup l.
Proof.
  induction 1 as [|n Hne Hp|n Hne Hp|n p l e Hne Hp Hw IH];
    try apply NoDup_singleton.
  apply NoDup_cons. split; [|done]. intros Hin.
  destruct (backward_walk_suffix _ _ _ _ _ _ Hw Hin) as (l' & Hw' & Hlen).
  assert (backward_walk prev start n (n :: l) e) as Hfull
    by by apply bw_step with p.
  destruct (backward_walk_det _ _ _ _ _ _ _ Hw' Hfull) as [-> _].
  simpl in Hlen. lia.
Qed.

(** X11. Whatever the predecessor map, a non-empty result of
    [reconstruct_path] begins with [start], ends with [goal], visits no
    node twice, and each of its nodes is the recorded predecessor of the
    node after it. *)
Theorem reconstruct_path_shape prev start goal fuel p :
  reconstruct_path fuel prev start goal = Returns p → p ≠ [] →
  head p = Some start ∧ last p = Some goal ∧ NoDup p ∧
  ∀ p1 a b p2, p = p1 ++ a :: b :: p2 → prev !! b = Some (Some a).
Proof.
  unfold reconstruct_path. intros Hr Hne.
  pose proof (reconstruct_loop_inv prev start goal fuel []) as Hinv.
  destruct (reconstruct_loop fuel prev start (Some goal) []) as [l| |];
    simpl in Hr; [|done..].
  destruct Hinv as (l' & e & Hw & He & ->). simpl in Hr.
  case_bool_decide as Hd; [by injection Hr as <-|]. injection Hr as <-.
  split_and!.
  - rewrite head_reverse. destruct (last l') as [m|] eqn:Hl.
    + destruct (decide (m = start)) as [->|?]; [done|].
      exfalso. apply Hd. right. congruence.
    + exfalso. apply Hd. right. congruence.
  - rewrite last_reverse. by eapply backward_walk_head.
  - rewrite reverse_Permutation. by eapply backward_walk_NoDup.
  - intros p1 a b p2 Hp. apply (f_equal reverse) in Hp.
    rewrite reverse_involutive, reverse_app, !reverse_cons in Hp.
    rewrite <- !app_assoc in Hp. simpl in Hp.
    by eapply backward_walk_links.
Qed.

(** X12. [reconstruct_path] has no guard against cycles: when the walk
    from [goal] stays inside a set of nodes that all have a predecessor
    in the set and [start] is not among them, no amount of fuel makes it
    return. *)
Theorem reconstruct_path_diverges prev start goal (C : NodeId → Prop) :
  C goal → ¬ C start →
  (∀ n, C n → ∃ m, prev !! n = Some (Some m) ∧ C m) →
  ∀ fuel, reconstruct_path fuel prev start goal = OutOfFuel.
Proof.
  intros Hg Hs Hstep fuel. unfold reconstruct_path.
  cut (∀ n acc, C n →
         reconstruct_loop fuel prev start (Some n) acc = OutOfFuel).
  { intros Hcut. by rewrite Hcut. }
  induction fuel as [|fuel IH]; intros n acc Hn; [done|].
  cbn [reconstruct_loop]. rewrite decide_False by (by intros ->).
  destruct (Hstep n Hn) as (m & Hp & Hcp).
  apply getitem_Returns in Hp. rewrite Hp. simpl. by apply IH.
Qed.

End ReconstructShape.

(** ** What [draw_step] draws *)

Section Drawing.
Context `{Countable NodeId} {F : Float} {FO : FloatOrder F}.
Implicit Types (G : @Graph NodeId F) (s : @Step NodeId _ _ F)
  (prev : gmap NodeId (option NodeId)) (start goal n : NodeId).

Lemma hops_cons n p l : hops (n :: p :: l) = (p, n) :: hops (p :: l).
Proof. done. Qed.

(** The loop of [draw_step] follows the loop of [reconstruct_path]. *)
Lemma path_edges_reconstruct prev start fuel n acc es :
  match reconstruct_loop fuel prev start (Some n) acc with
  | Returns l =>
      ∃ l', l = acc ++ l' ∧ head l' = Some n ∧
            path_edges_loop fuel prev start n es =
              Returns (bool_decide (last l' = Some start), es ++ hops l')
  | Raises _ =>
      ∃ es', path_edges_loop fuel prev start n es = Returns (false, es')
  | OutOfFuel => True
  end.
Proof.
  revert n acc es. induction fuel as [|fuel IH]; intros n acc es; [done|].
  cbn [reconstruct_loop path_edges_loop].
  destruct (decide (n = start)) as [->|Hne].
  { exists [start]. split_and!; [done..|].
    rewrite bool_decide_eq_true_2 by done. by rewrite app_nil_r. }
  destruct (prev !! n) as [[p|]|] eqn:Hp.
  - apply getitem_Returns in Hp as Hg. rewrite Hg. simpl.
    specialize (IH p (acc ++ [n]) (es ++ [(p, n)])).
    destruct (reconstruct_loop fuel prev start (Some p) (acc ++ [n]))
      as [l|e|]; [|done..].
    destruct IH as (l' & -> & Hh & ->). exists (n :: l').
    destruct l' as [|p' l']; [done|]. injection Hh as ->.
    split_and!; [by rewrite <- app_assoc|done|].
    rewrite hops_cons, <- app_assoc. done.
  - apply getitem_Returns in Hp as Hg. rewrite Hg. simpl.
    rewrite reconstruct_loop_None. exists [n]. split_and!; [done..|].
    rewrite bool_decide_eq_false_2 by (simpl; congruence).
    by rewrite app_nil_r.
  - assert (getitem prev n = Raises KeyError) as ->
      by by apply getitem_Raises.
    simpl. by exists es.
Qed.

(** X13. The final-path loop of [draw_step] agrees with
    [reconstruct_path] on every predecessor map: when [reconstruct_path]
    returns a non-empty path the loop ends with [ok] set and has
    collected the edges of that path, from the goal backwards; when
    [reconstruct_path] returns the empty list or raises [KeyError] the
    loop ends with [ok] unset and raises nothing. *)
Theorem path_edges_agree prev start goal fuel :
  (∀ p, reconstruct_path fuel prev start goal = Returns p → p ≠ [] →
     path_edges_loop fuel prev start goal [] =
       Returns (true, hops (reverse p))) ∧
  (reconstruct_path fuel prev start goal = Returns [] →
     ∃ es, path_edges_loop fuel prev start goal [] = Returns (false, es)) ∧
  (∀ e, reconstruct_path fuel prev start goal = Raises e →
     ∃ es, path_edges_loop fuel prev start goal [] = Returns (false, es)).
Proof.
  unfold reconstruct_path.
  pose proof (path_edges_reconstruct prev start fuel goal [] []) as Hloop.
  destruct (reconstruct_loop fuel prev start (Some goal) []) as [l|e|];
    simpl; [|by split_and!; [done|done|intros ? _]|done].
  destruct Hloop as (l' & -> & Hh & Hloop). simpl in *. rewrite Hloop.
  destruct (decide (l' = [] ∨ last l' ≠ Some start)) as [Hd|Hd].
  - rewrite (bool_decide_eq_true_2 _ Hd).
    split_and!; [by intros p [= <-]| |done]. intros _.
    destruct Hd as [->|Hd]; [done|].
    rewrite bool_decide_eq_false_2 by done. eauto.
  - rewrite (bool_decide_eq_false_2 _ Hd).
    split_and!; [|intros [= Hl]|done].
    + intros p [= <-] _. rewrite reverse_involutive.
      rewrite bool_decide_eq_true_2; [done|].
      destruct (decide (last l' = Some start)); [done|]. destruct Hd. by right.
    + apply (f_equal reverse) in Hl. rewrite reverse_involutive in Hl.
      subst l'. done.
Qed.

(** The edges along a walk of the graph are edges of the graph. *)
Lemma path_hops G start l d a b :
  path G start l d → (a, b) ∈ hops l → ∃ w, G_weight G a b = Returns w.
Proof.
  induction 1 as [|u vs c v w Hp IH Hw]; [by intros ?%elem_of_nil|].
  rewrite hops_cons. intros [[= -> ->]|Hin]%elem_of_cons; eauto.
Qed.

(** X14. When [inf] is infinite and the node shown as goal is finalized
    in a step of a run from [start], [draw_step] draws a final path for
    that step: the edges of a walk of the graph from [start] to that
    node whose cost is the recorded distance of the node, which is its
    shortest-path distance. *)
Theorem final_path_drawn G order start (goal : option NodeId) r :
  isinf inf = true →
  wf_graph G = true → nonneg_weights G = true → order ≡ₚ G_nodes G →
  dijkstra_steps G order start goal = Returns r →
  ∀ s g fuel,
    s ∈ r → g ∈ step_closed s → length (G_nodes G) ≤ fuel →
    ∃ l d, final_path_edges fuel G s (Some start) (Some g) =
             Returns (Some (hops l)) ∧
           head l = Some g ∧ path G start l d ∧
           step_dist s !! g = Some d ∧ shortest_dist G start g d ∧
           ∀ a b, (a, b) ∈ hops l → ∃ w, G_weight G a b = Returns w.
Proof.
  intros Hinf Hwf Hnn Hperm Hr s g fuel Hs Hg Hfuel.
  pose proof (run_sound _ _ _ _ _ Hwf Hnn Hperm Hr) as Hall.
  rewrite Forall_forall in Hall. specialize (Hall s Hs).
  destruct (sound_step_dist G start s g Hall) as [d Hd];
    [by apply (ss_closed _ _ _ Hall)|].
  pose proof (t_finite _ _ _ _ _ (ss_tables _ _ _ Hall) g d Hg Hd) as Hfin.
  destruct (ss_rank _ _ _ Hall) as (rank & Hrk & Hbound).
  destruct (tables_walk G start _ _ _ rank Hnn (ss_tables _ _ _ Hall) Hrk)
    with (S (rank g)) g d as (l & e & Hwalk & Hlen & Hnd & _ & He);
    [by rewrite (ss_dom_prev _ _ _ Hall), (ss_dom_dist _ _ _ Hall)|lia|done|].
  specialize (Hbound _ (ss_closed _ _ _ Hall g Hg)).
  destruct e; [|destruct He as [-> _]; congruence|done].
  exists l, d. split_and!.
  - unfold final_path_edges.
    rewrite bool_decide_eq_true_2 by done.
    assert (G_contains G start = true) as ->.
    { apply G_contains_spec. apply (elem_of_list_to_set (C:=gset NodeId)).
      rewrite <- (ss_dom_dist _ _ _ Hall). apply elem_of_dom.
      destruct (t_start _ _ _ _ _ (ss_tables _ _ _ Hall)) as [-> _]. done. }
    assert (G_contains G g = true) as ->.
    { apply G_contains_spec. by apply (ss_closed _ _ _ Hall). }
    simpl.
    pose proof (path_edges_reconstruct (step_prev s) start fuel g [] [])
      as Hloop.
    rewrite (reconstruct_loop_walk _ _ _ _ _ _ _ Hwalk) in Hloop by lia.
    destruct Hloop as (l' & Hl & _ & ->). simpl in Hl. subst l'. simpl.
    destruct (backward_walk_last _ _ _ _ _ Hwalk) as (m & Hm & ->).
    rewrite Hm. by rewrite bool_decide_eq_true_2.
  - by eapply backward_walk_head.
  - done.
  - done.
  - by apply (ss_short _ _ _ Hall).
  - intros a b. by eapply path_hops.
Qed.

End Drawing.

(** ** The edges drawn as being tried *)

Section TryingEdges.
Context `{Countable NodeId} {F : Float}.
Implicit Types (G : @Graph NodeId F) (st : @State NodeId _ _ F)
  (goal : option NodeId) (s : @Step NodeId _ _ F).

(** Of the log of a pass, [trying_edges] keeps the entries of the
    neighbours that were not finalized. *)
Lemma trying_edges_logs G (C : gset NodeId) u (logs : list (@Log NodeId F)) :
  Forall (log_ok G C u) logs →
  trying_edges logs = (λ v, (u, v)) <$> filter (λ v, v ∉ C) (log_j <$> logs).
Proof.
  unfold trying_edges.
  induction 1 as [|t logs (Hi & _ & _ & _ & Hdel) _ IH]; [done|].
  rewrite fmap_cons, !filter_cons.
  destruct (decide (log_j t ∈ C)) as [Hin|Hin].
  - rewrite decide_False by (rewrite Hdel; naive_solver).
    rewrite decide_False by naive_solver. done.
  - rewrite decide_True by (by rewrite Hdel).
    rewrite decide_True by done. by rewrite !fmap_cons, IH, Hi.
Qed.

(** X15. The edges [draw_step] draws as being tried in a step are the
    edges from the selected node to those of its neighbours that were
    not finalized before the step, in neighbour order; for the terminal
    step there are none. *)
Theorem trying_edges_open G order start goal r :
  wf_graph G = true → order ≡ₚ G_nodes G →
  dijkstra_steps G order start goal = Returns r →
  ∀ s, s ∈ r →
    match step_selected_node s with
    | Some u =>
        ∃ nbrs, G_neighbors G u = Returns nbrs ∧
          trying_edges (step_trying s) =
            (λ v, (u, v)) <$> filter (λ v, v ∉ step_closed s ∖ {[u]}) nbrs
    | None => trying_edges (step_trying s) = []
    end.
Proof.
  intros Hwf Hperm. unfold dijkstra_steps.
  destruct (G_contains G start) eqn:Hstart; [|done]. intros Hr.
  apply G_contains_spec in Hstart.
  cut (Forall (λ s,
         match step_selected_node s with
         | Some u =>
             ∃ nbrs, G_neighbors G u = Returns nbrs ∧
               trying_edges (step_trying s) =
                 (λ v, (u, v)) <$>
                 filter (λ v, v ∉ step_closed s ∖ {[u]}) nbrs
         | None => trying_edges (step_trying s) = []
         end) r).
  { rewrite Forall_forall. eauto. }
  apply (dijkstra_loop_steps (Wf G) _ G goal) with (length order)
    (init_state G order start); [|by apply Wf_init|done|done].
  intros st c st' s HWf _ Hb Hs.
  split; [|intros _; by eapply Wf_pass].
  apply loop_body_spec in Hb
    as (cur & d & Hmin & _ & [(_ & _ & ->)|(_ & _ & nbrs & logs & Hn & Hrel
       & _ & _ & Hcl & Hst)]).
  - simpl in Hs. apply app_inv_head in Hs as [= <-]. done.
  - rewrite Hst in Hs. apply app_inv_head in Hs as [= <-]. simpl.
    exists nbrs. split; [done|].
    apply relax_loop_frame in Hrel as (_ & _ & _ & Hj & Hok & _).
    assert (closed st' ∖ {[cur]} = closed st) as ->.
    { apply py_min_elem in Hmin.
      pose proof (wf_disjoint _ _ HWf cur). set_solver. }
    rewrite <- Hj. by apply (trying_edges_logs G).
Qed.

End TryingEdges.

(** ** Loading a graph *)

Section Loader.
Context `{Countable NodeId} {F : Float}.
Implicit Types (G : @Graph NodeId F) (g : @NxGraph NodeId _ _ F)
  (a : list (NodeId * list (NodeId * option float)))
  (e : @Edge NodeId F) (es : list (@Edge NodeId F))
  (ns : list (@Node NodeId)) (u v n : NodeId).

(** *** Insertion-ordered dictionaries *)

Lemma assoc_None {V} (k : NodeId) (l : list (NodeId * V)) :
  assoc k l = None ↔ k ∉ l.*1.
Proof.
  rewrite assoc_is_Some, <- eq_None_not_Some. done.
Qed.

Lemma assoc_app {V} (k : NodeId) (l1 l2 : list (NodeId * V)) :
  assoc k (l1 ++ l2) =
    match assoc k l1 with Some x => Some x | None => assoc k l2 end.
Proof.
  induction l1 as [|[k' x] l1 IH]; simpl; [done|]. by case_decide.
Qed.

Lemma assoc_set_keys {V} (k : NodeId) (x : V) (l : list (NodeId * V)) :
  (assoc_set k x l).*1 = if decide (k ∈ l.*1) then l.*1 else l.*1 ++ [k].
Proof.
  induction l as [|[k' y] l IH]; [done|].
  cbn [assoc_set]. rewrite fmap_cons. cbn [fst].
  destruct (decide (k' = k)) as [->|Hne].
  - rewrite fmap_cons. cbn [fst]. rewrite decide_True; [done|left].
  - rewrite fmap_cons, IH. cbn [fst].
    destruct (decide (k ∈ l.*1)) as [Hi|Hi].
    + rewrite decide_True; [done|by right].
    + rewrite decide_False; [done|].
      intros [?|?]%elem_of_cons; congruence.
Qed.

Lemma assoc_assoc_set {V} (k k' : NodeId) (x : V) (l : list (NodeId * V)) :
  assoc k (assoc_set k' x l) = if decide (k = k') then Some x else assoc k l.
Proof.
  induction l as [|[k'' y] l IH]; simpl.
  - destruct (decide (k' = k)), (decide (k = k')); congruence.
  - destruct (decide (k'' = k')) as [->|Hne]; simpl.
    + destruct (decide (k' = k)), (decide (k = k')); congruence.
    + rewrite IH.
      destruct (decide (k'' = k)), (decide (k = k')); congruence.
Qed.

Lemma assoc_elem_NoDup {V} (k : NodeId) (x : V) (l : list (NodeId * V)) :
  NoDup l.*1 → (k, x) ∈ l → assoc k l = Some x.
Proof.
  induction l as [|[k' y] l IH]; simpl; [by intros _ ?%elem_of_nil|].
  intros [Hk Hnd]%NoDup_cons [[= -> ->]|Hin]%elem_of_cons.
  - by rewrite decide_True.
  - rewrite decide_False; [by apply IH|].
    intros ->. apply Hk. apply list_elem_of_fmap. by exists (k, x).
Qed.

(** *** The adjacency structure *)

Lemma adj_touch_keys n a : (adj_touch n a).*1 = touch_keys n a.*1.
Proof.
  unfold adj_touch, touch_keys. case_decide; [done|].
  by rewrite fmap_app.
Qed.

Lemma elem_of_touch_keys n ks x : x ∈ touch_keys n ks ↔ x ∈ ks ∨ x = n.
Proof.
  unfold touch_keys. case_decide; set_solver.
Qed.

Lemma assoc_adj_touch n a k :
  assoc k (adj_touch n a) =
    match assoc k a with
    | Some x => Some x
    | None => if decide (n = k) then Some [] else None
    end.
Proof.
  unfold adj_touch. case_decide as Hn.
  - destruct (assoc k a) eqn:Hk; [done|]. apply assoc_None in Hk.
    rewrite decide_False; [done|]. by intros ->.
  - by rewrite assoc_app.
Qed.

Lemma edge_attr_touch n a u v :
  edge_attr (adj_touch n a) u v = edge_attr a u v.
Proof.
  unfold edge_attr. rewrite assoc_adj_touch.
  destruct (assoc u a); [done|]. by case_decide.
Qed.

Lemma adj_ok_touch n a : adj_ok a → adj_ok (adj_touch n a).
Proof.
  intros [Hnd Hnb]. split.
  - rewrite adj_touch_keys. unfold touch_keys. case_decide; [done|].
    apply NoDup_app. split_and!; [done| |apply NoDup_singleton].
    by intros x ? ->%list_elem_of_singleton.
  - intros k nbrs. rewrite assoc_adj_touch.
    destruct (assoc k a) eqn:Hk; [intros [= <-]; eauto|].
    case_decide; [|done]. intros [= <-]. constructor.
Qed.

Lemma adj_set_spec u v w a :
  adj_ok a → u ∈ a.*1 →
  ∃ a', adj_set u v w a = Returns a' ∧ adj_ok a' ∧ a'.*1 = a.*1 ∧
        ∀ x y, edge_attr a' x y =
          if decide (x = u ∧ y = v) then Some (Some w) else edge_attr a x y.
Proof.
  intros [Hnd Hnb] Hu. unfold adj_set.
  destruct (assoc u a) as [nbrs|] eqn:Hnbrs;
    [|by apply assoc_None in Hnbrs].
  eexists. split; [done|].
  assert ((assoc_set u (assoc_set v (Some w) nbrs) a).*1 = a.*1) as Hkeys.
  { rewrite assoc_set_keys. by rewrite decide_True. }
  split_and!.
  - split; [by rewrite Hkeys|]. intros k l. rewrite assoc_assoc_set.
    case_decide as Hk; [|by apply Hnb]. intros [= <-].
    rewrite assoc_set_keys. specialize (Hnb _ _ Hnbrs).
    case_decide; [done|]. apply NoDup_app.
    split_and!; [done| |apply NoDup_singleton].
    by intros x ? ->%list_elem_of_singleton.
  - done.
  - intros x y. unfold edge_attr. rewrite assoc_assoc_set.
    destruct (decide (x = u)) as [->|Hx]; simpl.
    + rewrite Hnbrs. simpl. rewrite assoc_assoc_set.
      destruct (decide (y = v)) as [->|Hy].
      * by rewrite decide_True.
      * rewrite decide_False; [done|]. by intros [_ ?].
    + rewrite decide_False; [done|]. by intros [? _].
Qed.

(** What [add_edge] does to the data the engine reads. *)
Lemma add_edge_spec di u v w g :
  adj_ok (adj (nx_graph g)) →
  ∃ g', add_edge di u v w g = Returns g' ∧
        adj_ok (adj (nx_graph g')) ∧
        G_nodes (nx_graph g') =
          touch_keys v (touch_keys u (G_nodes (nx_graph g))) ∧
        nx_label g' = nx_label g ∧
        ∀ x y, edge_attr (adj (nx_graph g')) x y =
          if joins di x y
               {| edge_source := u; edge_target := v; edge_weight := w |}
          then Some (Some w)
          else edge_attr (adj (nx_graph g)) x y.
Proof.
  intros Hok. unfold add_edge, G_nodes.
  set (a := adj_touch v (adj_touch u (adj (nx_graph g)))).
  assert (adj_ok a) as Hoka by by do 2 apply adj_ok_touch.
  assert (a.*1 = touch_keys v (touch_keys u (adj (nx_graph g)).*1)) as Hka.
  { unfold a. by rewrite !adj_touch_keys. }
  assert (∀ x y, edge_attr a x y = edge_attr (adj (nx_graph g)) x y) as Hea.
  { intros x y. unfold a. by rewrite !edge_attr_touch. }
  destruct (adj_set_spec u v w a Hoka) as (a1 & -> & Hok1 & Hk1 & He1).
  { rewrite Hka, !elem_of_touch_keys. auto. }
  simpl. unfold joins. simpl. destruct di; simpl.
  - eexists. split; [done|]. simpl. split_and!; [done|congruence|done|].
    intros x y. rewrite He1, Hea, orb_false_r.
    destruct (decide (x = u ∧ y = v)) as [Hd|Hd].
    + rewrite bool_decide_eq_true_2; [done|]. by destruct Hd.
    + rewrite bool_decide_eq_false_2; [done|]. intros [??]. by apply Hd.
  - destruct (adj_set_spec v u w a1 Hok1) as (a2 & -> & Hok2 & Hk2 & He2).
    { rewrite Hk1, Hka, !elem_of_touch_keys. auto. }
    simpl. eexists. split; [done|]. simpl.
    split_and!; [done|congruence|done|].
    intros x y. rewrite He2, He1, Hea.
    destruct (decide (x = v ∧ y = u)) as [Hd|Hd].
    + rewrite (bool_decide_eq_true_2 (u = y ∧ v = x)) by by destruct Hd.
      by rewrite orb_true_r.
    + rewrite (bool_decide_eq_false_2 (u = y ∧ v = x))
        by (intros [??]; by apply Hd).
      rewrite orb_false_r.
      destruct (decide (x = u ∧ y = v)) as [Hd'|Hd'].
      * rewrite bool_decide_eq_true_2; [done|]. by destruct Hd'.
      * rewrite bool_decide_eq_false_2; [done|]. intros [??]. by apply Hd'.
Qed.

End Loader.

(** *** The loader *)

Section LoadedGraph.
Context `{Countable NodeId} {F : Float}.
Implicit Types (G : @Graph NodeId F) (g : @NxGraph NodeId _ _ F)
  (a : list (NodeId * list (NodeId * option float)))
  (e : @Edge NodeId F) (es : list (@Edge NodeId F))
  (ns : list (@Node NodeId)) (u v n : NodeId)
  (p : @GraphPayload NodeId F).

Lemma size_list_to_set_le (l : list NodeId) :
  size (list_to_set l : gset NodeId) ≤ length l.
Proof.
  induction l as [|x l IH].
  { rewrite list_to_set_nil, (size_empty (C:=gset NodeId)). done. }
  rewrite list_to_set_cons. cbn [length].
  rewrite size_union_alt, size_singleton.
  assert (size (list_to_set l ∖ {[x]} : gset NodeId)
          ≤ size (list_to_set l : gset NodeId)).
  { apply subseteq_size. set_solver. }
  lia.
Qed.

(** [len(ids) != len(set(ids))] says that an id occurs twice. *)
Lemma length_size_NoDup (l : list NodeId) :
  length l = size (list_to_set l : gset NodeId) ↔ NoDup l.
Proof.
  split; [|intros Hnd; by rewrite size_list_to_set].
  induction l as [|x l IH]; [constructor|].
  rewrite list_to_set_cons. cbn [length]. intros Hlen.
  pose proof (size_list_to_set_le l) as Hle.
  destruct (decide (x ∈ l)) as [Hin|Hin].
  - exfalso.
    assert ({[x]} ∪ list_to_set l = (list_to_set l : gset NodeId)) as Heq
      by set_solver.
    rewrite Heq in Hlen. lia.
  - rewrite size_union in Hlen by set_solver.
    rewrite size_singleton in Hlen.
    apply NoDup_cons. split; [done|]. apply IH. lia.
Qed.

Lemma unique_ids_Returns ns :
  NoDup (node_id <$> ns) → unique_ids ns = Returns ns.
Proof.
  intros Hnd. unfold unique_ids. apply length_size_NoDup in Hnd.
  by rewrite decide_False by (intros Hne; by apply Hne).
Qed.

Lemma unique_ids_Raises ns :
  ¬ NoDup (node_id <$> ns) → unique_ids ns = Raises ValueError.
Proof.
  intros Hnd. unfold unique_ids. rewrite decide_True; [done|].
  by rewrite length_size_NoDup.
Qed.

(** The graph when the nodes have been added. *)
Lemma add_nodes_spec ns :
  NoDup (node_id <$> ns) →
  let g := foldl (λ g x, add_node (node_id x) (node_label x) g)
             {| nx_graph := {| adj := [] |}; nx_label := ∅ |} ns in
  adj (nx_graph g) = (λ x, (node_id x, [])) <$> ns ∧
  ∀ n l, nx_label g !! n = Some l ↔
         {| node_id := n; node_label := l |} ∈ ns.
Proof.
  induction ns as [|x ns IH] using rev_ind; intros Hnd; simpl.
  { split; [done|]. intros n l. rewrite lookup_empty.
    split; [done|by intros ?%elem_of_nil]. }
  rewrite fmap_app in Hnd. apply NoDup_app in Hnd as (Hnd & Hx & _).
  specialize (IH Hnd). simpl in IH. destruct IH as [Hadj Hlab].
  rewrite foldl_app. simpl. split.
  - rewrite Hadj. unfold adj_touch. rewrite decide_False.
    + by rewrite fmap_app.
    + rewrite <- list_fmap_compose. intros Hin. apply (Hx (node_id x)).
      * done.
      * simpl. left.
  - intros n l. rewrite elem_of_app, list_elem_of_singleton.
    destruct (decide (n = node_id x)) as [->|Hne].
    + rewrite lookup_insert_eq. split.
      * intros [= <-]. right. by destruct x.
      * intros [Hin|Heq].
        -- exfalso. apply (Hx (node_id x)); [|left].
           apply list_elem_of_fmap. by eexists; split; [|done].
        -- apply (f_equal node_label) in Heq. simpl in Heq. congruence.
    + rewrite lookup_insert_ne by done. rewrite Hlab.
      split; [by left|]. intros [?|Heq]; [done|].
      apply (f_equal node_id) in Heq. simpl in Heq. by destruct Hne.
Qed.

(** One payload edge more. *)
Lemma loading_step ids di es e g :
  loading ids di es g →
  ∃ g', add_edge di (edge_source e) (edge_target e) (edge_weight e) g =
          Returns g' ∧
        loading ids di (es ++ [e]) g' ∧ nx_label g' = nx_label g.
Proof.
  intros (Hok & (extra & Hk & Hex) & He). destruct e as [u v w]. simpl.
  destruct (add_edge_spec di u v w g Hok)
    as (g' & Hg' & Hok' & Hk' & Hl' & He').
  set (e := {| edge_source := u; edge_target := v; edge_weight := w |}) in *.
  exists g'. split; [done|]. split; [|done]. split_and!; [done| |].
  - rewrite Hk', Hk. clear -Hex. unfold touch_keys.
    assert (∀ n, Exists (endpoint n) (es ++ [e]) ↔
                 Exists (endpoint n) es ∨ n = u ∨ n = v) as HP.
    { intros n. rewrite Exists_app, Exists_cons, Exists_nil.
      unfold endpoint. simpl. tauto. }
    destruct (decide (u ∈ ids ++ extra)) as [Hu|Hu].
    + destruct (decide (v ∈ ids ++ extra)) as [Hv|Hv].
      * exists extra. split; [done|]. intros n. rewrite HP, Hex.
        split; [tauto|]. intros (Hn & [?|[->| ->]]); [tauto| |].
        -- apply elem_of_app in Hu as [?|?]; [done|]. by apply Hex.
        -- apply elem_of_app in Hv as [?|?]; [done|]. by apply Hex.
      * exists (extra ++ [v]).
        split; [by rewrite app_assoc|]. intros n.
        rewrite elem_of_app, list_elem_of_singleton, HP, Hex.
        split.
        -- intros [[??]| ->]; [tauto|]. split; [|tauto].
           rewrite ?elem_of_app in *. tauto.
        -- intros (Hn & [?|[->| ->]]); [tauto| |tauto].
           apply elem_of_app in Hu as [?|?]; [done|]. left. by apply Hex.
    + destruct (decide (v ∈ (ids ++ extra) ++ [u]))
        as [Hv|Hv].
      * exists (extra ++ [u]).
        split; [by rewrite app_assoc|]. intros n.
        rewrite elem_of_app, list_elem_of_singleton, HP, Hex.
        split.
        -- intros [[??]| ->]; [tauto|]. split; [|tauto].
           rewrite ?elem_of_app in *. tauto.
        -- intros (Hn & [?|[->| ->]]); [tauto|tauto|].
           rewrite !elem_of_app, list_elem_of_singleton in Hv.
           destruct Hv as [[?|?]|?]; [done| |tauto]. left. by apply Hex.
      * exists ((extra ++ [u]) ++ [v]).
        split; [by rewrite !app_assoc|]. intros n.
        rewrite !elem_of_app, !list_elem_of_singleton, HP, Hex.
        split.
        -- intros [[[??]| ->]| ->]; [tauto| |];  (split; [(rewrite ?elem_of_app, ?list_elem_of_singleton in *; tauto)|tauto]).
        -- tauto.
  - intros x y. rewrite He', He, filter_app, filter_cons, filter_nil.
    destruct (joins di x y e) eqn:Hj.
    + rewrite decide_True by exact I. by rewrite last_snoc.
    + rewrite decide_False by (by intros []). by rewrite app_nil_r.
Qed.

(** What a call that returns has built. *)
Lemma load_graph_spec p :
  NoDup (node_id <$> payload_nodes p) →
  ∃ g, load_graph_from_json_str p = Returns g ∧
       loading (node_id <$> payload_nodes p) (payload_directed p)
         (payload_edges p) g ∧
       ∀ n l, nx_label g !! n = Some l ↔
              {| node_id := n; node_label := l |} ∈ payload_nodes p.
Proof.
  intros Hnd. unfold load_graph_from_json_str.
  rewrite (unique_ids_Returns _ Hnd). simpl.
  destruct (add_nodes_spec _ Hnd) as [Hadj Hlab]. simpl in Hadj, Hlab.
  set (g0 := foldl _ _ _) in *.
  assert (loading (node_id <$> payload_nodes p) (payload_directed p) [] g0)
    as Hinit.
  { split_and!.
    - split.
      + rewrite Hadj, <- list_fmap_compose. done.
      + intros n nbrs Hn. apply assoc_Some_elem in Hn. rewrite Hadj in Hn.
        apply list_elem_of_fmap in Hn as (? & [= _ ->] & _). constructor.
    - exists []. split.
      + unfold G_nodes. rewrite Hadj, <- list_fmap_compose, app_nil_r. done.
      + intros n. split; [by intros ?%elem_of_nil|].
        by intros [_ ?%Exists_nil].
    - intros x y. simpl. unfold edge_attr.
      destruct (assoc x (adj (nx_graph g0))) as [nbrs|] eqn:Hn; [|done].
      apply assoc_Some_elem in Hn. rewrite Hadj in Hn.
      by apply list_elem_of_fmap in Hn as (? & [= _ ->] & _). }
  clearbody g0. clear Hadj.
  cut (∀ es pre g1,
         loading (node_id <$> payload_nodes p) (payload_directed p) pre g1 →
         nx_label g1 = nx_label g0 →
         ∃ g, for_each es
                (λ e g, add_edge (payload_directed p) (edge_source e)
                          (edge_target e) (edge_weight e) g) g1 = Returns g ∧
              loading (node_id <$> payload_nodes p) (payload_directed p)
                (pre ++ es) g ∧
              nx_label g = nx_label g0).
  { intros Hcut.
    destruct (Hcut (payload_edges p) [] g0 Hinit eq_refl)
      as (g & Hg & Hload & Hl).
    exists g. split_and!; [done..|]. intros n l. by rewrite Hl. }
  induction es as [|e es IH]; intros pre g1 Hload Hl; simpl.
  - exists g1. by rewrite app_nil_r.
  - destruct (loading_step _ _ _ e _ Hload) as (g2 & -> & Hload2 & Hl2).
    simpl. destruct (IH (pre ++ [e]) g2 Hload2) as (g & Hg & Hload3 & Hl3);
      [congruence|].
    exists g. by rewrite <- app_assoc in Hload3.
Qed.

Lemma load_graph_Returns p g :
  load_graph_from_json_str p = Returns g →
  NoDup (node_id <$> payload_nodes p).
Proof.
  intros Hr. destruct (decide (NoDup (node_id <$> payload_nodes p)))
    as [|Hnd]; [done|].
  unfold load_graph_from_json_str in Hr.
  by rewrite (unique_ids_Raises _ Hnd) in Hr.
Qed.

(** The two lookups of [G_weight] as one. *)
Lemma G_weight_edge_attr G u v :
  G_weight G u v =
    match edge_attr (adj G) u v with
    | Some attr => Returns (default one attr)
    | None => Raises KeyError
    end.
Proof.
  unfold G_weight, edge_attr. by destruct (assoc u (adj G)).
Qed.

Lemma wf_graph_intro G :
  adj_ok (adj G) →
  (∀ u v attr, edge_attr (adj G) u v = Some attr → v ∈ G_nodes G) →
  wf_graph G = true.
Proof.
  intros [Hnd Hnb] Hin. unfold wf_graph. apply andb_true_intro. split.
  { by apply bool_decide_eq_true. }
  apply forallb_forall. intros [n nbrs] Hn%list_elem_of_In.
  apply (assoc_elem_NoDup _ _ _ Hnd) in Hn.
  apply andb_true_intro. split.
  { apply bool_decide_eq_true. by eapply Hnb. }
  apply forallb_forall. intros [v attr] Hv%list_elem_of_In.
  apply bool_decide_eq_true. apply (Hin n v attr).
  unfold edge_attr. rewrite Hn. simpl.
  apply assoc_elem_NoDup; [by eapply Hnb|done].
Qed.

Lemma nonneg_weights_intro G :
  adj_ok (adj G) →
  (∀ u v attr, edge_attr (adj G) u v = Some attr →
     fle zero (default one attr)) →
  nonneg_weights G = true.
Proof.
  intros [Hnd Hnb] Hin. unfold nonneg_weights.
  apply forallb_forall. intros [n nbrs] Hn%list_elem_of_In.
  apply (assoc_elem_NoDup _ _ _ Hnd) in Hn.
  apply forallb_forall. intros [v attr] Hv%list_elem_of_In.
  apply negb_true_iff. apply (Hin n v attr).
  unfold edge_attr. rewrite Hn. simpl.
  apply assoc_elem_NoDup; [by eapply Hnb|done].
Qed.

(** An edge of a graph under construction joins nodes of it. *)
Lemma loading_edge_nodes ids di es g x y attr :
  loading ids di es g → edge_attr (adj (nx_graph g)) x y = Some attr →
  ∃ e, e ∈ es ∧ joins di x y e = true ∧ attr = Some (edge_weight e) ∧
       x ∈ G_nodes (nx_graph g) ∧ y ∈ G_nodes (nx_graph g).
Proof.
  intros (Hok & (extra & Hk & Hex) & He). rewrite He.
  destruct (last _) as [e|] eqn:Hlast; [|done]. intros [= <-].
  apply last_Some_elem_of, list_elem_of_filter in Hlast as [Hj Hin].
  apply Is_true_true in Hj.
  exists e. split_and!; [done..| |].
  - rewrite Hk. destruct (decide (x ∈ ids)); [set_solver|].
    apply elem_of_app. right. apply Hex. split; [done|].
    apply Exists_exists. exists e. split; [done|]. unfold endpoint.
    unfold joins in Hj. apply orb_true_iff in Hj as [Hj|Hj].
    + apply bool_decide_eq_true in Hj as [<- _]. by left.
    + apply andb_true_iff in Hj as [_ Hj].
      apply bool_decide_eq_true in Hj as [_ <-]. by right.
  - rewrite Hk. destruct (decide (y ∈ ids)); [set_solver|].
    apply elem_of_app. right. apply Hex. split; [done|].
    apply Exists_exists. exists e. split; [done|]. unfold endpoint.
    unfold joins in Hj. apply orb_true_iff in Hj as [Hj|Hj].
    + apply bool_decide_eq_true in Hj as [_ <-]. by right.
    + apply andb_true_iff in Hj as [_ Hj].
      apply bool_decide_eq_true in Hj as [<- _]. by left.
Qed.

End LoadedGraph.

(** *** What the loader guarantees *)

Section LoaderFacts.
Context `{Countable NodeId} {F : Float}.
Implicit Types (G : @Graph NodeId F) (g : @NxGraph NodeId _ _ F)
  (e : @Edge NodeId F) (u v n : NodeId) (p : @GraphPayload NodeId F).

(** A call that returned ran on unique ids and left a graph as
    [loading] describes it. *)
Lemma load_graph_loading p g :
  load_graph_from_json_str p = Returns g →
  NoDup (node_id <$> payload_nodes p) ∧
  loading (node_id <$> payload_nodes p) (payload_directed p)
    (payload_edges p) g ∧
  ∀ n l, nx_label g !! n = Some l ↔
         {| node_id := n; node_label := l |} ∈ payload_nodes p.
Proof.
  intros Hr. pose proof (load_graph_Returns _ _ Hr) as Hnd.
  destruct (load_graph_spec p Hnd) as (g' & Hg' & Hload & Hlab).
  assert (g' = g) as -> by congruence. done.
Qed.

Lemma loaded_wf p g :
  load_graph_from_json_str p = Returns g → wf_graph (nx_graph g) = true.
Proof.
  intros (_ & Hload & _)%load_graph_loading.
  apply wf_graph_intro; [by destruct Hload|].
  intros u v attr Hattr.
  by destruct (loading_edge_nodes _ _ _ _ _ _ _ Hload Hattr)
    as (_ & _ & _ & _ & _ & ?).
Qed.

Lemma loaded_nonneg p g :
  load_graph_from_json_str p = Returns g →
  (∀ e, e ∈ payload_edges p → fle zero (edge_weight e)) →
  nonneg_weights (nx_graph g) = true.
Proof.
  intros (_ & Hload & _)%load_graph_loading Hnn.
  apply nonneg_weights_intro; [by destruct Hload|].
  intros u v attr Hattr.
  destruct (loading_edge_nodes _ _ _ _ _ _ _ Hload Hattr)
    as (e & He & _ & -> & _). simpl. by apply Hnn.
Qed.

(** X16. [load_graph_from_json_str] raises [ValueError] exactly when two
    declared nodes share an id, and returns a graph exactly when the
    declared ids are unique: an edge that names an undeclared node, a
    self-loop, a repeated edge or a negative weight is not rejected. *)
Theorem load_graph_raises_iff p :
  (load_graph_from_json_str p = Raises ValueError ↔
     ¬ NoDup (node_id <$> payload_nodes p)) ∧
  ((∃ g, load_graph_from_json_str p = Returns g) ↔
     NoDup (node_id <$> payload_nodes p)).
Proof.
  split; split.
  - intros Hr Hnd. destruct (load_graph_spec p Hnd) as (g & Hg & _).
    congruence.
  - intros Hnd. unfold load_graph_from_json_str.
    by rewrite (unique_ids_Raises _ Hnd).
  - intros [g Hg]. by eapply load_graph_Returns.
  - intros Hnd. destruct (load_graph_spec p Hnd) as (g & Hg & _). eauto.
Qed.

(** X17. The graph the loader returns has the shape the engine's
    theorems ask for: its node ids are unique, the neighbours of a node
    are unique and are nodes; and when no payload edge has a negative
    weight, no edge of the graph has one. *)
Theorem loaded_graph_wf p g :
  load_graph_from_json_str p = Returns g →
  wf_graph (nx_graph g) = true ∧
  ((∀ e, e ∈ payload_edges p → fle zero (edge_weight e)) →
   nonneg_weights (nx_graph g) = true).
Proof.
  intros Hr. split; [by eapply loaded_wf|by apply loaded_nonneg].
Qed.

(** X18. The nodes of the loaded graph are the declared ids, in the
    order of the payload, followed by the ends of edges that were not
    declared: such an edge creates its ends. *)
Theorem loaded_nodes p g :
  load_graph_from_json_str p = Returns g →
  ∃ extra,
    G_nodes (nx_graph g) = (node_id <$> payload_nodes p) ++ extra ∧
    ∀ n, n ∈ extra ↔
      (n ∉ node_id <$> payload_nodes p) ∧
      ∃ e, e ∈ payload_edges p ∧ (n = edge_source e ∨ n = edge_target e).
Proof.
  intros (_ & (_ & (extra & Hk & Hex) & _) & _)%load_graph_loading.
  exists extra. split; [done|]. intros n. rewrite Hex, Exists_exists. done.
Qed.

(** X19. In the loaded graph the weight of the edge from [u] to [v] is
    the weight of the last payload edge that joins them: one from [u] to
    [v], or, unless the payload is directed, one from [v] to [u].  With
    no such payload edge the lookup raises [KeyError]. *)
Theorem loaded_weight p g u v :
  load_graph_from_json_str p = Returns g →
  G_weight (nx_graph g) u v =
    match last (filter (λ e, joins (payload_directed p) u v e)
                  (payload_edges p)) with
    | Some e => Returns (edge_weight e)
    | None => Raises KeyError
    end.
Proof.
  intros (_ & (_ & _ & He) & _)%load_graph_loading.
  rewrite G_weight_edge_attr, He. by destruct (last _).
Qed.

(** X20. A payload that is not directed gives a symmetric graph: the
    weight lookup from [u] to [v] and the one from [v] to [u] have the
    same outcome. *)
Theorem undirected_symmetric p g u v :
  payload_directed p = false →
  load_graph_from_json_str p = Returns g →
  G_weight (nx_graph g) u v = G_weight (nx_graph g) v u.
Proof.
  intros Hd (_ & (_ & _ & He) & _)%load_graph_loading.
  rewrite !G_weight_edge_attr, !He, Hd.
  assert (filter (λ e, joins false u v e) (payload_edges p) =
          filter (λ e, joins false v u e) (payload_edges p)) as ->; [|done].
  apply list_filter_iff. intros e. unfold joins. by rewrite orb_comm.
Qed.

(** X21. The nodes that carry a label in the loaded graph are the
    declared ones, each with its declared label; a node that only an
    edge created has none. *)
Theorem loaded_labels p g n :
  load_graph_from_json_str p = Returns g →
  (∀ l, nx_label g !! n = Some l ↔
        {| node_id := n; node_label := l |} ∈ payload_nodes p) ∧
  (is_Some (nx_label g !! n) ↔ n ∈ node_id <$> payload_nodes p).
Proof.
  intros (_ & _ & Hlab)%load_graph_loading. split; [done|]. split.
  - intros [l Hl]. apply Hlab in Hl. apply list_elem_of_fmap.
    by eexists; split; [|done].
  - intros ([n' l] & -> & Hin)%list_elem_of_fmap. exists l. by apply Hlab.
Qed.

End LoaderFacts.

(** *** From the payload to the steps *)

Section LoadAndRun.
Context `{Countable NodeId} {F : Float} {FO : FloatOrder F}.
Implicit Types (g : @NxGraph NodeId _ _ F) (p : @GraphPayload NodeId F).

(** X22. On a graph that the loader returned, [dijkstra_steps] from a
    node of the graph returns at least one step, whatever the weights;
    and when no payload edge has a negative weight, the distance a step
    records for a finalized node is its shortest-path distance in the
    loaded graph. *)
Theorem loaded_graph_runs p g order start goal :
  load_graph_from_json_str p = Returns g →
  order ≡ₚ G_nodes (nx_graph g) → start ∈ G_nodes (nx_graph g) →
  ∃ r, dijkstra_steps (nx_graph g) order start goal = Returns r ∧ r ≠ [] ∧
    ((∀ e, e ∈ payload_edges p → fle zero (edge_weight e)) →
     ∀ s n, s ∈ r → n ∈ step_closed s →
       ∃ d, step_dist s !! n = Some d ∧
            shortest_dist (nx_graph g) start n d).
Proof.
  intros Hload Hperm Hstart.
  pose proof (loaded_wf _ _ Hload) as Hwf.
  assert (∃ r, dijkstra_steps (nx_graph g) order start goal = Returns r)
    as [r Hr].
  { unfold dijkstra_steps.
    rewrite (proj2 (G_contains_spec (nx_graph g) start) Hstart).
    apply dijkstra_loop_total; [done|by apply Wf_init|done]. }
  exists r. split_and!; [done| |].
  - unfold dijkstra_steps in Hr.
    rewrite (proj2 (G_contains_spec (nx_graph g) start) Hstart) in Hr.
    assert (start ∈ order) as Hin by by rewrite Hperm.
    destruct order as [|x order]; [by apply elem_of_nil in Hin|].
    simpl in Hr. apply bind_Returns in Hr as ([c st'] & Hb & Hr).
    destruct (loop_body_steps _ _ _ _ _ Hb) as (s & Hs & _).
    assert (steps st' `prefix_of` r) as [k ->].
    { destruct c; [by eapply dijkstra_loop_prefix|].
      by injection Hr as <-. }
    rewrite Hs. simpl. by destruct (steps _).
  - intros Hnn s n Hs Hn.
    pose proof (loaded_nonneg _ _ Hload Hnn) as Hnn'.
    pose proof (run_sound _ _ _ _ _ Hwf Hnn' Hperm Hr) as Hall.
    rewrite Forall_forall in Hall. specialize (Hall s Hs).
    destruct (sound_step_dist _ _ _ n Hall) as [d Hd];
      [by apply (ss_closed _ _ _ Hall)|].
    exists d. split; [done|]. by apply (ss_short _ _ _ Hall).
Qed.

End LoadAndRun.

(** ** The colours of the nodes *)

Section NodeColours.
Context `{Countable NodeId} {F : Float}.
Implicit Types (G : @Graph NodeId F) (st : @State NodeId _ _ F)
  (goal : option NodeId) (s : @Step NodeId _ _ F).

(** The node a step selected is in the finalized set of the step. *)
Lemma selected_closed G order start goal r :
  wf_graph G = true → order ≡ₚ G_nodes G →
  dijkstra_steps G order start goal = Returns r →
  ∀ s u, s ∈ r → step_selected_node s = Some u → u ∈ step_closed s.
Proof.
  intros Hwf Hperm. unfold dijkstra_steps.
  destruct (G_contains G start) eqn:Hstart; [|done]. intros Hr.
  apply G_contains_spec in Hstart.
  cut (Forall (λ s, ∀ u, step_selected_node s = Some u → u ∈ step_closed s)
         r).
  { rewrite Forall_forall. eauto. }
  apply (dijkstra_loop_steps (Wf G) _ G goal) with (length order)
    (init_state G order start); [|by apply Wf_init|done|done].
  intros st c st' s HWf _ Hb Hs.
  split; [|intros _; by eapply Wf_pass].
  apply loop_body_spec in Hb
    as (cur & d & Hmin & _ & [(_ & _ & ->)|(_ & _ & nbrs & logs & Hn & Hrel
       & _ & _ & Hcl & Hst)]).
  - simpl in Hs. apply app_inv_head in Hs as [= <-]. done.
  - rewrite Hst in Hs. apply app_inv_head in Hs as [= <-]. simpl.
    intros u [= <-]. rewrite Hcl. set_solver.
Qed.

(** X23. [draw_step] colours every node of the graph, and for a step of
    a run the colour tells the state of the node: white when it is not
    finalized, gold when it is the node the step selected, red when it
    was finalized before. *)
Theorem node_colors_state G order start goal r :
  wf_graph G = true → order ≡ₚ G_nodes G →
  dijkstra_steps G order start goal = Returns r →
  ∀ s, s ∈ r →
    length (node_colors G s) = length (G_nodes G) ∧
    ∀ i n, G_nodes G !! i = Some n →
      ∃ c, node_colors G s !! i = Some c ∧
        (c = "#FFFFFF" ↔ n ∉ step_closed s) ∧
        (c = "#FFD700" ↔ step_selected_node s = Some n) ∧
        (c = "#FF6B6B" ↔
           n ∈ step_closed s ∧ step_selected_node s ≠ Some n).
Proof.
  intros Hwf Hperm Hr s Hs.
  pose proof (selected_closed _ _ _ _ _ Hwf Hperm Hr s) as Hsel.
  unfold node_colors. split; [by rewrite length_fmap|].
  intros i n Hi. rewrite list_lookup_fmap, Hi. simpl. eexists. split; [done|].
  destruct (decide (Some n = step_selected_node s)) as [Heq|Hne].
  - specialize (Hsel n Hs (eq_sym Heq)).
    split_and!; split; try done; try (by intros []); naive_solver.
  - destruct (decide (n ∈ step_closed s)).
    + split_and!; split; try done; naive_solver.
    + split_and!; split; try done; naive_solver.
Qed.

End NodeColours.

(** ** The step cursor of the application *)

Section Application.
Context `{Countable NodeId} {F : Float}.
Implicit Types (ss : @Session NodeId _ _ F) (w : @Widgets NodeId F)
  (ws : list (@Widgets NodeId F)).

Lemma cursor_ok_reset (g : option (@NxGraph NodeId _ _ F))
    (start goal : option NodeId) (r : list (@Step NodeId _ _ F)) :
  cursor_ok {| ss_G := g; ss_start := start; ss_goal := goal;
               ss_steps := r; ss_idx := 0 |}.
Proof.
  split; simpl; [done|]. destruct r; [done|]. intros _. simpl. lia.
Qed.

Lemma upload_ok w ss ss' :
  cursor_ok ss → upload w ss = Returns ss' → cursor_ok ss'.
Proof.
  intros Hok. unfold upload.
  destruct (w_uploaded w) as [| | |payload]; [by intros [= <-]|done| |].
  - simpl. intros [= <-]. apply cursor_ok_reset.
  - destruct (_ ≫= _) as [g|e|]; [| |done]; intros [= <-].
    + done.
    + apply cursor_ok_reset.
Qed.

Lemma prepare_ok w ss ss' :
  cursor_ok ss → prepare w ss = Returns ss' → cursor_ok ss'.
Proof.
  intros Hok. unfold prepare.
  destruct (ss_G ss) as [g|]; [|by intros [= <-]].
  destruct (w_prepare w); [|by intros [= <-]].
  destruct (match w_start w with Some _ => _ | None => _ end) as [r|e|];
    [| |done]; intros [= <-]; apply cursor_ok_reset.
Qed.

Lemma cursor_cursor_ok w ss : cursor_ok ss → cursor_ok (cursor w ss).
Proof.
  intros [H0 Hlt]. unfold cursor.
  destruct (ss_G ss) as [g|]; [|done].
  destruct (ss_steps ss) as [|s r] eqn:Hr; [done|].
  specialize (Hlt ltac:(done)). simpl in Hlt.
  split; simpl; [|intros _];
    destruct (w_reset w), (w_prev w), (w_next w); lia.
Qed.

Lemma script_run_ok w ss ss' :
  cursor_ok ss → script_run w ss = Returns ss' → cursor_ok ss'.
Proof.
  intros Hok Hr. unfold script_run in Hr.
  apply bind_Returns in Hr as (ss1 & H1 & Hr).
  apply bind_Returns in Hr as (ss2 & H2 & [= <-]).
  apply cursor_cursor_ok. eapply prepare_ok; [|done]. by eapply upload_ok.
Qed.

Lemma script_runs_ok ws ss ss' :
  cursor_ok ss → script_runs ws ss = Returns ss' → cursor_ok ss'.
Proof.
  revert ss. induction ws as [|w ws IH]; intros ss Hok Hr; simpl in Hr.
  - by injection Hr as <-.
  - apply bind_Returns in Hr as (ss1 & H1 & Hr).
    eapply IH; [|done]. by eapply script_run_ok.
Qed.

(** X24. Whatever the widgets return in the runs of a session, the step
    cursor stays a position of the step list: it is never negative,
    it is below the number of steps when there are steps, and the step
    a run shows exists. *)
Theorem cursor_addresses_step ws ss :
  script_runs ws initial_session = Returns ss →
  cursor_ok ss ∧ ∀ o, shown_step ss = Some o → is_Some o.
Proof.
  intros Hr.
  assert (cursor_ok ss) as Hok.
  { eapply script_runs_ok; [|done]. apply cursor_ok_reset. }
  split; [done|]. destruct Hok as [H0 Hlt]. unfold shown_step.
  destruct (ss_G ss); [|done].
  destruct (ss_steps ss) as [|s r] eqn:Hs; [done|].
  intros o [= <-]. specialize (Hlt ltac:(done)).
  unfold py_index. rewrite decide_True by done.
  apply lookup_lt_is_Some. lia.
Qed.

End Application.

(** ** The further properties on the sample graphs *)

Lemma sample_load :
  load_graph_from_json_str sample_payload = Returns sample_loaded.
Proof. vm_compute. reflexivity. Defined.

Lemma stray_load :
  load_graph_from_json_str stray_payload = Returns stray_loaded.
Proof. vm_compute. reflexivity. Defined.

Lemma sample_session_run :
  script_runs sample_session initial_session = Returns sample_session_end.
Proof. vm_compute. reflexivity. Defined.

(** The loader builds the sample graph from the sample payload. *)
Remark sample_loaded_graph : nx_graph sample_loaded = sample.
Proof. vm_compute. reflexivity. Qed.

(** X1 on the sample run: the third step carries the number 3. *)
Lemma steps_numbered_witness : step_iter (step_at sample_steps 2) = 3.
Proof.
  apply (steps_numbered sample [1; 2; 3; 4] 1 (Some 4) sample_steps
           sample_run 2).
  vm_compute. reflexivity.
Defined.

(** X2 on the sample run. *)
Lemma finalized_set_grows_witness :
  grows sample sample_steps ∧ NoDup (omap step_selected_node sample_steps).
Proof.
  apply (finalized_set_grows sample [1; 2; 3; 4] 1 (Some 4)).
  - reflexivity.
  - reflexivity.
  - exact sample_run.
Defined.

(** X3 on the sample run. *)
Lemma steps_bounded_witness : length sample_steps ≤ length (G_nodes sample).
Proof.
  apply (steps_bounded sample [1; 2; 3; 4] 1 (Some 4)).
  - reflexivity.
  - reflexivity.
  - exact sample_run.
Defined.

(** X4 on the sample run: the first step finalizes node 1. *)
Lemma first_step_start_witness :
  ∃ s, sample_steps !! 0 = Some s ∧ step_selected_node s = Some 1 ∧
       step_closed s = {[1]}.
Proof.
  apply (first_step_start sample [1; 2; 3; 4] 1 (Some 4)).
  - reflexivity.
  - reflexivity.
  - reflexivity.
  - exact sample_run.
Defined.

(** X5 on the sample run: node 3, at distance 21, is finalized before
    node 4, at distance 33. *)
Lemma finalization_order_witness : fle (Fin 21) (Fin 33).
Proof.
  apply (finalization_order sample [1; 2; 3; 4] 1 (Some 4) sample_steps)
    with (s := step_at sample_steps 3) (u := 4) (v := 3).
  - reflexivity.
  - reflexivity.
  - reflexivity.
  - exact sample_run.
  - apply (step_at_elem sample_steps 3 (step_at sample_steps 3)).
    vm_compute. reflexivity.
  - vm_compute. reflexivity.
  - vm_compute. reflexivity.
  - vm_compute. reflexivity.
  - vm_compute. reflexivity.
Defined.

(** X6 on the last step of the sample run. *)
Lemma start_fixed_witness :
  step_dist (step_at sample_steps 3) !! 1 = Some zero ∧
  step_prev (step_at sample_steps 3) !! 1 = Some None.
Proof.
  apply (start_fixed sample [1; 2; 3; 4] 1 (Some 4) sample_steps).
  - reflexivity.
  - reflexivity.
  - reflexivity.
  - exact sample_run.
  - apply (step_at_elem sample_steps 3 (step_at sample_steps 3)).
    vm_compute. reflexivity.
Defined.

(** X7 on the sample run: node 4 is finalized at a finite distance that
    a walk from node 1 attains. *)
Lemma finalized_reachable_witness :
  ∃ d vs, step_dist (step_at sample_steps 3) !! 4 = Some d ∧
          isinf d = false ∧ path sample 1 (4 :: vs) d ∧ NoDup (4 :: vs).
Proof.
  apply (finalized_reachable sample [1; 2; 3; 4] 1 (Some 4) sample_steps).
  - reflexivity.
  - reflexivity.
  - reflexivity.
  - reflexivity.
  - exact sample_run.
  - apply (step_at_elem sample_steps 3 (step_at sample_steps 3)).
    vm_compute. reflexivity.
  - vm_compute. reflexivity.
Defined.

(** X8 on the sample run, where the path to node 4 costs 33, and on the
    graph with the unreachable node 3. *)
Lemma reconstructed_path_cost_witness :
  (∃ p, reconstruct_path 4 (step_prev (step_at sample_steps 3)) 1 4
          = Returns p ∧
        head p = Some 1 ∧ last p = Some 4 ∧ NoDup p ∧
        path sample 1 (reverse p) (Fin 33)) ∧
  reconstruct_path 3 (step_prev (step_at split_steps 2)) 1 3 = Returns [].
Proof.
  split.
  - apply (reconstructed_path_cost sample [1; 2; 3; 4] 1 (Some 4)
             sample_steps).
    + reflexivity.
    + reflexivity.
    + reflexivity.
    + exact sample_run.
    + apply (step_at_elem sample_steps 3 (step_at sample_steps 3)).
      vm_compute. reflexivity.
    + vm_compute. reflexivity.
    + vm_compute. lia.
    + discriminate.
  - apply (reconstructed_path_cost split_graph [1; 2; 3] 1 None split_steps)
      with (d := inf).
    + reflexivity.
    + reflexivity.
    + reflexivity.
    + exact split_run.
    + apply (step_at_elem split_steps 2 (step_at split_steps 2)).
      vm_compute. reflexivity.
    + vm_compute. reflexivity.
    + vm_compute. lia.
    + reflexivity.
    + lia.
Defined.


(** X10 on the graph with an unreachable node: the run ends with the
    terminal step. *)
Lemma run_exhausts_witness :
  ∃ s, last split_steps = Some s ∧
    ((∀ n, n ∈ G_nodes split_graph → n ∈ step_closed s) ∨
     (step_selected_node s = None ∧
      ∀ n, n ∈ G_nodes split_graph → n ∉ step_closed s →
           step_dist s !! n = Some inf)).
Proof.
  apply (run_exhausts split_graph [1; 2; 3] 1 split_steps).
  - intros [z|] _ Hd; [discriminate Hd|reflexivity].
  - reflexivity.
  - reflexivity.
  - reflexivity.
  - exact split_run.
Defined.

(** X11 on the predecessor map of the sample run. *)
Lemma reconstruct_path_shape_witness :
  head [1; 3; 4] = Some 1 ∧ last [1; 3; 4] = Some 4 ∧ NoDup [1; 3; 4] ∧
  ∀ p1 a b p2, [1; 3; 4] = p1 ++ a :: b :: p2 →
    sample_prev !! b = Some (Some a).
Proof.
  apply (reconstruct_path_shape sample_prev 1 4 4 [1; 3; 4]).
  - vm_compute. reflexivity.
  - discriminate.
Defined.

(** X12 on a predecessor map in which 2 and 3 point at each other. *)
Lemma reconstruct_path_diverges_witness :
  reconstruct_path 1000 cyclic_prev 1 2 = OutOfFuel.
Proof.
  apply (reconstruct_path_diverges cyclic_prev 1 2 (λ n, n = 2 ∨ n = 3)).
  - left. reflexivity.
  - intros [?|?]; lia.
  - intros n [->| ->].
    + exists 3. split; [vm_compute; reflexivity|right; reflexivity].
    + exists 2. split; [vm_compute; reflexivity|left; reflexivity].
Defined.

(** X13 on the predecessor map of the sample run. *)
Lemma path_edges_agree_witness :
  path_edges_loop 4 sample_prev 1 4 [] = Returns (true, [(3, 4); (1, 3)]).
Proof.
  apply (proj1 (path_edges_agree sample_prev 1 4 4) [1; 3; 4]).
  - vm_compute. reflexivity.
  - discriminate.
Defined.

(** X14 on the last step of the sample run. *)
Lemma final_path_drawn_witness :
  ∃ l d, final_path_edges 4 sample (step_at sample_steps 3)
           (Some 1) (Some 4) = Returns (Some (hops l)) ∧
         head l = Some 4 ∧ path sample 1 l d ∧
         step_dist (step_at sample_steps 3) !! 4 = Some d ∧
         shortest_dist sample 1 4 d ∧
         ∀ a b, (a, b) ∈ hops l → ∃ w, G_weight sample a b = Returns w.
Proof.
  apply (final_path_drawn sample [1; 2; 3; 4] 1 (Some 4) sample_steps).
  - reflexivity.
  - reflexivity.
  - reflexivity.
  - reflexivity.
  - exact sample_run.
  - apply (step_at_elem sample_steps 3 (step_at sample_steps 3)).
    vm_compute. reflexivity.
  - vm_compute. reflexivity.
  - vm_compute. lia.
Defined.

(** X15 on the second step of the sample run, which selects node 2. *)
Lemma trying_edges_open_witness :
  ∃ nbrs, G_neighbors sample 2 = Returns nbrs ∧
    trying_edges (step_trying (step_at sample_steps 1)) =
      (λ v, (2, v)) <$>
      filter (λ v, v ∉ step_closed (step_at sample_steps 1) ∖ {[2]}) nbrs.
Proof.
  pose proof (trying_edges_open sample [1; 2; 3; 4] 1 (Some 4) sample_steps)
    as Hw.
  specialize (Hw eq_refl).
  specialize (Hw ltac:(reflexivity) sample_run (step_at sample_steps 1)).
  assert (step_selected_node (step_at sample_steps 1) = Some 2) as Hsel.
  { vm_compute. reflexivity. }
  rewrite Hsel in Hw. apply Hw.
  apply (step_at_elem sample_steps 1 (step_at sample_steps 1)).
  vm_compute. reflexivity.
Defined.

(** X16: two nodes with the same id are rejected, the sample payload is
    not. *)
Lemma load_graph_raises_iff_witness :
  load_graph_from_json_str twin_payload = Raises ValueError ∧
  ∃ g, load_graph_from_json_str sample_payload = Returns g.
Proof.
  split.
  - apply (proj1 (load_graph_raises_iff twin_payload)).
    intros Hnd. apply NoDup_cons in Hnd as [Hn _]. apply Hn. left.
  - apply (proj2 (load_graph_raises_iff sample_payload)).
    vm_compute. repeat constructor; set_solver.
Defined.

(** X17 on the sample payload. *)
Lemma loaded_graph_wf_witness :
  wf_graph (nx_graph sample_loaded) = true ∧
  nonneg_weights (nx_graph sample_loaded) = true.
Proof.
  destruct (loaded_graph_wf sample_payload sample_loaded sample_load)
    as [Hwf Hnn].
  split; [exact Hwf|]. apply Hnn. apply Forall_forall.
  vm_compute. repeat constructor.
Defined.

(** X18 on a payload with an edge to the undeclared node 3. *)
Lemma loaded_nodes_witness :
  ∃ extra,
    G_nodes (nx_graph stray_loaded) =
      (node_id <$> payload_nodes stray_payload) ++ extra ∧
    ∀ n, n ∈ extra ↔
      (n ∉ node_id <$> payload_nodes stray_payload) ∧
      ∃ e, e ∈ payload_edges stray_payload ∧
           (n = edge_source e ∨ n = edge_target e).
Proof.
  apply (loaded_nodes stray_payload stray_loaded). exact stray_load.
Defined.

(** X19 on a payload that gives the edge between 1 and 2 twice: the
    second weight stays. *)
Lemma loaded_weight_witness :
  G_weight (nx_graph stray_loaded) 1 2 = Returns (Fin 7).
Proof.
  apply (loaded_weight stray_payload stray_loaded 1 2). exact stray_load.
Defined.

(** X20 on the sample payload. *)
Lemma undirected_symmetric_witness :
  G_weight (nx_graph sample_loaded) 2 3 =
  G_weight (nx_graph sample_loaded) 3 2.
Proof.
  apply (undirected_symmetric sample_payload sample_loaded 2 3).
  - reflexivity.
  - exact sample_load.
Defined.

(** X21 on node 2 of a payload that declares it. *)
Lemma loaded_labels_witness :
  ((∀ l, nx_label stray_loaded !! 2 = Some l ↔
         {| node_id := 2; node_label := l |} ∈ payload_nodes stray_payload) ∧
   (is_Some (nx_label stray_loaded !! 2) ↔
      2 ∈ node_id <$> payload_nodes stray_payload)).
Proof.
  apply (loaded_labels stray_payload stray_loaded 2). exact stray_load.
Defined.

(** X22 on the sample payload. *)
Lemma loaded_graph_runs_witness :
  ∃ r, dijkstra_steps (nx_graph sample_loaded) [1; 2; 3; 4] 1 (Some 4)
         = Returns r ∧ r ≠ [] ∧
    ((∀ e, e ∈ payload_edges sample_payload → fle zero (edge_weight e)) →
     ∀ s n, s ∈ r → n ∈ step_closed s →
       ∃ d, step_dist s !! n = Some d ∧
            shortest_dist (nx_graph sample_loaded) 1 n d).
Proof.
  apply (loaded_graph_runs sample_payload sample_loaded [1; 2; 3; 4] 1
           (Some 4)).
  - exact sample_load.
  - reflexivity.
  - vm_compute. set_solver.
Defined.

(** X23 on the second step of the sample run. *)
Lemma node_colors_state_witness :
  length (node_colors sample (step_at sample_steps 1))
    = length (G_nodes sample) ∧
  ∀ i n, G_nodes sample !! i = Some n →
    ∃ c, node_colors sample (step_at sample_steps 1) !! i = Some c ∧
      (c = "#FFFFFF" ↔ n ∉ step_closed (step_at sample_steps 1)) ∧
      (c = "#FFD700" ↔ step_selected_node (step_at sample_steps 1) = Some n) ∧
      (c = "#FF6B6B" ↔
         n ∈ step_closed (step_at sample_steps 1) ∧
         step_selected_node (step_at sample_steps 1) ≠ Some n).
Proof.
  apply (node_colors_state sample [1; 2; 3; 4] 1 (Some 4) sample_steps).
  - reflexivity.
  - reflexivity.
  - exact sample_run.
  - apply (step_at_elem sample_steps 1 (step_at sample_steps 1)).
    vm_compute. reflexivity.
Defined.

(** X24 on a session that presses [Next] more often than there are
    steps. *)
Lemma cursor_addresses_step_witness :
  cursor_ok sample_session_end ∧
  ∀ o, shown_step sample_session_end = Some o → is_Some o.
Proof.
  apply (cursor_addresses_step sample_session). exact sample_session_run.
Defined.

(** ** Runs of the script end *)

Section ScriptReturns.
Context `{Countable NodeId} {F : Float}.
Implicit Types (ss : @Session NodeId _ _ F) (w : @Widgets NodeId F).

(** The loader has no loop that could fail to end. *)
Lemma load_graph_ends (p : @GraphPayload NodeId F) :
  load_graph_from_json_str p ≠ OutOfFuel.
Proof.
  destruct (decide (NoDup (node_id <$> payload_nodes p))) as [Hnd|Hnd].
  - destruct (load_graph_spec p Hnd) as (g & -> & _). done.
  - unfold load_graph_from_json_str. by rewrite (unique_ids_Raises _ Hnd).
Qed.

Lemma upload_returns w ss :
  graph_ok ss → w_uploaded w ≠ Undecodable → w_layout w ≠ OutOfFuel →
  ∃ ss', upload w ss = Returns ss' ∧ graph_ok ss'.
Proof.
  intros Hok Hdec Hlay. unfold upload.
  destruct (w_uploaded w) as [| | |payload]; [by eauto|done| |].
  - simpl. eexists. split; [done|]. by intros g.
  - simpl. destruct (load_graph_from_json_str payload) as [g|e|] eqn:Hload.
    + simpl. destruct (w_layout w) as [[]|e|]; simpl; [| |done].
      * eexists. split; [done|]. intros g' [= <-]. by eapply loaded_wf.
      * eexists. split; [done|]. by intros g'.
    + simpl. eexists. split; [done|]. by intros g'.
    + by apply load_graph_ends in Hload.
Qed.

Lemma prepare_returns w ss :
  graph_ok ss →
  (∀ g, ss_G ss = Some g → w_order w ≡ₚ G_nodes (nx_graph g)) →
  ∃ ss', prepare w ss = Returns ss' ∧ graph_ok ss'.
Proof.
  intros Hok Hord. unfold prepare.
  destruct (ss_G ss) as [g|] eqn:HG; [|by eauto].
  specialize (Hok g HG). specialize (Hord g eq_refl).
  destruct (w_prepare w).
  - destruct (w_start w) as [start|].
    + unfold dijkstra_steps.
      destruct (G_contains (nx_graph g) start) eqn:Hstart.
      * apply G_contains_spec in Hstart.
        destruct (dijkstra_loop_total (nx_graph g) (w_goal w)
                    (length (w_order w))
                    (init_state (nx_graph g) (w_order w) start))
          as [r ->]; [done|by apply Wf_init|done|].
        eexists. split; [done|]. by intros g' [= <-].
      * eexists. split; [done|]. by intros g' [= <-].
    + eexists. split; [done|]. by intros g' [= <-].
  - eexists. split; [done|]. by intros g' [= <-].
Qed.

(** X25. A run of the script never stops on an exception of the loader
    or of the engine: when the uploaded bytes decode, the layout ends
    and the open set is enumerated in some order, the run reaches the
    point where it shows a step, whatever is uploaded, selected or
    pressed; the graph it leaves in the session, if any, keeps the shape
    of a networkx graph. *)
Theorem script_run_returns w ss :
  graph_ok ss → w_uploaded w ≠ Undecodable → w_layout w ≠ OutOfFuel →
  (∀ ss1 g, upload w ss = Returns ss1 → ss_G ss1 = Some g →
     w_order w ≡ₚ G_nodes (nx_graph g)) →
  ∃ ss', script_run w ss = Returns ss' ∧ graph_ok ss'.
Proof.
  intros Hok Hdec Hlay Hord. unfold script_run.
  destruct (upload_returns w ss Hok Hdec Hlay) as (ss1 & H1 & Hok1).
  rewrite H1. simpl.
  destruct (prepare_returns w ss1 Hok1) as (ss2 & H2 & Hok2).
  { intros g. by apply Hord. }
  rewrite H2. simpl. eexists. split; [done|].
  unfold graph_ok, cursor. intros g.
  destruct (ss_G ss2) eqn:HG; [|by rewrite HG].
  destruct (ss_steps ss2); simpl; rewrite ?HG; intros [= <-]; by apply Hok2.
Qed.

End ScriptReturns.

(** X25 on the run that uploads the sample payload and prepares the
    steps. *)
Lemma script_run_returns_witness :
  ∃ ss', script_run (press_prepare (idle (Document sample_payload)))
           initial_session = Returns ss' ∧ graph_ok ss'.
Proof.
  apply (script_run_returns (press_prepare (idle (Document sample_payload)))
           initial_session).
  - intros g Hg. discriminate Hg.
  - discriminate.
  - discriminate.
  - intros ss1 g H1 HG. vm_compute in H1. injection H1 as <-.
    vm_compute in HG. injection HG as <-. reflexivity.
Defined.

(** ** Negative weights *)



(** ** Relaxation attempts and the tables *)

Section AttemptEffects.
Context `{Countable NodeId} {F : Float}.
Implicit Types (G : @Graph NodeId F) (st : @State NodeId _ _ F)
  (goal : option NodeId) (s : @Step NodeId _ _ F)
  (l r : list (@Step NodeId _ _ F)).

(** The [for] loop over neighbours that are pairwise distinct: every
    attempt finds its neighbour as the loop found it, and nothing later
    touches that neighbour again. *)
Lemma relax_loop_effect G (closed : gset NodeId) cur nbrs :
  NoDup nbrs →
  ∀ d p ls d' p' ls',
    for_each nbrs (relax_nbr G closed cur) (d, p, ls) = Returns (d', p', ls') →
    ∃ new, ls' = ls ++ new ∧
      (∀ x, x ∉ nbrs → d' !! x = d !! x ∧ p' !! x = p !! x) ∧
      ∀ k lg, new !! k = Some lg →
        nbrs !! k = Some (log_j lg) ∧ log_ok G closed cur lg ∧
        Some (log_perm_cost lg) = working_dist cur nbrs k d d' ∧
        attempt_effect closed d d' p p' lg.
Proof.
  induction 1 as [|v rest Hv Hnd IH]; intros d p ls d' p' ls' Hr.
  { simpl in Hr. injection Hr as <- <- <-. exists [].
    rewrite app_nil_r. split_and!; [done|done|]. by intros k lg. }
  simpl in Hr. apply bind_Returns in Hr as ([[d1 p1] ls1] & Hb & Hr).
  apply relax_nbr_spec in Hb
    as (w & perm & lg0 & Hw & Hperm & -> & Hj & Hlog & Hlp & Hcase).
  destruct (IH _ _ _ _ _ _ Hr) as (new & -> & Hframe & Hnew).
  assert (∀ x, x ≠ v → d1 !! x = d !! x ∧ p1 !! x = p !! x) as Hone.
  { intros x Hx.
    destruct Hcase as [(_ & -> & ->)
      |(_ & old & _ & [(_ & -> & ->)|(_ & -> & ->)])]; [done| |done].
    by rewrite !lookup_insert_ne. }
  exists (lg0 :: new). split_and!.
  - by rewrite <- app_assoc.
  - intros x Hx. apply not_elem_of_cons in Hx as [Hxv Hx].
    destruct (Hframe x Hx) as [-> ->]. by apply Hone.
  - intros [|k] lg Hk; simpl in Hk.
    + injection Hk as <-. destruct (Hframe v Hv) as [Hdv Hpv].
      split_and!.
      * by rewrite Hj.
      * done.
      * unfold working_dist. cbn [take].
        rewrite decide_False by by intros ?%elem_of_nil.
        by rewrite Hlp.
      * unfold attempt_effect. rewrite Hj, Hdv, Hpv.
        destruct Hlog as (Hi & Hlink & Htemp & _).
        rewrite Hj in Hlink. assert (log_link_cost lg0 = w) as Hlw by congruence.
        rewrite Htemp, Hlp, Hlw, Hi.
        destruct Hcase as [(Hc & -> & ->)
          |(Hc & old & Hold & [(Hlt & -> & ->)|(Hlt & -> & ->)])].
        -- by rewrite decide_True.
        -- rewrite decide_False by done. exists old. split; [done|].
           rewrite Hlt. by rewrite !lookup_insert_eq.
        -- rewrite decide_False by done. exists old. split; [done|].
           by rewrite Hlt.
    + destruct (Hnew k lg Hk) as (Hnk & Hok & Hpk & Heff).
      assert (log_j lg ∈ rest) as Hin by by eapply list_elem_of_lookup_2.
      assert (log_j lg ≠ v) as Hne by by intros <-.
      destruct (Hone _ Hne) as [Hd1 Hp1].
      split_and!; [done|done| |].
      * rewrite Hpk. unfold working_dist. cbn [take].
        destruct (decide (cur = v)) as [->|Hcv].
        -- rewrite decide_False.
           2:{ intros Hin'. by apply (subseteq_take k rest) in Hin'. }
           rewrite decide_True by left. by destruct (Hframe v Hv) as [-> _].
        -- destruct (Hone _ Hcv) as [-> _].
           destruct (decide (cur ∈ take k rest)) as [Hi|Hi].
           ++ by rewrite decide_True by by right.
           ++ rewrite decide_False; [done|].
              intros [?|?]%elem_of_cons; done.
      * unfold attempt_effect in *. by rewrite <- Hd1, <- Hp1.
Qed.

Lemma before_app G start l s i :
  i ≤ length l →
  dist_before G start (l ++ [s]) i = dist_before G start l i ∧
  prev_before G (l ++ [s]) i = prev_before G l i.
Proof.
  intros Hi. destruct i as [|j]; [done|]. simpl.
  by rewrite lookup_app_l by lia.
Qed.

Lemma before_last G start l st :
  snapshot st → pristine G start st → l = steps st →
  dist_before G start l (length l) = dist st ∧
  prev_before G l (length l) = prev st.
Proof.
  intros Hsnap Hpr ->. destruct (steps st) as [|s0 l0] eqn:Hl using rev_ind.
  - simpl. by destruct Hpr as [-> ->].
  - clear IHl0. rewrite length_app. simpl.
    replace (length l0 + 1) with (S (length l0)) by lia. simpl.
    rewrite lookup_app_r, Nat.sub_diag by lia. simpl.
    destruct (Hsnap s0) as (_ & -> & ->); [|done]. by rewrite Hl, last_snoc.
Qed.

Lemma pristine_pass G start goal st c st' :
  loop_body G goal st = Returns (c, st') → pristine G start st'.
Proof.
  intros (s & Hs & _)%loop_body_steps Hnil. rewrite Hs in Hnil.
  by apply app_nil in Hnil as [_ ?].
Qed.

Lemma attempts_pass G start goal st c st' :
  wf_graph G = true → Wf G st → snapshot st → fresh st →
  pristine G start st → attempts_ok G start (steps st) →
  loop_body G goal st = Returns (c, st') →
  attempts_ok G start (steps st').
Proof.
  intros Hwf HWf Hsnap Hfresh Hpr Hok Hb i s u Hi Hu.
  pose proof (closed_before_last (steps st) st Hsnap Hfresh eq_refl) as Hcb.
  destruct (before_last G start (steps st) st Hsnap Hpr eq_refl)
    as [Hdb Hpb].
  assert (∀ s', steps st' = steps st ++ [s'] → i < length (steps st) →
            steps st !! i = Some s →
            ∃ nbrs, G_neighbors G u = Returns nbrs ∧ NoDup nbrs ∧
              log_j <$> step_trying s = nbrs ∧
              (∀ k lg, step_trying s !! k = Some lg →
                 log_ok G (closed_before (steps st') i) u lg ∧
                 Some (log_perm_cost lg) =
                   working_dist u nbrs k (dist_before G start (steps st') i)
                     (step_dist s) ∧
                 attempt_effect (closed_before (steps st') i)
                   (dist_before G start (steps st') i) (step_dist s)
                   (prev_before G (steps st') i) (step_prev s) lg) ∧
              (∀ n, n ∉ nbrs →
                 step_dist s !! n = dist_before G start (steps st') i !! n ∧
                 step_prev s !! n = prev_before G (steps st') i !! n)) as Hold.
  { intros s' -> Hlt Hs.
    rewrite closed_before_app by lia.
    destruct (before_app G start (steps st) s' i) as [-> ->]; [lia|].
    by apply Hok. }
  apply loop_body_spec in Hb
    as (cur & d & Hmin & _ & [(_ & _ & ->)|(_ & _ & nbrs & logs & Hn & Hrel
       & _ & _ & Hcl & Hst)]).
  - cbn [steps] in Hi |- *. apply lookup_app_Some in Hi as [Hi|[Hlen Hi]].
    + apply (Hold (terminal_step st)); [done| |done].
      by apply lookup_lt_Some in Hi.
    + by apply list_lookup_singleton_Some in Hi as [Hi <-].
  - rewrite Hst in Hi. apply lookup_app_Some in Hi as [Hi|[Hlen Hi]].
    + eapply Hold; [done| |done]. by apply lookup_lt_Some in Hi.
    + apply list_lookup_singleton_Some in Hi as [Hi <-].
      simpl in Hu. injection Hu as <-.
      assert (i = length (steps st)) as -> by lia.
      rewrite Hst, closed_before_app, Hcb by lia.
      destruct (before_app G start (steps st)
                  {| step_iter := S (iteration st); step_trying := logs;
                     step_selected_node := Some cur;
                     step_closed := closed st'; step_dist := dist st';
                     step_prev := prev st' |} (length (steps st)))
        as [-> ->]; [lia|].
      rewrite Hdb, Hpb. simpl.
      destruct (wf_graph_neighbors _ _ _ Hwf Hn) as [Hnd _].
      destruct (relax_loop_effect G (closed st) cur nbrs Hnd _ _ _ _ _ _ Hrel)
        as (new & Hnew & Hframe & Hall).
      simpl in Hnew. subst new.
      exists nbrs. split_and!; [done|done| | |done].
      * apply relax_loop_frame in Hrel as (_ & _ & _ & Hj & _). done.
      * intros k lg Hk. by destruct (Hall k lg Hk) as (_ & ? & ? & ?).
Qed.

(** C4, as the code has it.  In every step with a selected node the
    attempts are one per neighbour of that node, in neighbour order.
    Each entry names the edge, its weight, the distance of the selected
    node when the attempt is made and their sum, the candidate distance;
    its [selected] field is always ["N/A"], and its [deleted] field is
    ["already_closed"] exactly when the neighbour had been finalized
    before this step and ["NA"] otherwise: the entry tells a skipped
    attempt from one that was made, and nothing more.  Whether the
    attempt improved the neighbour shows in the tables of the step: a
    neighbour that was not skipped has the candidate as its distance and
    the selected node as its predecessor exactly when the candidate is
    strictly less than the distance it had in the step before;
    otherwise, like a skipped neighbour and like every node that is not
    a neighbour, it has the distance and the predecessor of the step
    before. *)
Theorem attempts_per_neighbor G order start goal r :
  wf_graph G = true → order ≡ₚ G_nodes G →
  dijkstra_steps G order start goal = Returns r →
  ∀ i s u, r !! i = Some s → step_selected_node s = Some u →
    ∃ nbrs, G_neighbors G u = Returns nbrs ∧ NoDup nbrs ∧
      log_j <$> step_trying s = nbrs ∧
      (∀ k lg, step_trying s !! k = Some lg →
         log_ok G (closed_before r i) u lg ∧
         Some (log_perm_cost lg) =
           working_dist u nbrs k (dist_before G start r i) (step_dist s) ∧
         attempt_effect (closed_before r i)
           (dist_before G start r i) (step_dist s)
           (prev_before G r i) (step_prev s) lg) ∧
      (∀ n, n ∉ nbrs →
         step_dist s !! n = dist_before G start r i !! n ∧
         step_prev s !! n = prev_before G r i !! n).
Proof.
  intros Hwf Hperm. unfold dijkstra_steps.
  destruct (G_contains G start) eqn:Hstart; [|done]. intros Hr.
  apply G_contains_spec in Hstart.
  pose (I := λ st : State,
    Wf G st ∧ snapshot st ∧ fresh st ∧ pristine G start st ∧
    attempts_ok G start (steps st)).
  assert (∃ st', I st' ∧ r = steps st') as (st' & HI & ->).
  { apply (dijkstra_loop_inv I I G goal)
      with (length order) (init_state G order start); [done| | |done].
    - intros st c st' (HWf & Hsnap & Hfresh & Hpr & Hok) _ Hb.
      cut (I st'); [by auto|]. unfold I. split_and!.
      + by eapply Wf_pass.
      + by eapply snapshot_pass.
      + by eapply fresh_pass.
      + by eapply pristine_pass.
      + by eapply attempts_pass.
    - unfold I. split_and!; [by apply Wf_init|apply snapshot_init|done|done|].
      by intros i s u ?. }
  by destruct HI as (_ & _ & _ & _ & ?).
Qed.

End AttemptEffects.

(** C4 on the second step of the sample run, which selects node 2 with
    node 1 finalized before. *)
Lemma attempts_per_neighbor_witness :
  ∃ nbrs, G_neighbors sample 2 = Returns nbrs ∧ NoDup nbrs ∧
    log_j <$> step_trying (step_at sample_steps 1) = nbrs ∧
    (∀ k lg, step_trying (step_at sample_steps 1) !! k = Some lg →
       log_ok sample (closed_before sample_steps 1) 2 lg ∧
       Some (log_perm_cost lg) =
         working_dist 2 nbrs k (dist_before sample 1 sample_steps 1)
           (step_dist (step_at sample_steps 1)) ∧
       attempt_effect (closed_before sample_steps 1)
         (dist_before sample 1 sample_steps 1)
         (step_dist (step_at sample_steps 1))
         (prev_before sample sample_steps 1)
         (step_prev (step_at sample_steps 1)) lg) ∧
    (∀ n, n ∉ nbrs →
       step_dist (step_at sample_steps 1) !! n =
         dist_before sample 1 sample_steps 1 !! n ∧
       step_prev (step_at sample_steps 1) !! n =
         prev_before sample sample_steps 1 !! n).
Proof.
  apply (attempts_per_neighbor sample [1; 2; 3; 4] 1 (Some 4) sample_steps).
  - reflexivity.
  - reflexivity.
  - exact sample_run.
  - vm_compute. reflexivity.
  - vm_compute. reflexivity.
Defined.
